(** * raylib-goplus: GIF compositing, playback cursor and unloadable registry

    A shallow embedding of
    - [raylib-gif/gif.go]  (package [rgif]: [LoadGifFromFile], [Step],
      [NextFrame], [Reset], [getGifDimensions]) and
    - the unloadable registry of package [raylib]
      ([addUnloadable], [removeUnloadable], [UnloadAll]).

    Conventions of the embedding.
    - Go [int] is the 64-bit two's-complement integer of the amd64 port: a
      [Z] kept in range by [wrap64] after every arithmetic operation.
    - Go [float32] is IEEE-754 binary32 with round-to-nearest-even, every
      operation rounded on its own: [spec_float] at precision 24 and
      [emax = 128].
    - A Go run either returns, returns an [error], or panics: [result].
    - Slices are lists; an index out of range panics.
    - The decoder ([image/gif]), the file system and the GPU texture are
      outside the repository: a decoded frame is its rectangle and its
      sampling function, a texture is what was last uploaded to it. *)

From Stdlib Require Import ZArith Bool Lia.
From Stdlib Require Import SpecFloat.
From Stdlib Require String.
From stdpp Require Import base option list.

Local Open Scope Z_scope.

(* ===================================================================== *)
(** * Results of a Go call *)

Inductive result (E A : Type) : Type :=
| Ok (a : A)
| Err (e : E)
| Panic.
Arguments Ok {E A} a.
Arguments Err {E A} e.
Arguments Panic {E A}.

#[export] Instance result_bind {E} : MBind (result E) :=
  fun A B f m =>
    match m with
    | Ok a => f a
    | Err e => Err e
    | Panic => Panic
    end.

#[export] Instance result_ret {E} : MRet (result E) := fun A a => Ok a.

(** A run that ends without an [error] value. *)
Definition no_err {E A} (r : result E A) : Prop := forall e, r ≠ Err e.

(* ===================================================================== *)
(** * Go integers *)

Module GoInt.

Definition int_min : Z := - 2 ^ 63.
Definition int_max : Z := 2 ^ 63 - 1.

(** Two's-complement wrap-around of a 64-bit [int]. *)
Definition wrap64 (z : Z) : Z := (z + 2 ^ 63) mod 2 ^ 64 - 2 ^ 63.

Definition add64 (a b : Z) : Z := wrap64 (a + b).
Definition sub64 (a b : Z) : Z := wrap64 (a - b).
Definition mul64 (a b : Z) : Z := wrap64 (a * b).

Definition in_int (z : Z) : Prop := int_min <= z <= int_max.

(** [uint8(v)] of an unsigned 32-bit value: the low eight bits. *)
Definition uint8 (v : Z) : Z := Z.land v 255.

End GoInt.

(* ===================================================================== *)
(** * Go slices *)

Module Slice.
Section Ops.
Context {E A : Type}.

(** [make([]A, len, cap)]: panics when [len] is negative or exceeds
    [cap]; the elements are the zero value. *)
Definition make_cap (zero : A) (len cap : Z) : result E (list A) :=
  if (len <? 0) || (cap <? len) then Panic
  else Ok (replicate (Z.to_nat len) zero).

(** [make([]A, len)]. *)
Definition make (zero : A) (len : Z) : result E (list A) :=
  make_cap zero len len.

(** [s[i]] as an expression. *)
Definition index (s : list A) (i : Z) : result E A :=
  if (i <? 0) then Panic
  else match s !! Z.to_nat i with
       | Some a => Ok a
       | None => Panic
       end.

(** [s[i] = v]. *)
Definition store (s : list A) (i : Z) (v : A) : result E (list A) :=
  if (i <? 0) || (Z.of_nat (length s) <=? i) then Panic
  else Ok (<[Z.to_nat i := v]> s).

(** [for i := 0; i < n; i++ { body }], the body threading a state. *)
Fixpoint for_list {S : Type} (body : Z -> S -> result E S)
         (l : list Z) (s : S) : result E S :=
  match l with
  | [] => Ok s
  | i :: l' =>
      match body i s with
      | Ok s' => for_list body l' s'
      | Err e => Err e
      | Panic => Panic
      end
  end.

Definition for_range {S : Type} (n : Z) (body : Z -> S -> result E S)
           (s : S) : result E S :=
  for_list body (seqZ 0 n) s.
End Ops.
End Slice.

(* ===================================================================== *)
(** * Go float32 *)

Module F32.

Definition prec : Z := 24.
Definition emax : Z := 128.

Definition float32 : Type := spec_float.

Definition zero : float32 := S754_zero false.

(** [float32(n)] for an [int] [n]. *)
Definition of_int (n : Z) : float32 := binary_normalize prec emax n 0 false.
Arguments of_int : simpl never.

Definition add (x y : float32) : float32 := SFadd prec emax x y.
Definition sub (x y : float32) : float32 := SFsub prec emax x y.
Definition mul (x y : float32) : float32 := SFmul prec emax x y.

(** [x >= y] and [x < y]; both are false when an operand is NaN. *)
Definition ge (x y : float32) : bool := SFleb y x.
Definition lt (x y : float32) : bool := SFltb x y.

Definition is_nan (x : float32) : bool :=
  match x with S754_nan => true | _ => false end.

(** Neither NaN nor an infinity. *)
Definition is_finite (x : float32) : bool :=
  match x with S754_zero _ | S754_finite _ _ _ => true | _ => false end.

(** The values of the type: a mantissa of at most 24 bits, normalised
    unless the exponent is the smallest one, and an exponent in range. *)
Definition valid (x : float32) : bool := valid_binary prec emax x.

(** A zero of either sign, or a number or infinity with the sign bit
    clear: the floats with [x >= 0]. *)
Definition nonneg (x : float32) : bool :=
  match x with
  | S754_zero _ => true
  | S754_infinity s | S754_finite s _ _ => negb s
  | S754_nan => false
  end.

(** The floats with [x <= 0]. *)
Definition nonpos (x : float32) : bool :=
  match x with
  | S754_zero _ => true
  | S754_infinity s | S754_finite s _ _ => s
  | S754_nan => false
  end.

(** Not NaN, and with sign bit [s]. *)
Definition signed (s : bool) (x : float32) : Prop :=
  match x with
  | S754_zero s' | S754_infinity s' | S754_finite s' _ _ => s' = s
  | S754_nan => False
  end.

End F32.

(* ===================================================================== *)
(** * The unloadable registry (package raylib) *)

Module Registry.
Section WithHandle.
(** The objects behind the [Unloadable] interface; [==] on interface
    values is decidable equality, [nil] is [None]. *)
Context {H : Type} `{EqDecision H}.

Record state : Type := mkState {
  unloadingAll : bool;
  unloadables : list (option H);
(** the calls of [Unload()] made so far, oldest first *)
invoked : list H
}.

(** [var unloadingAll bool = false],
    [var unloadables []Unloadable = make([]Unloadable, 100)]. *)
Definition initial : state :=
  {| unloadingAll := false;
     unloadables := replicate 100 None;
     invoked := [] |}.

Definition addUnloadable (unloadable : option H) (st : state) : state :=
  {| unloadingAll := unloadingAll st;
     unloadables := unloadables st ++ [unloadable];
     invoked := invoked st |}.

(** The first [i] with [l[i] == u], as the [range] loop with [break]
    finds it. *)
Fixpoint find_slot (u : option H) (l : list (option H)) : option nat :=
  match l with
  | [] => None
  | v :: l' => if decide (v = u) then Some 0%nat
               else S <$> find_slot u l'
  end.

(** [l[i] = l[len(l)-1]; l[len(l)-1] = nil; l = l[:len(l)-1]]. *)
Definition swap_remove (i : nat) (l : list (option H)) : list (option H) :=
  let last := (length l - 1)%nat in
  take last (<[last := None]> (<[i := default None (l !! last)]> l)).

Definition removeUnloadable (unloadable : option H) (st : state) : state :=
  if unloadingAll st then st
  else match find_slot unloadable (unloadables st) with
       | Some i =>
           {| unloadingAll := unloadingAll st;
              unloadables := swap_remove i (unloadables st);
              invoked := invoked st |}
       | None => st
       end.

(** Modelled from the spec: the [Unload] methods behind the [Unloadable]
    interface are in other files of the package. An [Unload] releases its
    resource (here: the call is logged) and, by the comment on
    [removeUnloadable] ("This is called on Unload functions"), unregisters
    the object; [unregisters h] says whether the method of [h] makes that
    call. *)
Definition Unload (unregisters : H -> bool) (h : H) (st : state) : state :=
  let st' := {| unloadingAll := unloadingAll st;
                unloadables := unloadables st;
                invoked := invoked st ++ [h] |} in
  if unregisters h then removeUnloadable (Some h) st' else st'.

(** One iteration of [for _, ul := range unloadables]: the element is
    read from the backing array at iteration time. *)
Definition sweep_step (unregisters : H -> bool) (acc : state * Z) (i : nat)
  : state * Z :=
  match unloadables acc.1 !! i with
  | Some (Some h) => (Unload unregisters h acc.1, GoInt.add64 acc.2 1)
  | _ => acc
  end.

(** [UnloadAll]; returns the new state and the tally it logs. *)
Definition UnloadAll (unregisters : H -> bool) (st : state) : state * Z :=
  let st1 := {| unloadingAll := true;
                unloadables := unloadables st;
                invoked := invoked st |} in
  let r := foldl (sweep_step unregisters) (st1, 0)
                 (seq 0 (length (unloadables st))) in
  ({| unloadingAll := false;
      unloadables := take 0 (unloadables r.1);
      invoked := invoked r.1 |}, r.2).

(** The non-nil entries of the registry, in slot order. *)
Definition entries (st : state) : list H := omap id (unloadables st).

(** How many slots hold [h]. *)
Definition registrations (h : H) (st : state) : nat :=
  length (filter (λ v, v = Some h) (unloadables st)).
End WithHandle.
Arguments state H : clear implicits.
End Registry.

(* ===================================================================== *)
(** * What the decoder hands over (packages image, image/color, image/gif) *)

Module color.
(** The four values of [Color.RGBA()], each a [uint32]. *)
Record RGBA : Type := mkRGBA { red : Z; green : Z; blue : Z; alpha : Z }.
End color.

Module image.
Record Point : Type := mkPoint { X : Z; Y : Z }.
Record Rectangle : Type := mkRect { Min : Point; Max : Point }.
(** A decoded frame: its rectangle and [img.At(x, y).RGBA()]. *)
Record Paletted : Type := mkPaletted {
  Rect : Rectangle;
  At : Z -> Z -> color.RGBA
}.
End image.

Module gif.
Record GIF : Type := mkGIF {
  Image : list image.Paletted;
  Delay : list Z;
  Disposal : list Z
}.
End gif.

(* ===================================================================== *)
(** * Package rgif (raylib-gif/gif.go) *)

Module Rgif.
Import GoInt.

Definition error : Type := String.string.
Abbreviation res := (result error).

(** [type FrameDisposal int]. *)
Abbreviation FrameDisposal := Z (only parsing).
Definition FrameDisposalNone : FrameDisposal := 0.
Definition FrameDisposalDontDispose : FrameDisposal := 1.
Definition FrameDisposalRestoreBackground : FrameDisposal := 2.
Definition FrameDisposalRestorePrevious : FrameDisposal := 3.

(** Modelled from the spec: [r.Color] and [r.NewColor] are declared in
    package raylib, outside these files: an RGBA pixel, 8 bits per
    channel, and its constructor. *)
Record Color : Type := NewColor { R : Z; G : Z; B : Z; A : Z }.

(** The zero value of [r.Color]. *)
Definition Blank : Color := NewColor 0 0 0 0.

(** [r.NewColor(uint8(red), uint8(green), uint8(blue), uint8(alpha))]. *)
Definition narrow (c : color.RGBA) : Color :=
  NewColor (uint8 (color.red c)) (uint8 (color.green c))
           (uint8 (color.blue c)) (uint8 (color.alpha c)).

(** Modelled from the spec: [r.Texture2D], [r.LoadTextureFromGo] and
    [UpdateTexture] are declared in package raylib, outside these files,
    and talk to the GPU: a texture is seen through what was last uploaded
    to it. *)
Inductive Texture2D : Type :=
| LoadTextureFromGo (img : image.Paletted)
| UpdateTexture (pixels : list Color).

Record GifImage : Type := mkGifImage {
  Texture : Texture2D;
  Width : Z;
  Height : Z;
  Frames : Z;
  Timing : list Z;
  Disposal : list FrameDisposal;
  pixels : list (list Color);
  currentFrame : Z;
  lastFrameTime : F32.float32
}.

(** ** getGifDimensions *)

Record extent : Type := mkExtent {
  lowestX : Z; lowestY : Z; highestX : Z; highestY : Z
}.

Definition extent_step (e : extent) (img : image.Paletted) : extent :=
  let r := image.Rect img in
  {| lowestX := if image.X (image.Min r) <? lowestX e
                then image.X (image.Min r) else lowestX e;
     lowestY := if image.Y (image.Min r) <? lowestY e
                then image.Y (image.Min r) else lowestY e;
     highestX := if highestX e <? image.X (image.Max r)
                 then image.X (image.Max r) else highestX e;
     highestY := if highestY e <? image.Y (image.Max r)
                 then image.Y (image.Max r) else highestY e |}.

Definition getGifDimensions (g : gif.GIF) : Z * Z :=
  let e := foldl extent_step (mkExtent 0 0 0 0) (gif.Image g) in
  (sub64 (highestX e) (lowestX e), sub64 (highestY e) (lowestY e)).

Arguments getGifDimensions : simpl never.

(** ** LoadGifFromFile *)

(** The locals of [LoadGifFromFile] that the frame loop reads and
    writes. [pixels_] is the buffer of the frame in progress. *)
Record locals : Type := mkLocals {
  disposals : list FrameDisposal;
  images : list (list Color);
  clumative : list Color;
  previousNonDisposed : image.Paletted;
  pixels_ : list Color
}.

Definition set_pixel (st : locals) (k : Z) (c : Color) : res locals :=
  px ← Slice.store (pixels_ st) k c;
  Ok (mkLocals (disposals st) (images st) (clumative st)
               (previousNonDisposed st) px).

(** [clumative[k] = pixels[k]]. *)
Definition accumulate (st : locals) (k : Z) : res locals :=
  v ← Slice.index (pixels_ st) k;
  cl ← Slice.store (clumative st) k v;
  Ok (mkLocals (disposals st) (images st) cl
               (previousNonDisposed st) (pixels_ st)).

Definition set_previous (st : locals) (img : image.Paletted) : locals :=
  mkLocals (disposals st) (images st) (clumative st) img (pixels_ st).

(** The body of the loop over [x], lines 81 to 116. *)
Definition pixel_body (g : gif.GIF) (imgWidth : Z) (i : Z)
           (img : image.Paletted) (y x : Z) (st : locals) : res locals :=
  let c := image.At img x y in
  let k := add64 x (mul64 y imgWidth) in
  d ← Slice.index (disposals st) i;
  if d =? FrameDisposalNone then
    st1 ← set_pixel st k (narrow c);
    st2 ← accumulate st1 k;
    Ok (set_previous st2 img)
  else if d =? FrameDisposalDontDispose then
    st2 ← (if 0 <? color.alpha c then
             st1 ← set_pixel st k (narrow c);
             accumulate st1 k
           else
             v ← Slice.index (clumative st) k;
             set_pixel st k v);
    Ok (set_previous st2 img)
  else if d =? FrameDisposalRestoreBackground then
    d0 ← Slice.index (disposals st) 0;
    c' ← (if (d0 =? FrameDisposalDontDispose) && (color.alpha c =? 0) then
            img0 ← Slice.index (gif.Image g) 0;
            Ok (image.At img0 x y)
          else Ok c);
    st1 ← set_pixel st k (narrow c');
    accumulate st1 k
  else if d =? FrameDisposalRestorePrevious then
    let c' := if color.alpha c =? 0
              then image.At (previousNonDisposed st) x y else c in
    st1 ← set_pixel st k (narrow c');
    accumulate st1 k
  else Ok st.

(** The body of [for i, img := range gif.Image], lines 75 to 120. *)
Definition frame_body (g : gif.GIF) (imgWidth imgHeight : Z) (i : Z)
           (img : image.Paletted) (st : locals) : res locals :=
  b ← Slice.index (gif.Disposal g) i;
  ds ← Slice.store (disposals st) i b;
  px ← Slice.make Blank (mul64 imgWidth imgHeight);
  let st0 := mkLocals ds (images st) (clumative st)
                      (previousNonDisposed st) px in
  st1 ← Slice.for_range imgHeight
          (λ y, Slice.for_range imgWidth (pixel_body g imgWidth i img y))
          st0;
  imgs ← Slice.store (images st1) i (pixels_ st1);
  Ok (mkLocals (disposals st1) imgs (clumative st1)
               (previousNonDisposed st1) (pixels_ st1)).

(** [for i, img := range l], [i] counting from [i0]. *)
Fixpoint range_frames (body : Z -> image.Paletted -> locals -> res locals)
         (i0 : Z) (l : list image.Paletted) (st : locals) : res locals :=
  match l with
  | [] => Ok st
  | img :: l' =>
      match body i0 img st with
      | Ok st' => range_frames body (i0 + 1) l' st'
      | Err e => Err e
      | Panic => Panic
      end
  end.

(** Lines 64 to 121: the locals when the frame loop is over. *)
Definition composite (g : gif.GIF) : res locals :=
  let imgWidth := (getGifDimensions g).1 in
  let imgHeight := (getGifDimensions g).2 in
  let frames := Z.of_nat (length (gif.Image g)) in
  ds ← Slice.make FrameDisposalNone frames;
  imgs ← Slice.make_cap [] frames (mul64 imgWidth imgHeight);
  cl ← Slice.make Blank (mul64 imgWidth imgHeight);
  img0 ← Slice.index (gif.Image g) 0;
  range_frames (frame_body g imgWidth imgHeight) 0 (gif.Image g)
               (mkLocals ds imgs cl img0 []).

(** Lines 64 to 135, for a file that opened and decoded. *)
Definition load_decoded (g : gif.GIF) : res GifImage :=
  st ← composite g;
  img0 ← Slice.index (gif.Image g) 0;
  Ok {| Texture := LoadTextureFromGo img0;
        pixels := images st;
        Width := (getGifDimensions g).1;
        Height := (getGifDimensions g).2;
        Frames := Z.of_nat (length (gif.Image g));
        Timing := gif.Delay g;
        Disposal := disposals st;
        currentFrame := 0;
        lastFrameTime := F32.zero |}.

(** What [os.Open] and [gif.DecodeAll] make of a file name. *)
Inductive source : Type :=
| OpenFails (err : error)
| DecodeFails (err : error)
| Decoded (g : gif.GIF).

Definition LoadGifFromFile (file : source) : res GifImage :=
  match file with
  | OpenFails err => Err err
  | DecodeFails err => Err err
  | Decoded g => load_decoded g
  end.

(** ** The playback cursor *)

Definition NextFrame (gif : GifImage) : res GifImage :=
  d ← Slice.index (Timing gif) (currentFrame gif);
  let t := F32.sub (lastFrameTime gif) (F32.of_int d) in
  if Frames gif =? 0 then Panic
  else
    let cur := Z.rem (add64 (currentFrame gif) 1) (Frames gif) in
    let t' := if F32.lt t F32.zero then F32.zero else t in
    px ← Slice.index (pixels gif) cur;
    Ok {| Texture := UpdateTexture px;
          pixels := pixels gif;
          Width := Width gif;
          Height := Height gif;
          Frames := Frames gif;
          Timing := Timing gif;
          Disposal := Disposal gif;
          currentFrame := cur;
          lastFrameTime := t' |}.

Definition set_time (gif : GifImage) (t : F32.float32) : GifImage :=
  {| Texture := Texture gif;
     pixels := pixels gif;
     Width := Width gif;
     Height := Height gif;
     Frames := Frames gif;
     Timing := Timing gif;
     Disposal := Disposal gif;
     currentFrame := currentFrame gif;
     lastFrameTime := t |}.

Definition Step (timeSinceLastStep : F32.float32) (gif : GifImage)
  : res GifImage :=
  let gif1 := set_time gif (F32.add (lastFrameTime gif)
                              (F32.mul timeSinceLastStep (F32.of_int 100))) in
  d ← Slice.index (Timing gif1) (currentFrame gif1);
  let diff := F32.sub (lastFrameTime gif1) (F32.of_int d) in
  if F32.ge diff F32.zero then NextFrame gif1 else Ok gif1.

Definition Reset (gif : GifImage) : GifImage :=
  {| Texture := Texture gif;
     pixels := pixels gif;
     Width := Width gif;
     Height := Height gif;
     Frames := Frames gif;
     Timing := Timing gif;
     Disposal := Disposal gif;
     currentFrame := 0;
     lastFrameTime := F32.zero |}.

Definition CurrentFrame (gif : GifImage) : Z := currentFrame gif.

Definition CurrentTiming (gif : GifImage) : res Z :=
  Slice.index (Timing gif) (currentFrame gif).

(** A finite sequence of calls on one [GifImage]. *)
Inductive call : Type :=
| CallStep (timeSinceLastStep : F32.float32)
| CallNextFrame
| CallReset.

Definition do_call (c : call) (gif : GifImage) : res GifImage :=
  match c with
  | CallStep dt => Step dt gif
  | CallNextFrame => NextFrame gif
  | CallReset => Ok (Reset gif)
  end.

Fixpoint do_calls (cs : list call) (gif : GifImage) : res GifImage :=
  match cs with
  | [] => Ok gif
  | c :: cs' =>
      match do_call c gif with
      | Ok gif' => do_calls cs' gif'
      | Err e => Err e
      | Panic => Panic
      end
  end.
End Rgif.

(* ===================================================================== *)
(** * Notions used to state the properties *)

Module Props.
Import GoInt Rgif.

(** ** Frame geometry *)

Definition MinX (img : image.Paletted) : Z := image.X (image.Min (image.Rect img)).
Definition MinY (img : image.Paletted) : Z := image.Y (image.Min (image.Rect img)).
Definition MaxX (img : image.Paletted) : Z := image.X (image.Max (image.Rect img)).
Definition MaxY (img : image.Paletted) : Z := image.Y (image.Max (image.Rect img)).

(** The bounding box of a non-empty sequence of rectangles, in the words
    of the specification: the maximum over all maxes minus the minimum
    over all mins, on each axis. *)
Definition max_over (f : image.Paletted -> Z) (img0 : image.Paletted)
           (rest : list image.Paletted) : Z :=
  foldr Z.max (f img0) (f <$> rest).

Definition min_over (f : image.Paletted -> Z) (img0 : image.Paletted)
           (rest : list image.Paletted) : Z :=
  foldr Z.min (f img0) (f <$> rest).

Definition bounding_box (img0 : image.Paletted) (rest : list image.Paletted)
  : Z * Z :=
  (max_over MaxX img0 rest - min_over MinX img0 rest,
   max_over MaxY img0 rest - min_over MinY img0 rest).

(** The bounding box of the rectangles and the origin. *)
Definition bounding_box_with_origin (img0 : image.Paletted)
           (rest : list image.Paletted) : Z * Z :=
  (Z.max 0 (max_over MaxX img0 rest) - Z.min 0 (min_over MinX img0 rest),
   Z.max 0 (max_over MaxY img0 rest) - Z.min 0 (min_over MinY img0 rest)).

(** Coordinates small enough for a difference to fit an [int]. *)
Definition coord_bound : Z := 2 ^ 62 - 1.

(** Every coordinate of every frame rectangle lies in [[-b, b]]. *)
Definition rects_within (b : Z) (g : gif.GIF) : Prop :=
  Forall (λ img, (- b <= MinX img <= b /\ - b <= MaxX img <= b)
                 /\ (- b <= MinY img <= b /\ - b <= MaxY img <= b))
         (gif.Image g).

Definition width (g : gif.GIF) : Z := (getGifDimensions g).1.
Definition height (g : gif.GIF) : Z := (getGifDimensions g).2.
Definition frames (g : gif.GIF) : Z := Z.of_nat (length (gif.Image g)).

(** ** Structurally invalid animations, in the words of the
    specification: zero frames, a non-positive bounding dimension, or
    tables of different lengths. *)
Definition invalid_animation (g : gif.GIF) : Prop :=
  gif.Image g = []
  \/ width g <= 0 \/ height g <= 0
  \/ length (gif.Delay g) ≠ length (gif.Image g)
  \/ length (gif.Disposal g) ≠ length (gif.Image g).

Definition with_delay (g : gif.GIF) (delay : list Z) : gif.GIF :=
  gif.mkGIF (gif.Image g) delay (gif.Disposal g).

Definition with_timing (p : GifImage) (timing : list Z) : GifImage :=
  {| Texture := Texture p; pixels := pixels p; Width := Width p;
     Height := Height p; Frames := Frames p; Timing := timing;
     Disposal := Disposal p; currentFrame := currentFrame p;
     lastFrameTime := lastFrameTime p |}.

(** ** Compositing *)

(** Where pixel [(x, y)] sits in a row-major buffer [w] pixels wide. *)
Definition offset (w x y : Z) : nat := Z.to_nat (x + y * w).

(** The four disposal codes the switch has a case for. *)
Definition known (d : FrameDisposal) : Prop := 0 <= d <= 3.

(** [FrameDisposalNone] and [FrameDisposalDontDispose]: the two cases
    that assign [previousNonDisposed]. *)
Definition keeps (d : FrameDisposal) : bool := (d =? 0) || (d =? 1).

(** The colour the switch gives pixel [(x, y)] of frame [img] with
    disposal [d], where [d0] and [img0] are the disposal and the image of
    frame 0, [prev] is [previousNonDisposed] and [old] is the entry of
    [clumative] for the pixel before the frame. *)
Definition resolved (d d0 : FrameDisposal) (img img0 prev : image.Paletted)
           (old : Color) (x y : Z) : Color :=
  let c := image.At img x y in
  if d =? FrameDisposalNone then narrow c
  else if d =? FrameDisposalDontDispose then
    if 0 <? color.alpha c then narrow c else old
  else if d =? FrameDisposalRestoreBackground then
    narrow (if (d0 =? FrameDisposalDontDispose) && (color.alpha c =? 0)
            then image.At img0 x y else c)
  else
    narrow (if color.alpha c =? 0 then image.At prev x y else c).

(** Where the pixel loops of one frame stand: [st0] are the locals when
    the loops start, [st] the locals now, [finished x y] says that pixel
    [(x, y)] has been processed, [v old x y] is the colour it resolves to
    when [clumative] held [old] for it, and [assigned] says that
    [previousNonDisposed] has been set to [img]. *)
Definition pixels_done (w h : Z) (v : Color -> Z -> Z -> Color)
           (finished : Z -> Z -> Prop) (assigned : bool)
           (img : image.Paletted) (st0 st : locals) : Prop :=
  disposals st = disposals st0
  /\ images st = images st0
  /\ length (pixels_ st) = length (pixels_ st0)
  /\ length (clumative st) = length (clumative st0)
  /\ previousNonDisposed st
     = (if assigned then img else previousNonDisposed st0)
  /\ (forall x y, 0 <= x < w -> 0 <= y < h -> finished x y ->
        exists old, clumative st0 !! offset w x y = Some old
                    /\ pixels_ st !! offset w x y = Some (v old x y)
                    /\ clumative st !! offset w x y = Some (v old x y))
  /\ (forall x y, 0 <= x < w -> 0 <= y < h -> ~ finished x y ->
        clumative st !! offset w x y = clumative st0 !! offset w x y).

(** The index of the frame [previousNonDisposed] points to when frame
    [i] is about to be processed: the last frame before [i] whose disposal
    is [None] or [DontDispose], and frame 0 when there is none. *)
Fixpoint last_non_disposed (ds : list FrameDisposal) (i : nat) : nat :=
  match i with
  | O => O
  | S j => match ds !! j with
           | Some d => if keeps d then j else last_non_disposed ds j
           | None => last_non_disposed ds j
           end
  end.

(** The same index in the words of the specification: the last frame
    before [i] whose disposal is not [RestorePrevious]. *)
Fixpoint last_not_restore_previous (ds : list FrameDisposal) (i : nat) : nat :=
  match i with
  | O => O
  | S j => match ds !! j with
           | Some d => if d =? FrameDisposalRestorePrevious
                       then last_not_restore_previous ds j else j
           | None => last_not_restore_previous ds j
           end
  end.

(** The locals of [LoadGifFromFile] after the first [n] iterations of the
    frame loop. *)
Definition composite_upto (g : gif.GIF) (n : nat) : res locals :=
  let imgWidth := (getGifDimensions g).1 in
  let imgHeight := (getGifDimensions g).2 in
  let frames := Z.of_nat (length (gif.Image g)) in
  ds ← Slice.make FrameDisposalNone frames;
  imgs ← Slice.make_cap [] frames (mul64 imgWidth imgHeight);
  cl ← Slice.make Blank (mul64 imgWidth imgHeight);
  img0 ← Slice.index (gif.Image g) 0;
  range_frames (frame_body g imgWidth imgHeight) 0 (take n (gif.Image g))
               (mkLocals ds imgs cl img0 []).

(** [buf] holds frame [j] of [g] resolved: every pixel is the colour the
    switch gives it, for some earlier content [old] of [clumative]. *)
Definition frame_resolved (g : gif.GIF) (j : nat) (buf : list Color) : Prop :=
  forall img d d0 img0 prev,
    gif.Image g !! j = Some img ->
    gif.Disposal g !! j = Some d -> known d ->
    gif.Disposal g !! 0%nat = Some d0 ->
    gif.Image g !! 0%nat = Some img0 ->
    gif.Image g !! last_non_disposed (gif.Disposal g) j = Some prev ->
    forall x y, 0 <= x < width g -> 0 <= y < height g ->
      exists old, buf !! offset (width g) x y
                  = Some (resolved d d0 img img0 prev old x y).

(** The locals of [LoadGifFromFile] after [n] iterations of the frame
    loop. *)
Definition frames_done (g : gif.GIF) (n : nat) (st : locals) : Prop :=
  length (disposals st) = length (gif.Image g)
  /\ length (images st) = length (gif.Image g)
  /\ length (clumative st) = Z.to_nat (width g * height g)
  /\ (forall j, (j < n)%nat -> disposals st !! j = gif.Disposal g !! j)
  /\ gif.Image g !! last_non_disposed (gif.Disposal g) n
     = Some (previousNonDisposed st)
  /\ (forall j, (j < n)%nat ->
        exists buf, images st !! j = Some buf
                    /\ length buf = Z.to_nat (width g * height g)
                    /\ frame_resolved g j buf)
  /\ (forall j d buf, n = S j ->
        gif.Disposal g !! j = Some d -> known d ->
        images st !! j = Some buf ->
        forall x y, 0 <= x < width g -> 0 <= y < height g ->
          is_Some (buf !! offset (width g) x y)
          /\ clumative st !! offset (width g) x y
             = buf !! offset (width g) x y).

(** Animations on which the load goes through: at least one frame, a
    disposal code for every frame, positive dimensions, a pixel count that
    fits an [int] and is not below the frame count. *)
Record loadable (g : gif.GIF) : Prop := mkLoadable {
  loadable_frames : gif.Image g ≠ [];
  loadable_disposal : (length (gif.Image g) <= length (gif.Disposal g))%nat;
  loadable_width : 0 < width g;
  loadable_height : 0 < height g;
  loadable_area : width g * height g <= int_max;
  loadable_cache : frames g <= width g * height g
}.

(** ** The playback cursor *)

(** A [GifImage] over at least one frame, with a delay and a resolved
    buffer for every frame. *)
Record player_ok (p : GifImage) : Prop := mkPlayerOk {
  player_frames : 1 <= Frames p <= int_max;
  player_timing : Z.of_nat (length (Timing p)) = Frames p;
  player_pixels : Z.of_nat (length (pixels p)) = Frames p;
  player_delays : Forall in_int (Timing p)
}.

(** The index is in range and the accumulated time is [>= 0]. *)
Definition cursor_ok (p : GifImage) : Prop :=
  0 <= currentFrame p < Frames p
  /\ F32.ge (lastFrameTime p) F32.zero = true.

(** A call with an elapsed time that is [>= 0]. *)
Definition call_ok (c : call) : Prop :=
  match c with
  | CallStep dt => F32.ge dt F32.zero = true
  | CallNextFrame | CallReset => True
  end.

(** A call with an elapsed time that is a value of [float32]. *)
Definition call_valid (c : call) : Prop :=
  match c with
  | CallStep dt => F32.valid dt = true
  | CallNextFrame | CallReset => True
  end.

(** The calls change the cursor and the texture only. *)
Definition same_animation (p p' : GifImage) : Prop :=
  Frames p' = Frames p /\ Timing p' = Timing p /\ pixels p' = pixels p
  /\ Width p' = Width p /\ Height p' = Height p
  /\ Disposal p' = Disposal p.
End Props.

(* ===================================================================== *)
(** * Further notions: one iteration of the frame loop, seen from outside *)

Module Trace.
Import GoInt Rgif Props.

(** What the iteration for frame [n] (image [img], disposal code [d])
    does to the locals: [st] before, [st'] after. The buffers of the other
    frames stay; the buffer of frame [n] has one entry per pixel; for a
    code the switch knows, every pixel is resolved from the entry
    [clumative] held for it before the frame, and [clumative] then holds
    the resolved colour; for any other code the buffer is all zero and the
    running state is untouched. *)
Definition frame_effect (g : gif.GIF) (n : nat) (img : image.Paletted)
           (d : Z) (st st' : locals) : Prop :=
  (forall j, j ≠ n -> images st' !! j = images st !! j)
  /\ exists buf,
      images st' !! n = Some buf
      /\ length buf = Z.to_nat (width g * height g)
      /\ (known d ->
          forall d0 img0,
            gif.Disposal g !! 0%nat = Some d0 ->
            gif.Image g !! 0%nat = Some img0 ->
            forall x y, 0 <= x < width g -> 0 <= y < height g ->
              exists old,
                clumative st !! offset (width g) x y = Some old
                /\ buf !! offset (width g) x y
                   = Some (resolved d d0 img img0 (previousNonDisposed st) old x y)
                /\ clumative st' !! offset (width g) x y
                   = buf !! offset (width g) x y)
      /\ (~ known d ->
          buf = replicate (Z.to_nat (width g * height g)) Blank
          /\ clumative st' = clumative st
          /\ previousNonDisposed st' = previousNonDisposed st).

(** Every frame rectangle starts at or after the origin, as the
    rectangles of a decoded GIF do. *)
Definition rects_from_origin (g : gif.GIF) : Prop :=
  Forall (λ img, 0 <= MinX img /\ 0 <= MinY img) (gif.Image g).

End Trace.

(* ===================================================================== *)
(** * Concrete animations *)

Module Examples.
Import Rgif.

(** A frame with rectangle [(x0, y0)-(x1, y1)] and one colour everywhere. *)
Definition solid (x0 y0 x1 y1 : Z) (c : color.RGBA) : image.Paletted :=
  image.mkPaletted (image.mkRect (image.mkPoint x0 y0) (image.mkPoint x1 y1))
                   (fun _ _ => c).

Definition opaque_red : color.RGBA := color.mkRGBA 65535 0 0 65535.
Definition opaque_green : color.RGBA := color.mkRGBA 0 65535 0 65535.
Definition transparent : color.RGBA := color.mkRGBA 0 0 0 0.

(** One 5 by 5 frame placed at (5, 5). *)
Definition frame_5_10 : image.Paletted := solid 5 5 10 10 transparent.
Definition off_origin : gif.GIF := gif.mkGIF [frame_5_10] [10] [0].

(** No frame at all. *)
Definition no_frames : gif.GIF := gif.mkGIF [] [] [].

(** One frame whose rectangle is empty, with a delay and a disposal code. *)
Definition empty_rect : gif.GIF :=
  gif.mkGIF [solid 0 0 0 0 transparent] [10] [0].

(** Thirty frames of a 5 by 5 animation. *)
Definition thirty_5x5 : gif.GIF :=
  gif.mkGIF (replicate 30 (solid 0 0 5 5 opaque_red))
            (replicate 30 10) (replicate 30 0).

(** Two 2 by 2 frames and a delay table of length one. *)
Definition short_delay : gif.GIF :=
  gif.mkGIF [solid 0 0 2 2 opaque_red; solid 0 0 2 2 opaque_green] [10] [0; 0].

(** Three 2 by 2 frames: red with disposal [None], green with
    [RestoreBackground], fully transparent with [RestorePrevious]. *)
Definition red_frame : image.Paletted := solid 0 0 2 2 opaque_red.
Definition green_frame : image.Paletted := solid 0 0 2 2 opaque_green.
Definition clear_frame : image.Paletted := solid 0 0 2 2 transparent.

Definition red_green_clear : gif.GIF :=
  gif.mkGIF [red_frame; green_frame; clear_frame] [10; 10; 10]
            [FrameDisposalNone; FrameDisposalRestoreBackground;
             FrameDisposalRestorePrevious].

(** The example of the specification: red with [None], then a frame with
    [DontDispose], then a fully transparent frame with
    [RestoreBackground]. *)
Definition red_green_background : gif.GIF :=
  gif.mkGIF [red_frame; green_frame; clear_frame] [10; 10; 10]
            [FrameDisposalNone; FrameDisposalDontDispose;
             FrameDisposalRestoreBackground].

(** A red 2 by 2 frame with [None], then a transparent frame with
    [DontDispose], then a green frame with the disposal code 5, which the
    switch has no case for. *)
Definition red_clear_odd : gif.GIF :=
  gif.mkGIF [red_frame; clear_frame; green_frame] [10; 10; 10]
            [FrameDisposalNone; FrameDisposalDontDispose; 5].

(** A freshly loaded player over three frames with delays 10, 10, 10. *)
Definition player_10_10_10 : GifImage :=
  {| Texture := LoadTextureFromGo red_frame;
     Width := 2; Height := 2; Frames := 3;
     Timing := [10; 10; 10];
     Disposal := [FrameDisposalNone; FrameDisposalRestoreBackground;
                  FrameDisposalRestorePrevious];
     pixels := [replicate 4 (NewColor 255 0 0 255);
                replicate 4 (NewColor 0 255 0 255);
                replicate 4 (NewColor 255 0 0 255)];
     currentFrame := 0;
     lastFrameTime := F32.zero |}.

(** The same player on its last frame, whose delay is 0. *)
Definition player_last_zero : GifImage :=
  {| Texture := LoadTextureFromGo red_frame;
     Width := 2; Height := 2; Frames := 3;
     Timing := [10; 10; 0];
     Disposal := [FrameDisposalNone; FrameDisposalRestoreBackground;
                  FrameDisposalRestorePrevious];
     pixels := [replicate 4 (NewColor 255 0 0 255);
                replicate 4 (NewColor 0 255 0 255);
                replicate 4 (NewColor 255 0 0 255)];
     currentFrame := 2;
     lastFrameTime := F32.zero |}.
End Examples.

(* ===================================================================== *)
(** * Integers, slices and loops *)

Section GoIntFacts.
Import GoInt.

Lemma wrap64_id z : in_int z -> wrap64 z = z.
Proof.
  unfold in_int, int_min, int_max, wrap64. intros Hz.
  rewrite Z.mod_small by lia. lia.
Qed.

Lemma wrap64_range z : in_int (wrap64 z).
Proof.
  unfold in_int, int_min, int_max, wrap64.
  pose proof (Z.mod_pos_bound (z + 2 ^ 63) (2 ^ 64) ltac:(lia)). lia.
Qed.

Lemma mul64_zero_l b : mul64 0 b = 0.
Proof. reflexivity. Qed.

Lemma mul64_zero_r a : mul64 a 0 = 0.
Proof. unfold mul64. by rewrite Z.mul_0_r. Qed.
End GoIntFacts.

Section ResultFacts.
Context {E : Type}.

Lemma bind_Ok {A B} (a : A) (f : A -> result E B) : (Ok a ≫= f) = f a.
Proof. reflexivity. Qed.

Lemma bind_Panic {A B} (f : A -> result E B) : (Panic ≫= f) = Panic.
Proof. reflexivity. Qed.

Lemma bind_Ok_inv {A B} (m : result E A) (f : A -> result E B) b :
  (m ≫= f) = Ok b -> exists a, m = Ok a /\ f a = Ok b.
Proof. destruct m as [a| |]; try done. intros Hf. by exists a. Qed.

Lemma no_err_Ok {A} (a : A) : no_err (E:=E) (Ok a).
Proof. intros e. discriminate. Qed.

Lemma no_err_Panic {A} : no_err (@Panic E A).
Proof. intros e. discriminate. Qed.

Lemma no_err_bind {A B} (m : result E A) (f : A -> result E B) :
  no_err m -> (forall a, no_err (f a)) -> no_err (m ≫= f).
Proof.
  intros Hm Hf e. destruct m as [a|e'|]; simpl.
  - apply Hf.
  - by destruct (Hm e').
  - discriminate.
Qed.

Lemma no_err_make_cap {A} (z : A) len cap :
  no_err (Slice.make_cap (E:=E) z len cap).
Proof. intros e. unfold Slice.make_cap. by destruct (_ || _). Qed.

Lemma no_err_index {A} (s : list A) i : no_err (Slice.index (E:=E) s i).
Proof.
  intros e. unfold Slice.index.
  destruct (i <? 0); [done|]. by destruct (s !! Z.to_nat i).
Qed.

Lemma no_err_store {A} (s : list A) i v :
  no_err (Slice.store (E:=E) s i v).
Proof. intros e. unfold Slice.store. by destruct (_ || _). Qed.

Lemma no_err_for_list {St} (body : Z -> St -> result E St) l s :
  (forall i s, no_err (body i s)) -> no_err (Slice.for_list body l s).
Proof.
  intros Hb. revert s. induction l as [|i l IH]; intros s; simpl.
  - apply no_err_Ok.
  - pose proof (Hb i s) as Hi. destruct (body i s) as [s'|e'|].
    + apply IH.
    + by destruct (Hi e').
    + apply no_err_Panic.
Qed.

Lemma index_Ok {A} (s : list A) i a :
  0 <= i -> s !! Z.to_nat i = Some a -> Slice.index (E:=E) s i = Ok a.
Proof.
  intros Hi Ha. unfold Slice.index.
  destruct (Z.ltb_spec i 0); [lia|]. by rewrite Ha.
Qed.

Lemma index_Ok_inv {A} (s : list A) i a :
  Slice.index (E:=E) s i = Ok a -> 0 <= i /\ s !! Z.to_nat i = Some a.
Proof.
  unfold Slice.index. destruct (Z.ltb_spec i 0); [done|].
  destruct (s !! Z.to_nat i); [|done]. intros [= ->]. split; [lia|done].
Qed.

Lemma index_out {A} (s : list A) i :
  Z.of_nat (length s) <= i -> Slice.index (E:=E) s i = Panic.
Proof.
  intros Hi. unfold Slice.index.
  destruct (Z.ltb_spec i 0); [done|].
  rewrite lookup_ge_None_2; [done|lia].
Qed.

Lemma store_Ok {A} (s : list A) i v :
  0 <= i < Z.of_nat (length s) ->
  Slice.store (E:=E) s i v = Ok (<[Z.to_nat i := v]> s).
Proof.
  intros Hi. unfold Slice.store.
  destruct (Z.ltb_spec i 0); [lia|].
  destruct (Z.leb_spec (Z.of_nat (length s)) i); [lia|]. done.
Qed.

Lemma make_Ok {A} (z : A) n :
  0 <= n -> Slice.make (E:=E) z n = Ok (replicate (Z.to_nat n) z).
Proof.
  intros Hn. unfold Slice.make, Slice.make_cap.
  destruct (Z.ltb_spec n 0); [lia|].
  destruct (Z.ltb_spec n n); [lia|]. done.
Qed.

(** A counting loop whose body keeps an invariant runs to its end and
    establishes the invariant at the bound. *)
Lemma for_range_inv {St} (I : Z -> St -> Prop) n
      (body : Z -> St -> result E St) s :
  I 0 s ->
  (forall k s, 0 <= k < n -> I k s ->
               exists s', body k s = Ok s' /\ I (k + 1) s') ->
  exists s', Slice.for_range n body s = Ok s' /\ I (Z.max 0 n) s'.
Proof.
  intros H0 Hstep. unfold Slice.for_range.
  assert (forall len m s, 0 <= m -> m + Z.of_nat len = Z.max 0 n -> I m s ->
            exists s', Slice.for_list body (seqZ m (Z.of_nat len)) s = Ok s'
                       /\ I (Z.max 0 n) s') as Hgen.
  { induction len as [|len IH]; intros m s0 Hm Hlen Hi.
    - simpl. exists s0. split; [done|].
      replace (Z.max 0 n) with m by lia. done.
    - rewrite seqZ_cons by lia. simpl.
      destruct (Hstep m s0 ltac:(lia) Hi) as (s1 & -> & Hi1).
      replace (Z.pred (Z.of_nat (S len))) with (Z.of_nat len) by lia.
      apply IH; [lia|lia|]. by replace (Z.succ m) with (m + 1) by lia. }
  destruct (Z.le_gt_cases n 0) as [Hn|Hn].
  - rewrite seqZ_nil by done. simpl. exists s. split; [done|].
    by replace (Z.max 0 n) with 0 by lia.
  - destruct (Hgen (Z.to_nat n) 0 s ltac:(lia) ltac:(lia) H0) as (s' & Hs' & Hi).
    exists s'. split; [|done]. by rewrite Z2Nat.id in Hs' by lia.
Qed.
End ResultFacts.

(* ===================================================================== *)
(** * getGifDimensions *)

Section Dimensions.
Import GoInt Rgif Props.

Lemma foldr_min_acc a b (l : list Z) :
  foldr Z.min (Z.min a b) l = Z.min a (foldr Z.min b l).
Proof. induction l as [|c l IH]; simpl; [done|]. rewrite IH. lia. Qed.

Lemma foldr_max_acc a b (l : list Z) :
  foldr Z.max (Z.max a b) l = Z.max a (foldr Z.max b l).
Proof. induction l as [|c l IH]; simpl; [done|]. rewrite IH. lia. Qed.

Lemma extent_step_min_max e img :
  lowestX (extent_step e img) = Z.min (MinX img) (lowestX e)
  /\ lowestY (extent_step e img) = Z.min (MinY img) (lowestY e)
  /\ highestX (extent_step e img) = Z.max (MaxX img) (highestX e)
  /\ highestY (extent_step e img) = Z.max (MaxY img) (highestY e).
Proof.
  unfold extent_step, MinX, MinY, MaxX, MaxY. simpl.
  repeat split;
    match goal with |- context [?a <? ?b] => destruct (Z.ltb_spec a b) end;
    lia.
Qed.

Lemma extent_fold e l :
  lowestX (foldl extent_step e l) = foldr Z.min (lowestX e) (MinX <$> l)
  /\ lowestY (foldl extent_step e l) = foldr Z.min (lowestY e) (MinY <$> l)
  /\ highestX (foldl extent_step e l) = foldr Z.max (highestX e) (MaxX <$> l)
  /\ highestY (foldl extent_step e l) = foldr Z.max (highestY e) (MaxY <$> l).
Proof.
  revert e. induction l as [|img l IH]; intros e; [done|].
  simpl. destruct (IH (extent_step e img)) as (-> & -> & -> & ->).
  destruct (extent_step_min_max e img) as (-> & -> & -> & ->).
  by rewrite !foldr_min_acc, !foldr_max_acc.
Qed.

Lemma foldr_min_bounds b d (l : list Z) :
  - b <= d <= b -> Forall (λ z, - b <= z <= b) l ->
  - b <= foldr Z.min d l <= b.
Proof. intros Hd Hl. induction Hl; simpl; lia. Qed.

Lemma foldr_max_bounds b d (l : list Z) :
  - b <= d <= b -> Forall (λ z, - b <= z <= b) l ->
  - b <= foldr Z.max d l <= b.
Proof. intros Hd Hl. induction Hl; simpl; lia. Qed.

(** Both accumulators start at zero, so the low corner is never above the
    origin and the high corner never below it. *)
Lemma extent_origin (l : list image.Paletted) :
  let e := foldl extent_step (mkExtent 0 0 0 0) l in
  lowestX e <= 0 <= highestX e /\ lowestY e <= 0 <= highestY e.
Proof.
  intros e. subst e.
  destruct (extent_fold (mkExtent 0 0 0 0) l) as (-> & -> & -> & ->). simpl.
  assert (forall l : list Z, foldr Z.min 0 l <= 0) as Hmin
    by (intros l'; induction l'; simpl; lia).
  assert (forall l : list Z, 0 <= foldr Z.max 0 l) as Hmax
    by (intros l'; induction l'; simpl; lia).
  repeat split; auto.
Qed.

Lemma getGifDimensions_origin g img0 rest :
  gif.Image g = img0 :: rest ->
  getGifDimensions g =
    (sub64 (Z.max 0 (max_over MaxX img0 rest)) (Z.min 0 (min_over MinX img0 rest)),
     sub64 (Z.max 0 (max_over MaxY img0 rest)) (Z.min 0 (min_over MinY img0 rest))).
Proof.
  intros Himg. unfold getGifDimensions. rewrite Himg.
  destruct (extent_fold (mkExtent 0 0 0 0) (img0 :: rest)) as (-> & -> & -> & ->).
  unfold max_over, min_over. rewrite !fmap_cons. simpl.
  rewrite <- !foldr_min_acc, <- !foldr_max_acc.
  by rewrite !(Z.min_comm 0), !(Z.max_comm 0).
Qed.

Lemma over_bounds g img0 rest :
  gif.Image g = img0 :: rest -> rects_within coord_bound g ->
  (- coord_bound <= min_over MinX img0 rest <= coord_bound
   /\ - coord_bound <= max_over MaxX img0 rest <= coord_bound)
  /\ (- coord_bound <= min_over MinY img0 rest <= coord_bound
      /\ - coord_bound <= max_over MaxY img0 rest <= coord_bound).
Proof.
  unfold rects_within. intros -> Hall.
  apply Forall_cons in Hall as [H0 Hrest].
  assert (forall f : image.Paletted -> Z,
            (forall img, (- coord_bound <= MinX img <= coord_bound
                          /\ - coord_bound <= MaxX img <= coord_bound)
                         /\ (- coord_bound <= MinY img <= coord_bound
                             /\ - coord_bound <= MaxY img <= coord_bound) ->
                         - coord_bound <= f img <= coord_bound) ->
            Forall (λ z, - coord_bound <= z <= coord_bound) (f <$> rest)) as Hf.
  { intros f Hfb. apply Forall_fmap. eapply Forall_impl; [exact Hrest|].
    intros img Himg. apply Hfb, Himg. }
  unfold min_over, max_over.
  split; split.
  - apply foldr_min_bounds; [tauto|]. apply Hf. tauto.
  - apply foldr_max_bounds; [tauto|]. apply Hf. tauto.
  - apply foldr_min_bounds; [tauto|]. apply Hf. tauto.
  - apply foldr_max_bounds; [tauto|]. apply Hf. tauto.
Qed.

(** C6, as the code has it. The dimensions are those of the bounding box
    of the frame rectangles together with the origin: the maximum of 0 and
    all [Max] minus the minimum of 0 and all [Min]. They are never
    negative, and they are the dimensions of the rectangles' own bounding
    box when that box reaches the origin on both axes. *)
Theorem getGifDimensions_bounding_box_with_origin g img0 rest :
  gif.Image g = img0 :: rest ->
  rects_within coord_bound g ->
  getGifDimensions g = bounding_box_with_origin img0 rest
  /\ 0 <= (getGifDimensions g).1 /\ 0 <= (getGifDimensions g).2
  /\ (min_over MinX img0 rest <= 0 <= max_over MaxX img0 rest ->
      min_over MinY img0 rest <= 0 <= max_over MaxY img0 rest ->
      getGifDimensions g = bounding_box img0 rest).
Proof.
  intros Himg Hb.
  destruct (over_bounds g img0 rest Himg Hb) as [[Hx1 Hx2] [Hy1 Hy2]].
  unfold coord_bound in *.
  rewrite (getGifDimensions_origin g img0 rest Himg).
  unfold bounding_box_with_origin, bounding_box, sub64.
  rewrite !wrap64_id by (unfold in_int, int_min, int_max; lia).
  simpl. split; [done|]. split; [lia|]. split; [lia|].
  intros Hx Hy. f_equal; lia.
Qed.
End Dimensions.

Lemma getGifDimensions_bounding_box_with_origin_witness :
  Rgif.getGifDimensions Examples.off_origin = (10, 10).
Proof.
  assert (Props.rects_within Props.coord_bound Examples.off_origin) as Hb.
  { repeat constructor; vm_compute; discriminate. }
  destruct (getGifDimensions_bounding_box_with_origin
              Examples.off_origin Examples.frame_5_10 [] eq_refl Hb)
    as (Hd & _).
  rewrite Hd. reflexivity.
Defined.

(** C6 as the specification words it (the rectangles' own bounding box)
    fails for a single frame that sits away from the origin: the code
    answers 10 by 10 where the frame's rectangle is 5 by 5. *)
Lemma getGifDimensions_not_bounding_box :
  ~ (forall g img0 rest,
        gif.Image g = img0 :: rest ->
        Rgif.getGifDimensions g = Props.bounding_box img0 rest).
Proof.
  intros Hall.
  specialize (Hall Examples.off_origin Examples.frame_5_10 [] eq_refl).
  vm_compute in Hall. discriminate.
Qed.

(* ===================================================================== *)
(** * LoadGifFromFile: how a load can end *)

Section LoadOutcome.
Import GoInt Rgif Props.

Ltac no_err_step :=
  first
    [ apply no_err_Ok
    | apply no_err_Panic
    | apply no_err_index
    | apply no_err_store
    | apply no_err_make_cap
    | apply no_err_bind; [|intros ?]
    | match goal with
      | |- no_err (if ?b then _ else _) => destruct b
      end ].

Lemma set_pixel_no_err st k c : no_err (set_pixel st k c).
Proof. unfold set_pixel. repeat no_err_step. Qed.

Lemma accumulate_no_err st k : no_err (accumulate st k).
Proof. unfold accumulate. repeat no_err_step. Qed.

Lemma pixel_body_no_err g w i img y x st :
  no_err (pixel_body g w i img y x st).
Proof.
  unfold pixel_body.
  repeat first [apply set_pixel_no_err | apply accumulate_no_err | no_err_step].
Qed.

Lemma frame_body_no_err g w h i img st : no_err (frame_body g w h i img st).
Proof.
  unfold frame_body, Slice.make.
  repeat first
    [ apply no_err_for_list; intros; apply no_err_for_list; intros;
      apply pixel_body_no_err
    | no_err_step ].
Qed.

Lemma range_frames_no_err body i0 l st :
  (forall i img st, no_err (body i img st)) ->
  no_err (range_frames body i0 l st).
Proof.
  intros Hb. revert i0 st. induction l as [|img l IH]; intros i0 st; simpl.
  - apply no_err_Ok.
  - pose proof (Hb i0 img st) as Hi. destruct (body i0 img st) as [s'|e'|].
    + apply IH.
    + by destruct (Hi e').
    + apply no_err_Panic.
Qed.

Lemma composite_no_err g : no_err (composite g).
Proof.
  unfold composite, Slice.make.
  repeat first
    [ apply range_frames_no_err; intros; apply frame_body_no_err
    | no_err_step ].
Qed.

Lemma load_decoded_no_err g : no_err (load_decoded g).
Proof.
  unfold load_decoded.
  repeat first [apply composite_no_err | no_err_step].
Qed.

Lemma no_err_not_Ok {A} (r : res A) :
  no_err r -> (forall a, r ≠ Ok a) -> r = Panic.
Proof. intros He Ho. destruct r as [a|e|]; [by destruct (Ho a)|by destruct (He e)|done]. Qed.

(** A frame loop that returns has run its body on every frame. *)
Lemma range_frames_Ok_body body i0 l st st' j img :
  range_frames body i0 l st = Ok st' -> l !! j = Some img ->
  exists s s', body (i0 + Z.of_nat j) img s = Ok s'.
Proof.
  revert i0 st j. induction l as [|img0 l IH]; intros i0 st j Hrun Hj; [done|].
  simpl in Hrun. destruct (body i0 img0 st) as [s1| |] eqn:Hb; try done.
  destruct j as [|j]; simpl in Hj.
  - injection Hj as <-. exists st, s1. by rewrite Z.add_0_r.
  - destruct (IH _ _ _ Hrun Hj) as (s & s' & Hs). exists s, s'.
    by replace (i0 + Z.of_nat (S j)) with (i0 + 1 + Z.of_nat j) by lia.
Qed.

Lemma load_decoded_fields g p :
  load_decoded g = Ok p ->
  Width p = width g /\ Height p = height g /\ Frames p = frames g
  /\ Timing p = gif.Delay g /\ currentFrame p = 0
  /\ lastFrameTime p = F32.zero.
Proof.
  unfold load_decoded. destruct (composite g) as [st| |]; simpl; try done.
  destruct (Slice.index (gif.Image g) 0) as [img0| |]; simpl; try done.
  by intros [= <-].
Qed.

Lemma load_no_frames g : gif.Image g = [] -> load_decoded g = Panic.
Proof.
  intros Hg. unfold load_decoded, composite, getGifDimensions.
  rewrite Hg. reflexivity.
Qed.

(** The frame cache is made with length [frames] and capacity
    [imgWidth*imgHeight]. *)
Lemma load_frames_exceed g :
  mul64 (width g) (height g) < frames g -> load_decoded g = Panic.
Proof.
  unfold width, height, frames. intros Hlt.
  unfold load_decoded, composite.
  rewrite (make_Ok FrameDisposalNone) by lia. rewrite bind_Ok.
  unfold Slice.make_cap.
  destruct (Z.ltb_spec (Z.of_nat (length (gif.Image g))) 0); [lia|].
  destruct (Z.ltb_spec (mul64 (getGifDimensions g).1 (getGifDimensions g).2)
                       (Z.of_nat (length (gif.Image g)))); [|lia].
  reflexivity.
Qed.

Lemma load_short_disposal g :
  (length (gif.Disposal g) < length (gif.Image g))%nat ->
  load_decoded g = Panic.
Proof.
  intros Hlen. apply no_err_not_Ok; [apply load_decoded_no_err|].
  intros p Hp. unfold load_decoded in Hp.
  destruct (composite g) as [st| |] eqn:Hc; try done. clear Hp.
  unfold composite in Hc.
  repeat match type of Hc with
         | (?m ≫= _) = Ok _ => destruct m; simpl in Hc; try done
         end.
  destruct (lookup_lt_is_Some_2 (gif.Image g) (length (gif.Disposal g)) Hlen)
    as [img Himg].
  destruct (range_frames_Ok_body _ _ _ _ _ _ _ Hc Himg) as (s & s' & Hb).
  unfold frame_body in Hb. rewrite index_out in Hb by lia. done.
Qed.

Lemma load_ignores_delay g delay p :
  load_decoded g = Ok p ->
  load_decoded (with_delay g delay) = Ok (with_timing p delay).
Proof.
  unfold load_decoded.
  change (composite (with_delay g delay)) with (composite g).
  destruct (composite g) as [st| |]; simpl; try done.
  destruct (Slice.index (gif.Image g) 0) as [img0| |]; simpl; try done.
  by intros [= <-].
Qed.

(** C10. The frame cache gets length [frames] and capacity
    [imgWidth*imgHeight]: when the frame count exceeds that product, a
    load of a decoded animation panics; it returns neither a value nor an
    error. *)
Theorem load_panics_when_frames_exceed_pixels g :
  mul64 (width g) (height g) < frames g ->
  LoadGifFromFile (Decoded g) = Panic.
Proof. apply load_frames_exceed. Qed.

(** C3, as the code has it. [LoadGifFromFile] has no error of its own:
    an error it returns is the one [os.Open] or [gif.DecodeAll] gave it.
    On a decoded animation with no frame, with a frame and a zero bounding
    dimension, or with a disposal table shorter than the frame table, it
    panics, so no [GifImage] is built; the length of the delay table is
    not looked at, and the table is handed on as it is. *)
Theorem load_errors_come_from_open_and_decode g :
  (forall file e, LoadGifFromFile file = Err e ->
                  file = OpenFails e \/ file = DecodeFails e)
  /\ (gif.Image g = [] -> LoadGifFromFile (Decoded g) = Panic)
  /\ (gif.Image g ≠ [] -> width g = 0 \/ height g = 0 ->
      LoadGifFromFile (Decoded g) = Panic)
  /\ ((length (gif.Disposal g) < length (gif.Image g))%nat ->
      LoadGifFromFile (Decoded g) = Panic)
  /\ (forall delay p, LoadGifFromFile (Decoded g) = Ok p ->
        LoadGifFromFile (Decoded (with_delay g delay))
        = Ok (with_timing p delay)).
Proof.
  split.
  { intros [err|err|g'] e; simpl.
    - intros [= ->]. by left.
    - intros [= ->]. by right.
    - intros He. by destruct (load_decoded_no_err g' e). }
  split; [apply load_no_frames|].
  split.
  { intros Hne Hz. simpl. apply load_frames_exceed.
    assert (0 < frames g)
      by (unfold frames; destruct (gif.Image g); [done|simpl; lia]).
    destruct Hz as [-> | ->];
      [rewrite mul64_zero_l|rewrite mul64_zero_r]; done. }
  split; [apply load_short_disposal|].
  intros delay p. simpl. apply load_ignores_delay.
Qed.
End LoadOutcome.

Lemma load_panics_when_frames_exceed_pixels_witness :
  Rgif.LoadGifFromFile (Rgif.Decoded Examples.thirty_5x5) = Panic.
Proof.
  apply (load_panics_when_frames_exceed_pixels Examples.thirty_5x5).
  vm_compute. reflexivity.
Defined.

Lemma load_errors_come_from_open_and_decode_witness :
  Rgif.LoadGifFromFile (Rgif.Decoded Examples.no_frames) = Panic
  /\ Rgif.LoadGifFromFile (Rgif.Decoded Examples.short_delay)
     = Rgif.LoadGifFromFile
         (Rgif.Decoded (Props.with_delay Examples.short_delay [10])).
Proof.
  split.
  - destruct (load_errors_come_from_open_and_decode Examples.no_frames)
      as (_ & Hnone & _).
    apply Hnone. reflexivity.
  - reflexivity.
Defined.

(** C3 as the specification words it fails on an animation of one frame
    with an empty rectangle (and on the animation without frames): it is
    structurally invalid, and the load ends in a panic, not in an error
    value of any kind. *)
Lemma load_no_InvalidAnimation_error :
  ~ (forall g, Props.invalid_animation g ->
               exists e, Rgif.LoadGifFromFile (Rgif.Decoded g) = Err e).
Proof.
  intros Hall.
  destruct (Hall Examples.empty_rect) as [e He].
  - right. left. vm_compute. discriminate.
  - vm_compute in He. discriminate.
Qed.

(* ===================================================================== *)
(** * The frame loop *)

Section PixelLoop.
Import GoInt Rgif Props.

Lemma offset_inj w x y x' y' :
  0 <= x < w -> 0 <= x' < w -> 0 <= y -> 0 <= y' ->
  offset w x y = offset w x' y' -> x = x' /\ y = y'.
Proof.
  unfold offset. intros Hx Hx' Hy Hy' Heq.
  apply Z2Nat.inj in Heq; [|nia|nia].
  assert (y = y') as -> by nia. split; [lia|done].
Qed.

Lemma offset_lt w h x y :
  0 <= x < w -> 0 <= y < h -> (offset w x y < Z.to_nat (w * h))%nat.
Proof. unfold offset. intros Hx Hy. apply Z2Nat.inj_lt; nia. Qed.

(** Inside the frame, the index [x+y*imgWidth] does not wrap. *)
Lemma pixel_index w h x y :
  0 <= x < w -> 0 <= y < h -> w * h <= int_max ->
  add64 x (mul64 y w) = x + y * w /\ 0 <= x + y * w < w * h.
Proof.
  intros Hx Hy Hwh. unfold add64, mul64, int_max in *.
  assert (0 <= y * w /\ x + y * w < w * h) as [H1 H2] by nia.
  rewrite (wrap64_id (y * w)) by (unfold in_int, int_min, int_max; lia).
  rewrite wrap64_id by (unfold in_int, int_min, int_max; lia). lia.
Qed.

Lemma set_pixel_Ok st k c :
  0 <= k < Z.of_nat (length (pixels_ st)) ->
  set_pixel st k c
  = Ok (mkLocals (disposals st) (images st) (clumative st)
                 (previousNonDisposed st) (<[Z.to_nat k := c]> (pixels_ st))).
Proof. intros Hk. unfold set_pixel. by rewrite store_Ok. Qed.

Lemma accumulate_Ok st k v :
  0 <= k < Z.of_nat (length (clumative st)) ->
  pixels_ st !! Z.to_nat k = Some v ->
  accumulate st k
  = Ok (mkLocals (disposals st) (images st) (<[Z.to_nat k := v]> (clumative st))
                 (previousNonDisposed st) (pixels_ st)).
Proof.
  intros Hk Hv. unfold accumulate.
  rewrite (index_Ok _ _ v) by (lia || done). rewrite bind_Ok.
  by rewrite store_Ok.
Qed.

(** One pixel of a frame with a known disposal code: both buffers get
    the resolved colour at the pixel's offset. *)
Lemma pixel_body_known g w h i img x y st d d0 img0 :
  0 <= x < w -> 0 <= y < h -> w * h <= int_max ->
  length (pixels_ st) = Z.to_nat (w * h) ->
  length (clumative st) = Z.to_nat (w * h) ->
  0 <= i -> disposals st !! Z.to_nat i = Some d ->
  disposals st !! 0%nat = Some d0 ->
  gif.Image g !! 0%nat = Some img0 ->
  known d ->
  exists old,
    clumative st !! offset w x y = Some old
    /\ pixel_body g w i img y x st
       = Ok (mkLocals (disposals st) (images st)
               (<[offset w x y := resolved d d0 img img0 (previousNonDisposed st) old x y]>
                  (clumative st))
               (if keeps d then img else previousNonDisposed st)
               (<[offset w x y := resolved d d0 img img0 (previousNonDisposed st) old x y]>
                  (pixels_ st))).
Proof.
  intros Hx Hy Hwh Hlp Hlc Hi Hd Hd0 Himg0 Hk.
  destruct (pixel_index w h x y Hx Hy Hwh) as [Hidx Hrange].
  assert (offset w x y < length (clumative st))%nat as Hoc
    by (rewrite Hlc; by apply offset_lt).
  assert (offset w x y < length (pixels_ st))%nat as Hop
    by (rewrite Hlp; by apply offset_lt).
  destruct (lookup_lt_is_Some_2 _ _ Hoc) as [old Hold].
  exists old. split; [done|].
  unfold pixel_body. rewrite Hidx.
  rewrite (index_Ok (disposals st) i d) by done. rewrite bind_Ok.
  assert (0 <= x + y * w < Z.of_nat (length (pixels_ st))) as Hkp
    by (rewrite Hlp; lia).
  assert (0 <= x + y * w < Z.of_nat (length (clumative st))) as Hkc
    by (rewrite Hlc; lia).
  fold (offset w x y) in *.
  unfold known in Hk.
  assert (d = 0 \/ d = 1 \/ d = 2 \/ d = 3) as [-> | [-> | [-> | ->]]] by lia;
    unfold resolved; simpl.
  - rewrite set_pixel_Ok by done. rewrite bind_Ok.
    rewrite (accumulate_Ok _ _ (narrow (image.At img x y)));
      [|done|by apply list_lookup_insert_eq].
    reflexivity.
  - destruct (0 <? color.alpha (image.At img x y)).
    + rewrite set_pixel_Ok by done. rewrite bind_Ok.
      rewrite (accumulate_Ok _ _ (narrow (image.At img x y)));
        [|done|by apply list_lookup_insert_eq].
      reflexivity.
    + rewrite (index_Ok (clumative st) _ old) by (lia || done). rewrite bind_Ok.
      rewrite set_pixel_Ok by done. rewrite bind_Ok.
      unfold set_previous. simpl. by rewrite (list_insert_id _ _ _ Hold).
  - rewrite (index_Ok (disposals st) 0 d0) by (lia || done). rewrite bind_Ok.
    destruct ((d0 =? FrameDisposalDontDispose) && (color.alpha (image.At img x y) =? 0)).
    + rewrite (index_Ok (gif.Image g) 0 img0) by (lia || done). rewrite !bind_Ok.
      rewrite set_pixel_Ok by done. rewrite bind_Ok.
      rewrite (accumulate_Ok _ _ (narrow (image.At img0 x y)));
        [|done|by apply list_lookup_insert_eq].
      reflexivity.
    + rewrite !bind_Ok. rewrite set_pixel_Ok by done. rewrite bind_Ok.
      rewrite (accumulate_Ok _ _ (narrow (image.At img x y)));
        [|done|by apply list_lookup_insert_eq].
      reflexivity.
  - rewrite set_pixel_Ok by done. rewrite bind_Ok.
    erewrite accumulate_Ok; [|done|by apply list_lookup_insert_eq].
    reflexivity.
Qed.

Lemma pixel_body_unknown g w i img x y st d :
  0 <= i -> disposals st !! Z.to_nat i = Some d -> ~ known d ->
  pixel_body g w i img y x st = Ok st.
Proof.
  intros Hi Hd Hk. unfold pixel_body, known in *.
  rewrite (index_Ok (disposals st) i d) by done. rewrite bind_Ok.
  unfold FrameDisposalNone, FrameDisposalDontDispose,
    FrameDisposalRestoreBackground, FrameDisposalRestorePrevious.
  destruct (Z.eqb_spec d 0); [lia|]. destruct (Z.eqb_spec d 1); [lia|].
  destruct (Z.eqb_spec d 2); [lia|]. destruct (Z.eqb_spec d 3); [lia|].
  done.
Qed.
End PixelLoop.

Section FrameLoop.
Import GoInt Rgif Props.

Lemma pixels_done_ext w h v (P Q : Z -> Z -> Prop) a b img st0 st :
  (forall x y, 0 <= x < w -> 0 <= y < h -> P x y <-> Q x y) -> a = b ->
  pixels_done w h v P a img st0 st -> pixels_done w h v Q b img st0 st.
Proof.
  intros Heq <- (H1 & H2 & H3 & H4 & H5 & H6 & H7).
  repeat split; try done.
  - intros x y Hx Hy Hq. apply H6; [done|done|]. by apply Heq.
  - intros x y Hx Hy Hq. apply H7; [done|done|]. intros Hp. apply Hq. by apply Heq.
Qed.

Lemma resolved_keeps d d0 img img0 p p' old x y :
  keeps d = true ->
  resolved d d0 img img0 p old x y = resolved d d0 img img0 p' old x y.
Proof.
  unfold keeps, resolved, FrameDisposalNone, FrameDisposalDontDispose.
  destruct (d =? 0); [done|]. destruct (d =? 1); [done|]. done.
Qed.

(** The two pixel loops of a frame with a known disposal code. *)
Lemma frame_pixels_known g w h i img st0 d d0 img0 :
  0 < w -> 0 < h -> w * h <= int_max ->
  length (pixels_ st0) = Z.to_nat (w * h) ->
  length (clumative st0) = Z.to_nat (w * h) ->
  0 <= i -> disposals st0 !! Z.to_nat i = Some d ->
  disposals st0 !! 0%nat = Some d0 ->
  gif.Image g !! 0%nat = Some img0 ->
  known d ->
  exists st,
    Slice.for_range h (λ y, Slice.for_range w (pixel_body g w i img y)) st0
    = Ok st
    /\ pixels_done w h (resolved d d0 img img0 (previousNonDisposed st0))
                   (λ _ _, True) (keeps d) img st0 st.
Proof.
  intros Hw Hh Hwh Hlp Hlc Hi Hd Hd0 Himg0 Hk.
  set (v := resolved d d0 img img0 (previousNonDisposed st0)).
  destruct (for_range_inv
              (λ y st, pixels_done w h v (λ _ y', y' < y)
                         (keeps d && (0 <? y)) img st0 st)
              h (λ y, Slice.for_range w (pixel_body g w i img y)) st0)
    as (st & Hrun & Hinv).
  { repeat split; try done.
    - by rewrite andb_false_r.
    - intros x y Hx Hy Hf. lia. }
  { intros y st Hy Hrow.
    destruct (for_range_inv
                (λ x st, pixels_done w h v
                           (λ x' y', y' < y \/ (y' = y /\ x' < x))
                           (keeps d && ((0 <? y) || (0 <? x))) img st0 st)
                w (pixel_body g w i img y) st)
      as (st' & Hrun' & Hinv').
    { eapply pixels_done_ext; [| |exact Hrow].
      - intros x' y' Hx' Hy'. lia.
      - by rewrite orb_false_r. }
    { intros x st1 Hx (H1 & H2 & H3 & H4 & H5 & H6 & H7).
      destruct (pixel_body_known g w h i img x y st1 d d0 img0)
        as (old & Hold & Hbody); try done; try congruence.
      exists (mkLocals (disposals st1) (images st1)
                (<[offset w x y := resolved d d0 img img0 (previousNonDisposed st1) old x y]>
                   (clumative st1))
                (if keeps d then img else previousNonDisposed st1)
                (<[offset w x y := resolved d d0 img img0 (previousNonDisposed st1) old x y]>
                   (pixels_ st1))).
      split; [done|].
      assert (resolved d d0 img img0 (previousNonDisposed st1) old x y = v old x y)
        as Hv.
      { unfold v. destruct (keeps d) eqn:Hkeep.
        - by apply resolved_keeps.
        - rewrite H5. done. }
      rewrite Hv.
      assert (clumative st0 !! offset w x y = Some old) as Hold0.
      { rewrite <- Hold. symmetry. apply H7; [lia|lia|]. lia. }
      repeat split; simpl; try done.
      - by rewrite length_insert.
      - by rewrite length_insert.
      - rewrite H5. destruct (keeps d); simpl; [|done].
        destruct (Z.ltb_spec 0 (x + 1)); [|lia]. by rewrite orb_true_r.
      - intros x' y' Hx' Hy' Hf.
        destruct (decide (x' = x /\ y' = y)) as [[-> ->]|Hne].
        + exists old. split; [done|].
          rewrite !list_lookup_insert_eq; [done| |]; [rewrite H4|rewrite H3];
            (rewrite ?Hlc, ?Hlp; apply (offset_lt w h); lia).
        + assert (offset w x y ≠ offset w x' y') as Hoff.
          { intros Heq. apply Hne. symmetry in Heq.
            apply offset_inj in Heq; lia. }
          rewrite !list_lookup_insert_ne by done.
          apply H6; [done|done|]. lia.
      - intros x' y' Hx' Hy' Hf.
        assert (offset w x y ≠ offset w x' y') as Hoff.
        { intros Heq. symmetry in Heq. apply offset_inj in Heq; lia. }
        rewrite list_lookup_insert_ne by done.
        apply H7; [done|done|]. lia. }
    exists st'. split; [done|].
    replace (Z.max 0 w) with w in Hinv' by lia.
    eapply pixels_done_ext; [| |exact Hinv'].
    - intros x' y' Hx' Hy'. simpl. lia.
    - destruct (Z.ltb_spec 0 w); [|lia]. destruct (Z.ltb_spec 0 (y + 1)); [|lia].
      by rewrite orb_true_r. }
  exists st. split; [done|].
  replace (Z.max 0 h) with h in Hinv by lia.
  eapply pixels_done_ext; [| |exact Hinv].
  - intros x' y' Hx' Hy'. simpl. lia.
  - destruct (Z.ltb_spec 0 h); [|lia]. by rewrite andb_true_r.
Qed.

Lemma frame_pixels_unknown g w h i img st0 d :
  0 <= i -> disposals st0 !! Z.to_nat i = Some d -> ~ known d ->
  Slice.for_range h (λ y, Slice.for_range w (pixel_body g w i img y)) st0
  = Ok st0.
Proof.
  intros Hi Hd Hk.
  destruct (for_range_inv (λ _ st, st = st0) h
              (λ y, Slice.for_range w (pixel_body g w i img y)) st0)
    as (st & Hrun & ->); [done| |done].
  intros y st _ ->.
  destruct (for_range_inv (λ _ st, st = st0) w (pixel_body g w i img y) st0)
    as (st & Hrun & ->); [done| |by exists st0].
  intros x st _ ->. exists st0. split; [|done].
  by eapply pixel_body_unknown.
Qed.
End FrameLoop.

Section Frames.
Import GoInt Rgif Props.

Lemma known_dec d : {known d} + {~ known d}.
Proof.
  unfold known. destruct (Z_le_dec 0 d); [|right; lia].
  destruct (Z_le_dec d 3); [left|right]; lia.
Qed.

Lemma unknown_not_kept d : ~ known d -> keeps d = false.
Proof.
  unfold known, keeps. intros Hk.
  destruct (Z.eqb_spec d 0); [lia|]. destruct (Z.eqb_spec d 1); [lia|]. done.
Qed.

Lemma loadable_mul64 g :
  loadable g -> mul64 (width g) (height g) = width g * height g.
Proof.
  intros [_ _ Hw Hh Ha _]. unfold mul64. apply wrap64_id.
  unfold in_int, int_min, int_max in *. nia.
Qed.

(** One iteration of the frame loop. *)
Lemma frame_body_step g n img st :
  loadable g -> gif.Image g !! n = Some img -> frames_done g n st ->
  exists st', frame_body g (width g) (height g) (Z.of_nat n) img st = Ok st'
              /\ frames_done g (S n) st'.
Proof.
  intros Hg Himg (Hld & Hli & Hlc & Hds & Hprev & Hbufs & _).
  pose proof (loadable_mul64 g Hg) as Hmul.
  destruct Hg as [Hne Hdisp Hw Hh Harea Hcache].
  pose proof (lookup_lt_Some _ _ _ Himg) as Hn.
  destruct (lookup_lt_is_Some_2 (gif.Disposal g) n ltac:(lia)) as [b Hb].
  destruct (lookup_lt_is_Some_2 (gif.Image g) 0 ltac:(lia)) as [img0 Himg0].
  destruct (lookup_lt_is_Some_2 (gif.Disposal g) 0 ltac:(lia)) as [d0 Hd0].
  unfold frame_body.
  rewrite (index_Ok (gif.Disposal g) _ b) by (rewrite ?Nat2Z.id; lia || done).
  rewrite bind_Ok. rewrite store_Ok by lia. rewrite bind_Ok.
  rewrite Hmul. rewrite make_Ok by nia. rewrite bind_Ok.
  rewrite Nat2Z.id.
  set (st0 := mkLocals (<[n:=b]> (disposals st)) (images st) (clumative st)
                       (previousNonDisposed st)
                       (replicate (Z.to_nat (width g * height g)) Blank)).
  assert (disposals st0 !! n = Some b) as Hdn
    by (simpl; apply list_lookup_insert_eq; lia).
  assert (disposals st0 !! 0%nat = Some d0) as Hd00.
  { simpl. destruct (decide (n = 0%nat)) as [->|Hn0].
    - rewrite list_lookup_insert_eq by lia. congruence.
    - rewrite list_lookup_insert_ne by done. rewrite Hds by lia. done. }
  assert (forall j, (j < S n)%nat -> <[n:=b]> (disposals st) !! j = gif.Disposal g !! j)
    as Hds'.
  { intros j Hj. destruct (decide (j = n)) as [->|Hjn].
    - rewrite list_lookup_insert_eq by lia. done.
    - rewrite list_lookup_insert_ne by done. apply Hds. lia. }
  assert (forall j st1, images st1 = images st -> (j < n)%nat ->
            exists buf, <[n:=pixels_ st1]> (images st1) !! j = Some buf
                        /\ length buf = Z.to_nat (width g * height g)
                        /\ frame_resolved g j buf) as Hold.
  { intros j st1 Heq Hj. rewrite Heq.
    rewrite list_lookup_insert_ne by lia. by apply Hbufs. }
  destruct (known_dec b) as [Hk|Hk].
  - destruct (frame_pixels_known g (width g) (height g) (Z.of_nat n) img st0
                b d0 img0)
      as (st1 & -> & H1 & H2 & H3 & H4 & H5 & H6 & H7);
      try done; try (simpl; by rewrite ?length_replicate, ?Nat2Z.id); try lia.
    rewrite bind_Ok. rewrite store_Ok by (rewrite H2; simpl; lia).
    rewrite bind_Ok. rewrite Nat2Z.id. eexists. split; [done|].
    subst st0. simpl in *.
    assert (forall x y, 0 <= x < width g -> 0 <= y < height g ->
              exists old, pixels_ st1 !! offset (width g) x y
                          = Some (resolved b d0 img img0 (previousNonDisposed st) old x y)
                          /\ clumative st1 !! offset (width g) x y
                             = pixels_ st1 !! offset (width g) x y) as Hpx.
    { intros x y Hx Hy. destruct (H6 x y Hx Hy I) as (old & _ & Hp & Hc).
      exists old. split; [done|congruence]. }
    unfold frames_done. simpl.
    split; [by rewrite H1, length_insert|].
    split; [by rewrite length_insert, H2|].
    split; [by rewrite H4|].
    split; [by rewrite H1|].
    split; [rewrite Hb, H5; by destruct (keeps b)|].
    split.
    + intros j Hj. destruct (decide (j = n)) as [->|Hjn].
      * exists (pixels_ st1). split.
        { rewrite list_lookup_insert_eq by (rewrite H2; lia). done. }
        split; [by rewrite H3, length_replicate|].
        intros img' d' d0' img0' prev' Hi' Hd' Hk' Hd0' Hi0' Hp' x y Hx Hy.
        destruct (Hpx x y Hx Hy) as (old & Hp & _). exists old.
        rewrite Hp. repeat f_equal; congruence.
      * apply Hold; [done|lia].
    + intros j d buf [= <-] Hd Hk' Hbuf x y Hx Hy.
      rewrite list_lookup_insert_eq in Hbuf by (rewrite H2; lia).
      injection Hbuf as <-.
      destruct (Hpx x y Hx Hy) as (old & Hp & Hc).
      split; [rewrite Hp; by eexists|done].
  - rewrite (frame_pixels_unknown g _ _ _ img st0 b) by (rewrite ?Nat2Z.id; lia || done).
    rewrite bind_Ok. rewrite store_Ok by (simpl; lia).
    rewrite bind_Ok. rewrite Nat2Z.id. eexists. split; [done|].
    subst st0. unfold frames_done. simpl in *.
    split; [by rewrite length_insert|].
    split; [by rewrite length_insert|].
    split; [done|].
    split; [done|].
    split; [rewrite Hb; by rewrite unknown_not_kept|].
    split.
    + intros j Hj. destruct (decide (j = n)) as [->|Hjn].
      * eexists. split; [apply list_lookup_insert_eq; lia|].
        split; [by rewrite length_replicate|].
        intros img' d' d0' img0' prev' Hi' Hd' Hk'. congruence.
      * rewrite list_lookup_insert_ne by done. apply Hbufs. lia.
    + intros j d buf [= <-] Hd Hk'. congruence.
Qed.
End Frames.

Section WholeLoad.
Import GoInt Rgif Props.

(** The frame loop keeps an invariant that each iteration keeps. *)
Lemma range_frames_inv (I : nat -> locals -> Prop) body l k st :
  I k st ->
  (forall j img s, l !! j = Some img -> I (k + j)%nat s ->
     exists s', body (Z.of_nat (k + j)) img s = Ok s' /\ I (S (k + j)) s') ->
  exists st', range_frames body (Z.of_nat k) l st = Ok st'
              /\ I (k + length l)%nat st'.
Proof.
  revert k st. induction l as [|img l IH]; intros k st Hk Hstep; simpl.
  - exists st. split; [done|]. by rewrite Nat.add_0_r.
  - destruct (Hstep 0%nat img st eq_refl) as (s1 & Hb & H1);
      [by rewrite Nat.add_0_r|].
    rewrite Nat.add_0_r in Hb, H1. rewrite Hb.
    destruct (IH (S k) s1 H1) as (st' & Hrun & Hfin).
    { intros j img' s Hj Hi.
      replace (S k + j)%nat with (k + S j)%nat in * by lia.
      by apply Hstep. }
    exists st'. replace (Z.of_nat k + 1) with (Z.of_nat (S k)) by lia.
    split; [done|]. by replace (k + S (length l))%nat with (S k + length l)%nat by lia.
Qed.

Lemma composite_upto_all g :
  composite_upto g (length (gif.Image g)) = composite g.
Proof. unfold composite_upto, composite. by rewrite firstn_all. Qed.

(** On a loadable animation the frame loop runs through, and after [n]
    iterations the locals are as [frames_done] says. *)
Lemma composite_upto_done g n :
  loadable g -> (n <= length (gif.Image g))%nat ->
  exists st, composite_upto g n = Ok st /\ frames_done g n st.
Proof.
  intros Hg Hn. pose proof (loadable_mul64 g Hg) as Hmul.
  pose proof Hg as [Hne Hdisp Hw Hh Harea Hcache].
  destruct (lookup_lt_is_Some_2 (gif.Image g) 0) as [img0 Himg0].
  { destruct (gif.Image g); [done|simpl; lia]. }
  unfold composite_upto. fold (width g) (height g). rewrite Hmul.
  rewrite (make_Ok FrameDisposalNone) by lia. rewrite bind_Ok.
  unfold Slice.make_cap.
  destruct (Z.ltb_spec (Z.of_nat (length (gif.Image g))) 0); [lia|].
  destruct (Z.ltb_spec (width g * height g) (Z.of_nat (length (gif.Image g))));
    [unfold frames in Hcache; lia|].
  simpl orb. cbv iota. rewrite bind_Ok.
  rewrite (make_Ok Blank) by nia. rewrite bind_Ok.
  rewrite (index_Ok (gif.Image g) 0 img0) by (lia || done). rewrite bind_Ok.
  rewrite Nat2Z.id.
  destruct (range_frames_inv (λ j st, frames_done g j st)
              (frame_body g (width g) (height g)) (take n (gif.Image g)) 0
              (mkLocals (replicate (length (gif.Image g)) FrameDisposalNone)
                        (replicate (length (gif.Image g)) [])
                        (replicate (Z.to_nat (width g * height g)) Blank)
                        img0 []))
    as (st & Hrun & Hdone).
  - unfold frames_done. simpl. rewrite !length_replicate.
    split; [done|]. split; [done|]. split; [done|].
    split; [intros j Hj; lia|]. split; [done|].
    split; [intros j Hj; lia|]. intros j d buf Hj. lia.
  - intros j img s Hj Hs. simpl in *.
    apply lookup_take_Some in Hj as [Hj _].
    by apply frame_body_step.
  - exists st. split; [exact Hrun|].
    simpl in Hdone. by rewrite length_take_le in Hdone by lia.
Qed.

(** On a loadable animation [LoadGifFromFile] returns a [GifImage] that
    holds every frame resolved. *)
Lemma load_decoded_resolved g :
  loadable g ->
  exists p, load_decoded g = Ok p
            /\ Frames p = frames g /\ Width p = width g /\ Height p = height g
            /\ Timing p = gif.Delay g
            /\ currentFrame p = 0 /\ lastFrameTime p = F32.zero
            /\ length (pixels p) = length (gif.Image g)
            /\ (forall j, (j < length (gif.Image g))%nat ->
                  exists buf, pixels p !! j = Some buf
                              /\ length buf = Z.to_nat (width g * height g)
                              /\ frame_resolved g j buf).
Proof.
  intros Hg.
  destruct (composite_upto_done g (length (gif.Image g)) Hg (le_n _))
    as (st & Hrun & (Hld & Hli & Hlc & Hds & Hprev & Hbufs & _)).
  rewrite composite_upto_all in Hrun.
  destruct (lookup_lt_is_Some_2 (gif.Image g) 0) as [img0 Himg0].
  { destruct Hg as [Hne _ _ _ _ _]. destruct (gif.Image g); [done|simpl; lia]. }
  unfold load_decoded. rewrite Hrun, bind_Ok.
  rewrite (index_Ok (gif.Image g) 0 img0) by (lia || done). rewrite bind_Ok.
  eexists. split; [done|]. simpl. repeat (split; [done|]). done.
Qed.
End WholeLoad.

(* ===================================================================== *)
(** * Disposal: what the resolved frames and the running state hold *)

Section Disposal.
Import GoInt Rgif Props.

Lemma last_non_disposed_le ds i : (last_non_disposed ds i <= i)%nat.
Proof.
  induction i as [|i IH]; simpl; [done|].
  destruct (ds !! i) as [d|]; [destruct (keeps d)|]; lia.
Qed.

(** The frame [previousNonDisposed] points to is the last one with
    disposal [None] or [DontDispose], frame 0 when there is none. *)
Lemma last_non_disposed_spec ds i :
  let j := last_non_disposed ds i in
  (forall k d, (j < k < i)%nat -> ds !! k = Some d -> keeps d = false)
  /\ ((j = 0)%nat \/ ((j < i)%nat /\ exists d, ds !! j = Some d /\ keeps d = true)).
Proof.
  induction i as [|i [IH1 IH2]]; simpl.
  - split; [intros k d Hk; lia|by left].
  - destruct (ds !! i) as [di|] eqn:Hdi; [destruct (keeps di) eqn:Hkeep|].
    + split; [intros k d Hk; lia|]. right. split; [lia|]. by exists di.
    + split.
      * intros k d Hk Hd. destruct (decide (k = i)) as [->|Hne];
          [congruence|]. apply (IH1 k); [lia|done].
      * destruct IH2 as [?|[? ?]]; [by left|right]. split; [lia|done].
    + split.
      * intros k d Hk Hd. destruct (decide (k = i)) as [->|Hne];
          [congruence|]. apply (IH1 k); [lia|done].
      * destruct IH2 as [?|[? ?]]; [by left|right]. split; [lia|done].
Qed.

Lemma loadable_lookups g i img :
  loadable g -> gif.Image g !! i = Some img ->
  exists img0 d0 prev,
    gif.Image g !! 0%nat = Some img0
    /\ gif.Disposal g !! 0%nat = Some d0
    /\ gif.Image g !! last_non_disposed (gif.Disposal g) i = Some prev.
Proof.
  intros [Hne Hdisp _ _ _ _] Hi. pose proof (lookup_lt_Some _ _ _ Hi) as Hlt.
  pose proof (last_non_disposed_le (gif.Disposal g) i) as Hle.
  destruct (lookup_lt_is_Some_2 (gif.Image g) 0 ltac:(lia)) as [img0 Himg0].
  destruct (lookup_lt_is_Some_2 (gif.Disposal g) 0 ltac:(lia)) as [d0 Hd0].
  destruct (lookup_lt_is_Some_2 (gif.Image g)
              (last_non_disposed (gif.Disposal g) i) ltac:(lia)) as [prev Hprev].
  by exists img0, d0, prev.
Qed.

Lemma narrow_transparent c : color.alpha c = 0 -> A (narrow c) = 0.
Proof. intros Ha. unfold narrow. simpl. by rewrite Ha. Qed.

(** C5. In a frame with disposal [RestoreBackground] a pixel whose alpha
    is not zero resolves to the frame's own sample; a pixel whose alpha is
    zero resolves to the sample of frame 0 when the disposal of frame 0 is
    [DontDispose], and otherwise to the frame's own sample, which is
    transparent. *)
Theorem restore_background_resolution g i img x y :
  loadable g ->
  gif.Image g !! i = Some img ->
  gif.Disposal g !! i = Some FrameDisposalRestoreBackground ->
  0 <= x < width g -> 0 <= y < height g ->
  exists p buf c img0 d0,
    LoadGifFromFile (Decoded g) = Ok p
    /\ pixels p !! i = Some buf
    /\ buf !! offset (width g) x y = Some c
    /\ gif.Image g !! 0%nat = Some img0
    /\ gif.Disposal g !! 0%nat = Some d0
    /\ (color.alpha (image.At img x y) ≠ 0 -> c = narrow (image.At img x y))
    /\ (color.alpha (image.At img x y) = 0 ->
        d0 = FrameDisposalDontDispose -> c = narrow (image.At img0 x y))
    /\ (color.alpha (image.At img x y) = 0 ->
        d0 ≠ FrameDisposalDontDispose ->
        c = narrow (image.At img x y) /\ A c = 0).
Proof.
  intros Hg Hi Hd Hx Hy.
  destruct (load_decoded_resolved g Hg) as (p & Hload & _ & _ & _ & _ & _ & _ & _ & Hbufs).
  destruct (Hbufs i (lookup_lt_Some _ _ _ Hi)) as (buf & Hbuf & _ & Hres).
  destruct (loadable_lookups g i img Hg Hi) as (img0 & d0 & prev & Himg0 & Hd0 & Hprev).
  destruct (Hres img _ d0 img0 prev Hi Hd ltac:(unfold known, FrameDisposalRestoreBackground; lia)
              Hd0 Himg0 Hprev x y Hx Hy) as (old & Hc).
  eexists p, buf, _, img0, d0.
  split; [exact Hload|]. split; [exact Hbuf|]. split; [exact Hc|].
  split; [done|]. split; [done|].
  unfold resolved, FrameDisposalDontDispose. simpl.
  split; [|split].
  - intros Ha. destruct (Z.eqb_spec (color.alpha (image.At img x y)) 0); [done|].
    by rewrite andb_false_r.
  - intros Ha ->. by rewrite Ha.
  - intros Ha Hne. destruct (Z.eqb_spec d0 1); [done|]. simpl.
    split; [done|]. by apply narrow_transparent.
Qed.

(** C2, as the code has it. [previousNonDisposed] is assigned by frames
    with disposal [None] or [DontDispose] only; frames with
    [RestoreBackground] or [RestorePrevious] leave it alone. So after [n]
    frames it is the last of them with disposal [None] or [DontDispose]
    (frame 0 when there is none), and a pixel with alpha zero of a
    [RestorePrevious] frame resolves to the sample of that frame. *)
Theorem restore_previous_resolution g i img x y :
  loadable g ->
  gif.Image g !! i = Some img ->
  gif.Disposal g !! i = Some FrameDisposalRestorePrevious ->
  0 <= x < width g -> 0 <= y < height g ->
  color.alpha (image.At img x y) = 0 ->
  exists p buf prev st,
    LoadGifFromFile (Decoded g) = Ok p
    /\ pixels p !! i = Some buf
    /\ composite_upto g i = Ok st
    /\ previousNonDisposed st = prev
    /\ gif.Image g !! last_non_disposed (gif.Disposal g) i = Some prev
    /\ buf !! offset (width g) x y = Some (narrow (image.At prev x y))
    /\ (forall k d, (last_non_disposed (gif.Disposal g) i < k < i)%nat ->
          gif.Disposal g !! k = Some d ->
          d ≠ FrameDisposalNone /\ d ≠ FrameDisposalDontDispose)
    /\ (last_non_disposed (gif.Disposal g) i = 0%nat
        \/ exists d, gif.Disposal g !! last_non_disposed (gif.Disposal g) i = Some d
                     /\ (d = FrameDisposalNone \/ d = FrameDisposalDontDispose)).
Proof.
  intros Hg Hi Hd Hx Hy Ha.
  destruct (load_decoded_resolved g Hg) as (p & Hload & _ & _ & _ & _ & _ & _ & _ & Hbufs).
  pose proof (lookup_lt_Some _ _ _ Hi) as Hlt.
  destruct (Hbufs i Hlt) as (buf & Hbuf & _ & Hres).
  destruct (composite_upto_done g i Hg ltac:(lia))
    as (st & Hrun & (_ & _ & _ & _ & Hprev & _)).
  destruct (loadable_lookups g i img Hg Hi) as (img0 & d0 & prev & Himg0 & Hd0 & _).
  destruct (Hres img _ d0 img0 _ Hi Hd ltac:(unfold known, FrameDisposalRestorePrevious; lia)
              Hd0 Himg0 Hprev x y Hx Hy) as (old & Hc).
  exists p, buf, (previousNonDisposed st), st.
  split; [exact Hload|]. split; [exact Hbuf|]. split; [exact Hrun|].
  split; [done|]. split; [done|].
  split. { rewrite Hc. unfold resolved. simpl. by rewrite Ha. }
  destruct (last_non_disposed_spec (gif.Disposal g) i) as [Hbetween Hat].
  unfold keeps, FrameDisposalNone, FrameDisposalDontDispose in *.
  split.
  - intros k d Hk Hdk. specialize (Hbetween k d Hk Hdk).
    destruct (Z.eqb_spec d 0); [done|]. destruct (Z.eqb_spec d 1); [done|]. done.
  - destruct Hat as [?|[_ (d & Hdj & Hkeep)]]; [by left|right].
    exists d. split; [done|].
    destruct (Z.eqb_spec d 0); [by left|]. destruct (Z.eqb_spec d 1); [by right|]. done.
Qed.

(** C1, as the code has it. Every case of the switch ends by copying the
    resolved pixel into [clumative]: after a frame with disposal
    [RestoreBackground] or [RestorePrevious], as after one with [None] or
    [DontDispose], [clumative] holds the frame's resolved colour at every
    pixel. *)
Theorem accumulation_holds_resolved_frame g n d :
  loadable g ->
  (n < length (gif.Image g))%nat ->
  gif.Disposal g !! n = Some d ->
  d = FrameDisposalNone \/ d = FrameDisposalDontDispose
  \/ d = FrameDisposalRestoreBackground \/ d = FrameDisposalRestorePrevious ->
  exists st buf,
    composite_upto g (S n) = Ok st
    /\ images st !! n = Some buf
    /\ forall x y, 0 <= x < width g -> 0 <= y < height g ->
         exists c, buf !! offset (width g) x y = Some c
                   /\ clumative st !! offset (width g) x y = Some c.
Proof.
  intros Hg Hn Hd Hk.
  destruct (composite_upto_done g (S n) Hg ltac:(lia))
    as (st & Hrun & (_ & _ & _ & _ & _ & Hbufs & Hlast)).
  destruct (Hbufs n ltac:(lia)) as (buf & Hbuf & _ & _).
  exists st, buf. split; [done|]. split; [done|].
  intros x y Hx Hy.
  destruct (Hlast n d buf eq_refl Hd) with (x := x) (y := y) as [[c Hc] Heq];
    try done.
  { unfold known, FrameDisposalNone, FrameDisposalDontDispose,
      FrameDisposalRestoreBackground, FrameDisposalRestorePrevious in *. lia. }
  exists c. split; [done|congruence].
Qed.
End Disposal.

Section DisposalExamples.
Import GoInt Rgif Props Examples.

Lemma red_green_clear_loadable : loadable red_green_clear.
Proof.
  split; [discriminate | simpl; lia | reflexivity | reflexivity
         | vm_compute; discriminate | vm_compute; discriminate].
Qed.

Lemma red_green_background_loadable : loadable red_green_background.
Proof.
  split; [discriminate | simpl; lia | reflexivity | reflexivity
         | vm_compute; discriminate | vm_compute; discriminate].
Qed.

(** The example of the specification, run: red everywhere; green
    everywhere; the transparent [RestoreBackground] frame stays fully
    transparent, frame 0 having disposal [None]. *)
Lemma red_green_background_resolved :
  exists p, LoadGifFromFile (Decoded red_green_background) = Ok p
            /\ pixels p = [replicate 4 (NewColor 255 0 0 255);
                           replicate 4 (NewColor 0 255 0 255);
                           replicate 4 (NewColor 0 0 0 0)].
Proof. eexists. split; vm_compute; reflexivity. Qed.
End DisposalExamples.

Lemma restore_background_resolution_witness :
  exists p buf,
    Rgif.LoadGifFromFile (Rgif.Decoded Examples.red_green_background) = Ok p
    /\ Rgif.pixels p !! 2%nat = Some buf
    /\ buf !! 0%nat = Some (Rgif.NewColor 0 0 0 0).
Proof.
  destruct (restore_background_resolution Examples.red_green_background 2
              Examples.clear_frame 0 0 red_green_background_loadable
              eq_refl eq_refl)
    as (p & buf & c & img0 & d0 & Hl & Hb & Hc & Hi0 & Hd0 & _ & _ & H3);
    [vm_compute; split; congruence|vm_compute; split; congruence|].
  exists p, buf. split; [exact Hl|]. split; [exact Hb|].
  injection Hd0 as <-.
  destruct (H3 eq_refl) as [-> _]; [discriminate|]. exact Hc.
Defined.

Lemma restore_previous_resolution_witness :
  exists p buf,
    Rgif.LoadGifFromFile (Rgif.Decoded Examples.red_green_clear) = Ok p
    /\ Rgif.pixels p !! 2%nat = Some buf
    /\ buf !! 0%nat = Some (Rgif.NewColor 255 0 0 255).
Proof.
  destruct (restore_previous_resolution Examples.red_green_clear 2
              Examples.clear_frame 0 0 red_green_clear_loadable
              eq_refl eq_refl)
    as (p & buf & prev & st & Hl & Hb & _ & _ & Hprev & Hc & _);
    [vm_compute; split; congruence|vm_compute; split; congruence|reflexivity|].
  exists p, buf. split; [exact Hl|]. split; [exact Hb|].
  injection Hprev as <-. exact Hc.
Defined.

Lemma accumulation_holds_resolved_frame_witness :
  exists st,
    Props.composite_upto Examples.red_green_clear 2 = Ok st
    /\ Rgif.images st !! 1%nat = Some (Rgif.clumative st).
Proof.
  destruct (accumulation_holds_resolved_frame Examples.red_green_clear 1
              Rgif.FrameDisposalRestoreBackground red_green_clear_loadable)
    as (st & buf & Hrun & Hbuf & _);
    [vm_compute; lia|reflexivity|right; right; left; reflexivity|].
  exists st. split; [exact Hrun|].
  vm_compute in Hrun. injection Hrun as <-. reflexivity.
Defined.

(** C1 as the specification words it fails: the green [RestoreBackground]
    frame that follows the red frame overwrites [clumative]. *)
Lemma accumulation_written_by_restore_background :
  ~ (forall g n d st st',
        Props.loadable g ->
        gif.Disposal g !! n = Some d ->
        d = Rgif.FrameDisposalRestoreBackground
        \/ d = Rgif.FrameDisposalRestorePrevious ->
        Props.composite_upto g n = Ok st ->
        Props.composite_upto g (S n) = Ok st' ->
        Rgif.clumative st' = Rgif.clumative st).
Proof.
  intros Hall.
  destruct (Props.composite_upto Examples.red_green_clear 1) as [st| |] eqn:H1;
    [|vm_compute in H1; discriminate..].
  destruct (Props.composite_upto Examples.red_green_clear 2) as [st'| |] eqn:H2;
    [|vm_compute in H2; discriminate..].
  specialize (Hall Examples.red_green_clear 1%nat _ st st'
                red_green_clear_loadable eq_refl (or_introl eq_refl) H1 H2).
  vm_compute in H1, H2. injection H1 as <-. injection H2 as <-.
  simpl in Hall. discriminate.
Qed.

(** C2 as the specification words it fails: the transparent
    [RestorePrevious] frame is filled from the red frame 0, not from the
    green [RestoreBackground] frame 1 that precedes it. *)
Lemma restore_previous_skips_restore_background :
  ~ (forall g i img x y p buf prev,
        Props.loadable g ->
        gif.Image g !! i = Some img ->
        gif.Disposal g !! i = Some Rgif.FrameDisposalRestorePrevious ->
        0 <= x < Props.width g -> 0 <= y < Props.height g ->
        color.alpha (image.At img x y) = 0 ->
        Rgif.LoadGifFromFile (Rgif.Decoded g) = Ok p ->
        Rgif.pixels p !! i = Some buf ->
        gif.Image g !! Props.last_not_restore_previous (gif.Disposal g) i
        = Some prev ->
        buf !! Props.offset (Props.width g) x y
        = Some (Rgif.narrow (image.At prev x y))).
Proof.
  intros Hall.
  destruct (Rgif.LoadGifFromFile (Rgif.Decoded Examples.red_green_clear))
    as [p| |] eqn:Hp; [|vm_compute in Hp; discriminate..].
  destruct (Rgif.pixels p !! 2%nat) as [buf|] eqn:Hbuf;
    [|vm_compute in Hp; injection Hp as <-; vm_compute in Hbuf; discriminate].
  specialize (Hall Examples.red_green_clear 2%nat Examples.clear_frame 0 0 p buf
                Examples.green_frame red_green_clear_loadable eq_refl eq_refl).
  vm_compute in Hp. injection Hp as <-.
  vm_compute in Hbuf. injection Hbuf as <-.
  specialize (Hall ltac:(vm_compute; split; congruence)
                   ltac:(vm_compute; split; congruence) eq_refl eq_refl eq_refl eq_refl).
  vm_compute in Hall. discriminate.
Qed.

(* ===================================================================== *)
(** * The registry: removal and the teardown sweep *)

Section RegistryFacts.
Import Registry.
Context {H : Type} `{EqDecision H} (unregisters : H -> bool).
Implicit Types (st : state H) (u : option H) (l : list (option H)) (h : H).


Lemma find_slot_found u l i :
  find_slot u l = Some i -> l !! i = Some u.
Proof.
  revert i. induction l as [|v l IH]; intros i; [done|].
  simpl. destruct (decide (v = u)) as [->|Hne].
  - by intros [= <-].
  - destruct (find_slot u l) as [j|] eqn:Hj; [|done].
    intros [= <-]. simpl. by apply IH.
Qed.

Lemma find_slot_present u l : u ∈ l -> is_Some (find_slot u l).
Proof.
  induction l as [|v l IH]; intros Hin; [by apply elem_of_nil in Hin|].
  simpl. destruct (decide (v = u)); [by eexists|].
  apply elem_of_cons in Hin as [->|Hin]; [done|].
  destruct (IH Hin) as [j ->]. by eexists.
Qed.

Lemma swap_remove_snoc i l z :
  (i <= length l)%nat ->
  swap_remove i (l ++ [z]) =
    if decide (i < length l)%nat then <[i := z]> l else l.
Proof.
  intros Hi. unfold swap_remove.
  rewrite length_app. simpl.
  replace (length l + 1 - 1)%nat with (length l) by lia.
  rewrite lookup_app_r by lia. rewrite Nat.sub_diag. simpl.
  destruct (decide (i < length l)%nat) as [Hlt|Hge].
  - rewrite insert_app_l by done.
    rewrite insert_app_r_alt by (rewrite length_insert; lia).
    rewrite length_insert, Nat.sub_diag. simpl.
    rewrite take_app_length'; [done|]. by rewrite length_insert.
  - assert (i = length l) as -> by lia.
    rewrite insert_app_r_alt by lia. rewrite Nat.sub_diag. simpl.
    rewrite insert_app_r_alt by lia. rewrite Nat.sub_diag. simpl.
    by rewrite take_app_length.
Qed.

(** Removing slot [i] takes exactly one copy of its content away. *)
Lemma swap_remove_perm i l u :
  l !! i = Some u -> l ≡ₚ u :: swap_remove i l.
Proof.
  intros Hi. pose proof (lookup_lt_Some _ _ _ Hi) as Hlen.
  destruct l as [|v0 l0] using rev_ind; [simpl in Hlen; lia|].
  clear IHl0. rewrite length_app in Hlen. simpl in Hlen.
  rewrite swap_remove_snoc by lia.
  destruct (decide (i < length l0)%nat) as [Hlt|Hge].
  - rewrite lookup_app_l in Hi by done.
    rewrite <- (take_drop_middle l0 i u Hi) at 1.
    rewrite insert_take_drop by done.
    rewrite <- !app_assoc. simpl.
    rewrite <- !Permutation_middle. apply Permutation_skip.
    by rewrite app_nil_r.
  - assert (i = length l0) as -> by lia.
    rewrite lookup_app_r in Hi by lia. rewrite Nat.sub_diag in Hi.
    injection Hi as ->. by rewrite Permutation_app_comm.
Qed.


Lemma removeUnloadable_perm u st :
  unloadingAll st = false -> u ∈ unloadables st ->
  unloadables st ≡ₚ u :: unloadables (removeUnloadable u st).
Proof.
  intros Hf Hin. unfold removeUnloadable. rewrite Hf.
  destruct (find_slot_present _ _ Hin) as [i Hi]. rewrite Hi. simpl.
  apply swap_remove_perm. by apply find_slot_found.
Qed.

Lemma registrations_perm h (l1 l2 : list (option H)) :
  l1 ≡ₚ l2 ->
  length (filter (λ v, v = Some h) l1) = length (filter (λ v, v = Some h) l2).
Proof. intros Hp. by rewrite Hp. Qed.




(** While the sweep runs, [Unload] only logs the call. *)
Lemma Unload_sweeping h st :
  unloadingAll st = true ->
  Unload unregisters h st = mkState true (unloadables st) (invoked st ++ [h]).
Proof.
  intros Hf. unfold Unload, removeUnloadable. simpl. rewrite Hf.
  by destruct (unregisters h).
Qed.

Lemma sweep_from l log t i k :
  (i + k <= length l)%nat ->
  (foldl (sweep_step unregisters) (mkState true l log, t) (seq i k)).1
  = mkState true l (log ++ omap id (take k (drop i l))).
Proof.
  revert log t i. induction k as [|k IH]; intros log t i Hik.
  - simpl. by rewrite app_nil_r.
  - simpl. unfold sweep_step at 2. simpl.
    destruct (lookup_lt_is_Some_2 l i ltac:(lia)) as [v Hv].
    rewrite Hv. rewrite (drop_S _ _ _ Hv). simpl.
    destruct v as [h|].
    + rewrite Unload_sweeping by done. simpl.
      rewrite IH by lia. by rewrite <- app_assoc.
    + rewrite IH by lia. done.
Qed.

(** The sweep calls [Unload] on the non-nil slots, one call per slot, in
    slot order, and leaves the registry empty. *)
Lemma UnloadAll_sweep st :
  (UnloadAll unregisters st).1 = mkState false [] (invoked st ++ entries st).
Proof.
  unfold UnloadAll. cbn [fst].
  rewrite sweep_from by (simpl; lia). simpl.
  by rewrite firstn_all.
Qed.


End RegistryFacts.


(* ===================================================================== *)
(** * float32: signs and ranges *)

Section F32Facts.
Import F32.

Lemma ge_zero_nonneg x : ge x zero = nonneg x.
Proof. by destruct x as [[]|[]| |[] m e]. Qed.

Lemma lt_zero_nonneg x : is_nan x = false -> lt x zero = negb (nonneg x).
Proof. by destruct x as [[]|[]| |[] m e]. Qed.

Lemma nonneg_not_nan x : nonneg x = true -> is_nan x = false.
Proof. by destruct x. Qed.

Lemma signed_false_nonneg x : signed false x -> nonneg x = true.
Proof. destruct x as [s|s| |s m e]; simpl; try done; by intros ->. Qed.

Lemma signed_true_nonpos x : signed true x -> nonpos x = true.
Proof. destruct x as [s|s| |s m e]; simpl; try done; by intros ->. Qed.

Lemma signed_not_nan s x : signed s x -> is_nan x = false.
Proof. by destruct x. Qed.

(** ** Shifting a mantissa right keeps it between 0 and itself *)

Lemma shr_1_bounds mrs :
  0 <= shr_m mrs -> 0 <= shr_m (shr_1 mrs) <= shr_m mrs.
Proof.
  destruct mrs as [m r s]. simpl. intros Hm.
  destruct m as [|[p|p|]|p]; simpl; lia.
Qed.

Lemma iter_shr_1_bounds p mrs :
  0 <= shr_m mrs -> 0 <= shr_m (SpecFloat.iter_pos shr_1 p mrs) <= shr_m mrs.
Proof.
  revert mrs. induction p as [p IH|p IH|]; intros mrs Hm; simpl.
  - pose proof (shr_1_bounds mrs Hm) as H1.
    pose proof (IH (shr_1 mrs) ltac:(lia)) as H2.
    pose proof (IH (SpecFloat.iter_pos shr_1 p (shr_1 mrs)) ltac:(lia)) as H3. lia.
  - pose proof (IH mrs Hm) as H2.
    pose proof (IH (SpecFloat.iter_pos shr_1 p mrs) ltac:(lia)) as H3. lia.
  - by apply shr_1_bounds.
Qed.

Lemma shr_fexp_bounds m e l :
  0 <= m ->
  0 <= shr_m (shr_fexp prec emax m e l).1 <= m
  /\ (shr_fexp prec emax m e l).2 = Z.max e (fexp prec emax (Zdigits2 m + e)).
Proof.
  intros Hm. unfold shr_fexp, shr.
  assert (shr_m (shr_record_of_loc m l) = m) as Hrec
    by (by destruct l as [|[]]).
  destruct (fexp prec emax (Zdigits2 m + e) - e) as [|p|p] eqn:Hn; simpl.
  - rewrite Hrec. lia.
  - pose proof (iter_shr_1_bounds p (shr_record_of_loc m l)) as Hb.
    rewrite Hrec in Hb. lia.
  - rewrite Hrec. lia.
Qed.

Lemma round_nearest_even_bounds m l :
  m <= round_nearest_even m l <= m + 1.
Proof.
  unfold round_nearest_even. destruct l as [|[]]; try lia.
  destruct (Z.even m); lia.
Qed.

(** ** Rounding keeps the sign *)

Lemma binary_round_aux_signed sx mx ex lx :
  0 <= mx -> signed sx (binary_round_aux prec emax sx mx ex lx).
Proof.
  intros Hm. unfold binary_round_aux.
  destruct (shr_fexp prec emax mx ex lx) as [mrs' e'] eqn:H1.
  pose proof (shr_fexp_bounds mx ex lx Hm) as [Hb1 _]. rewrite H1 in Hb1.
  simpl in Hb1.
  pose proof (round_nearest_even_bounds (shr_m mrs') (loc_of_shr_record mrs')) as Hr.
  destruct (shr_fexp prec emax
              (round_nearest_even (shr_m mrs') (loc_of_shr_record mrs')) e'
              loc_Exact) as [mrs'' e''] eqn:H2.
  pose proof (shr_fexp_bounds
                (round_nearest_even (shr_m mrs') (loc_of_shr_record mrs')) e'
                loc_Exact ltac:(lia)) as [Hb2 _].
  rewrite H2 in Hb2. simpl in Hb2.
  destruct (shr_m mrs'') as [|p|p]; simpl; [done| |lia].
  by destruct (e'' <=? emax - prec).
Qed.

Lemma binary_round_signed sx mx ex :
  signed sx (binary_round prec emax sx mx ex).
Proof.
  unfold binary_round.
  destruct (shl_align mx ex _) as [mz ez].
  by apply binary_round_aux_signed.
Qed.

Lemma binary_normalize_zero e b : binary_normalize prec emax 0 e b = S754_zero b.
Proof. reflexivity. Qed.

Lemma binary_normalize_pos m e b :
  0 <= m -> nonneg (binary_normalize prec emax m e b) = true.
Proof.
  intros Hm. destruct m as [|p|p]; simpl; [done| |lia].
  apply signed_false_nonneg, binary_round_signed.
Qed.

Lemma binary_normalize_neg m e b :
  m <= 0 -> nonpos (binary_normalize prec emax m e b) = true.
Proof.
  intros Hm. destruct m as [|p|p]; simpl; [done|lia|].
  apply signed_true_nonpos, binary_round_signed.
Qed.

Lemma binary_normalize_not_nan m e b :
  is_nan (binary_normalize prec emax m e b) = false.
Proof.
  destruct m as [|p|p]; simpl; [done| |];
    eapply signed_not_nan, binary_round_signed.
Qed.

(** ** float32(n) *)

Lemma of_int_nonneg n : 0 <= n -> nonneg (of_int n) = true.
Proof. apply binary_normalize_pos. Qed.

Lemma of_int_nonpos n : n <= 0 -> nonpos (of_int n) = true.
Proof. apply binary_normalize_neg. Qed.

(** ** The operations of [Step] and [NextFrame] *)

Lemma mul_nonneg x m e :
  nonneg x = true -> nonneg (mul x (S754_finite false m e)) = true.
Proof.
  destruct x as [s|[]| |[] mx ex]; try done.
  intros _. unfold mul, SFmul. simpl xorb.
  apply signed_false_nonneg, binary_round_aux_signed. lia.
Qed.

Lemma add_nonneg x y :
  nonneg x = true -> nonneg y = true -> nonneg (add x y) = true.
Proof.
  destruct x as [[]|[]| |[] mx ex], y as [[]|[]| |[] my ey]; try done.
  intros _ _. unfold add, SFadd, cond_Zopp. apply binary_normalize_pos. lia.
Qed.

Lemma sub_nonneg x y :
  nonneg x = true -> nonpos y = true -> nonneg (sub x y) = true.
Proof.
  destruct x as [[]|[]| |[] mx ex], y as [[]|[]| |[] my ey]; try done.
  intros _ _. unfold sub, SFsub, cond_Zopp. apply binary_normalize_pos. lia.
Qed.

Lemma sub_not_nan x y :
  is_nan x = false -> is_finite y = true -> is_nan (sub x y) = false.
Proof.
  destruct x as [[]|[]| |sx mx ex], y as [[]|[]| |sy my ey]; try done;
    intros _ _; unfold sub, SFsub; apply binary_normalize_not_nan.
Qed.

(** [if t < 0 { t = 0 }] leaves a float that is [>= 0], NaN apart. *)
Lemma clamp_nonneg t :
  is_nan t = false -> nonneg (if lt t zero then zero else t) = true.
Proof.
  intros Hn. rewrite lt_zero_nonneg by done.
  by destruct (nonneg t) eqn:Ht.
Qed.

(** ** float32(n) of an [int] is finite *)

Lemma digits2_pos_size p : digits2_pos p = Pos.size p.
Proof. induction p as [p IH|p IH|]; simpl; by rewrite ?IH. Qed.

Lemma Zdigits2_gt p : Zpos p < 2 ^ Zdigits2 (Zpos p).
Proof.
  simpl. rewrite digits2_pos_size.
  pose proof (Pos.size_gt p) as H. apply Pos2Z.pos_lt_pos in H.
  by rewrite Pos2Z.inj_pow in H.
Qed.

Lemma Zdigits2_le m k : 0 <= k -> 0 <= m < 2 ^ k -> Zdigits2 m <= k.
Proof.
  intros Hk [Hm0 Hm]. destruct m as [|p|p]; simpl; [done| |lia].
  rewrite digits2_pos_size.
  pose proof (Pos.size_le p) as H. apply Pos2Z.pos_le_pos in H.
  rewrite Pos2Z.inj_pow in H. change (Z.pos p~0) with (2 * Z.pos p) in H.
  assert (2 ^ Z.pos (Pos.size p) < 2 ^ (k + 1)) as Hlt
    by (rewrite Z.pow_add_r by lia; lia).
  apply Z.pow_lt_mono_r_iff in Hlt; lia.
Qed.

Lemma digits2_pos_shift m d :
  Zpos (digits2_pos (Pos.iter xO m d)) = Zpos (digits2_pos m) + Zpos d.
Proof.
  induction d as [|d IH] using Pos.peano_ind.
  - simpl. lia.
  - rewrite Pos.iter_succ. simpl. rewrite Pos2Z.inj_succ, IH. lia.
Qed.

Lemma binary_round_aux_finite s mz ez :
  ez <= 0 -> Zdigits2 (Zpos mz) <= 64 ->
  is_finite (binary_round_aux prec emax s (Zpos mz) ez loc_Exact) = true.
Proof.
  intros Hez Hdig.
  pose proof (Zdigits2_gt mz) as Hmz.
  assert (Zpos mz < 2 ^ 64) as Hmz64.
  { eapply Z.lt_le_trans; [exact Hmz|]. apply Z.pow_le_mono_r; lia. }
  unfold binary_round_aux.
  pose proof (shr_fexp_bounds (Zpos mz) ez loc_Exact ltac:(lia)) as [Hb1 He1].
  destruct (shr_fexp prec emax (Zpos mz) ez loc_Exact) as [mrs' e'].
  simpl in Hb1, He1.
  pose proof (round_nearest_even_bounds (shr_m mrs') (loc_of_shr_record mrs')) as Hr.
  set (r := round_nearest_even (shr_m mrs') (loc_of_shr_record mrs')) in *.
  pose proof (shr_fexp_bounds r e' loc_Exact ltac:(lia)) as [Hb2 He2].
  destruct (shr_fexp prec emax r e' loc_Exact) as [mrs'' e''].
  simpl in Hb2, He2.
  assert (Zdigits2 r <= 65) as Hdr by (apply Zdigits2_le; lia).
  assert (0 <= Zdigits2 (Zpos mz)) as Hd0 by (simpl; lia).
  assert (0 <= Zdigits2 r) as Hdr0 by (destruct r; simpl; lia).
  clearbody r. simpl in Hdig, Hd0.
  unfold fexp, emin, prec, emax in *.
  destruct (shr_m mrs'') as [|p|p]; [done| |lia].
  destruct (Z.leb_spec e'' (128 - 24)); [done|lia].
Qed.

Lemma binary_round_int_finite s p :
  Zpos p < 2 ^ 64 -> is_finite (binary_round prec emax s p 0) = true.
Proof.
  intros Hp. unfold binary_round.
  assert (Zdigits2 (Zpos p) <= 64) as Hd by (apply Zdigits2_le; lia).
  simpl in Hd. unfold shl_align.
  destruct (fexp prec emax (Z.pos (digits2_pos p) + 0) - 0) as [|q|q] eqn:Hq.
  - apply binary_round_aux_finite; [lia|done].
  - apply binary_round_aux_finite; [lia|done].
  - apply binary_round_aux_finite.
    + unfold fexp, emin, prec, emax in *. lia.
    + simpl. rewrite digits2_pos_shift.
      unfold fexp, emin, prec, emax in *. lia.
Qed.

Lemma of_int_finite n : GoInt.in_int n -> is_finite (of_int n) = true.
Proof.
  unfold GoInt.in_int, GoInt.int_min, GoInt.int_max. intros Hn.
  destruct n as [|p|p]; [done| |];
    unfold of_int, binary_normalize; apply binary_round_int_finite; lia.
Qed.
End F32Facts.

(* ===================================================================== *)
(** * float32: valid values and their order *)

Section F32Order.
Import F32.

Lemma Zdigits2_bounds p :
  2 ^ (Zdigits2 (Zpos p) - 1) <= Zpos p < 2 ^ Zdigits2 (Zpos p).
Proof.
  split; [|apply Zdigits2_gt].
  simpl. rewrite digits2_pos_size.
  pose proof (Pos.size_le p) as H. apply Pos2Z.pos_le_pos in H.
  rewrite Pos2Z.inj_pow in H. change (Z.pos p~0) with (2 * Z.pos p) in H.
  replace (Z.pos (Pos.size p)) with (Z.pos (Pos.size p) - 1 + 1) in H by lia.
  rewrite Z.pow_add_r in H by lia. lia.
Qed.

Lemma Zdigits2_unique m k :
  2 ^ (k - 1) <= m < 2 ^ k -> 0 < k -> Zdigits2 m = k.
Proof.
  intros [Hlo Hhi] Hk.
  assert (0 < m) as Hm by (pose proof (Z.pow_pos_nonneg 2 (k - 1)); lia).
  destruct m as [|p|p]; try lia.
  pose proof (Zdigits2_bounds p) as [Hl Hh].
  assert (0 < Zdigits2 (Z.pos p)) as Hd by (simpl; lia).
  set (d := Zdigits2 (Z.pos p)) in *. clearbody d.
  assert (d - 1 < k) as H1.
  { apply (Z.pow_lt_mono_r_iff 2); [lia|lia|lia]. }
  assert (k - 1 < d) as H2.
  { apply (Z.pow_lt_mono_r_iff 2); [lia|lia|lia]. }
  lia.
Qed.

Lemma shr_1_half mrs : 0 <= shr_m mrs -> shr_m (shr_1 mrs) = shr_m mrs / 2.
Proof.
  destruct mrs as [m r s]. simpl. intros Hm.
  rewrite <- Z.div2_div.
  destruct m as [|[p|p|]|p]; simpl; try done; lia.
Qed.

Lemma iter_shr_1_div p mrs :
  0 <= shr_m mrs ->
  shr_m (SpecFloat.iter_pos shr_1 p mrs) = shr_m mrs / 2 ^ Zpos p.
Proof.
  revert mrs. induction p as [p IH|p IH|]; intros mrs Hm; simpl SpecFloat.iter_pos.
  - pose proof (shr_1_bounds mrs Hm) as H1.
    pose proof (iter_shr_1_bounds p (shr_1 mrs) ltac:(lia)) as H2.
    rewrite IH by lia. rewrite IH by lia. rewrite shr_1_half by done.
    rewrite !Z.div_div by lia.
    f_equal.
    assert (2 ^ Z.pos p~1 = 2 ^ (1 + Z.pos p + Z.pos p)) as -> by (f_equal; lia).
    rewrite !Z.pow_add_r by lia. lia.
  - pose proof (iter_shr_1_bounds p mrs Hm) as H2.
    rewrite IH by lia. rewrite IH by lia.
    rewrite !Z.div_div by lia.
    f_equal.
    assert (2 ^ Z.pos p~0 = 2 ^ (Z.pos p + Z.pos p)) as -> by (f_equal; lia).
    rewrite !Z.pow_add_r by lia. lia.
  - rewrite shr_1_half by done. done.
Qed.

(** Dropping [n] low bits of a number of [d > n] bits leaves [d - n] bits. *)
Lemma Zdigits2_div m n :
  0 < m -> 0 <= n < Zdigits2 m -> Zdigits2 (m / 2 ^ n) = Zdigits2 m - n.
Proof.
  intros Hm Hn. destruct m as [|p|p]; try lia.
  pose proof (Zdigits2_bounds p) as [Hl Hh].
  set (d := Zdigits2 (Z.pos p)) in *. clearbody d.
  apply Zdigits2_unique; [|lia].
  replace (d - 1) with ((d - n - 1) + n) in Hl by lia.
  replace d with ((d - n) + n) in Hh by lia.
  rewrite Z.pow_add_r in Hl, Hh by lia.
  assert (0 < 2 ^ n) by (apply Z.pow_pos_nonneg; lia).
  split.
  - apply Z.div_le_lower_bound; lia.
  - apply Z.div_lt_upper_bound; lia.
Qed.

Lemma Zdigits2_nonneg m : 0 <= Zdigits2 m.
Proof. destruct m; simpl; lia. Qed.

Lemma Zdigits2_pos m : 0 < m -> 0 < Zdigits2 m.
Proof. destruct m; simpl; lia. Qed.

Lemma Zdigits2_mono a b : 0 < a <= b -> Zdigits2 a <= Zdigits2 b.
Proof.
  intros Hab. apply Zdigits2_le; [apply Zdigits2_nonneg|].
  destruct b as [|q|q]; try lia.
  pose proof (Zdigits2_gt q). lia.
Qed.

Lemma Zdigits2_pow2 k : 0 <= k -> Zdigits2 (2 ^ k) = k + 1.
Proof.
  intros Hk. apply Zdigits2_unique; [|lia].
  replace (k + 1 - 1) with k by lia. split; [lia|].
  apply Z.pow_lt_mono_r; lia.
Qed.

Lemma Zdigits2_ge m k : 0 <= k -> 2 ^ k <= m -> k + 1 <= Zdigits2 m.
Proof.
  intros Hk Hm. rewrite <- (Zdigits2_pow2 k) by done.
  apply Zdigits2_mono. split; [apply Z.pow_pos_nonneg; lia|done].
Qed.

(** What [shr_fexp] computes on an exact location. *)
Lemma shr_fexp_exact m e :
  0 <= m ->
  let n := Z.max 0 (fexp prec emax (Zdigits2 m + e) - e) in
  shr_m (shr_fexp prec emax m e loc_Exact).1 = m / 2 ^ n
  /\ (shr_fexp prec emax m e loc_Exact).2 = e + n.
Proof.
  intros Hm n. subst n. unfold shr_fexp, shr.
  destruct (fexp prec emax (Zdigits2 m + e) - e) as [|p|p] eqn:Hn; simpl fst; simpl snd.
  - simpl shr_m. rewrite Z.div_1_r. split; [done|lia].
  - rewrite iter_shr_1_div by done. simpl shr_m.
    replace (Z.max 0 (Z.pos p)) with (Z.pos p) by lia. done.
  - simpl shr_m. replace (Z.max 0 (Z.neg p)) with 0 by lia.
    rewrite Z.div_1_r. split; [done|lia].
Qed.

Lemma div_pow2_bounds m n k :
  0 <= n -> 0 <= k -> 0 < m -> Zdigits2 m <= n + k -> m / 2 ^ n < 2 ^ k.
Proof.
  intros Hn Hk Hm Hd. destruct m as [|p|p]; try lia.
  pose proof (Zdigits2_gt p) as Hlt.
  apply Z.div_lt_upper_bound; [apply Z.pow_pos_nonneg; lia|].
  rewrite <- Z.pow_add_r by lia.
  eapply Z.lt_le_trans; [exact Hlt|]. apply Z.pow_le_mono_r; lia.
Qed.

Lemma div_pow2_lower m n k :
  0 <= n -> 0 <= k -> 0 < m -> n + k + 1 <= Zdigits2 m -> 2 ^ k <= m / 2 ^ n.
Proof.
  intros Hn Hk Hm Hd. destruct m as [|p|p]; try lia.
  pose proof (Zdigits2_bounds p) as [Hlo _].
  apply Z.div_le_lower_bound; [apply Z.pow_pos_nonneg; lia|].
  rewrite <- Z.pow_add_r by lia.
  eapply Z.le_trans; [|exact Hlo]. apply Z.pow_le_mono_r; lia.
Qed.

Lemma binary_round_aux_shape s mx ex :
  0 < mx -> ex <= fexp prec emax (Zdigits2 mx + ex) ->
  valid (binary_round_aux prec emax s mx ex loc_Exact) = true
  /\ (-149 <= ex ->
      forall s', binary_round_aux prec emax s mx ex loc_Exact ≠ S754_zero s').
Proof.
  intros Hmx Hpre.
  pose proof (Zdigits2_pos mx Hmx) as HD.
  unfold binary_round_aux.
  pose proof (shr_fexp_exact mx ex ltac:(lia)) as [Hm1 He1].
  destruct (shr_fexp prec emax mx ex loc_Exact) as [mrs' e'].
  simpl fst in Hm1. simpl snd in He1.
  pose proof (round_nearest_even_bounds (shr_m mrs') (loc_of_shr_record mrs')) as Hr.
  set (r := round_nearest_even (shr_m mrs') (loc_of_shr_record mrs')) in *.
  clearbody r.
  set (D := Zdigits2 mx) in *.
  set (n1 := Z.max 0 (fexp prec emax (D + ex) - ex)) in *.
  assert (0 <= n1) as Hn1 by (unfold n1; lia).
  assert (e' = fexp prec emax (D + ex)) as He1' by (unfold n1 in *; lia).
  assert (shr_m mrs' < 2 ^ 24) as Hm24.
  { rewrite Hm1. apply div_pow2_bounds; try lia.
    fold D. unfold n1, fexp, emin, prec, emax in *. lia. }
  assert (0 <= shr_m mrs') as Hm0.
  { rewrite Hm1. apply Z.div_pos; [lia|apply Z.pow_pos_nonneg; lia]. }
  assert (2 ^ 23 <= shr_m mrs' \/ e' = -149) as Hnorm.
  { destruct (Z_le_dec (-149) (D + ex - 24)) as [Hc|Hc].
    - left. rewrite Hm1. apply div_pow2_lower; try lia.
      fold D. unfold n1, fexp, emin, prec, emax in *. lia.
    - right. unfold n1, fexp, emin, prec, emax in *. lia. }
  assert (-149 <= ex -> 0 < shr_m mrs') as Hpos.
  { intros Hex. destruct Hnorm as [?|He]; [lia|].
    assert (n1 = 0) as Hn0 by (unfold n1, fexp, emin, prec, emax in *; lia).
    rewrite Hm1, Hn0, Z.div_1_r. done. }
  assert (-149 <= e') as He149 by (unfold fexp, emin, prec, emax in *; lia).
  pose proof (shr_fexp_exact r e' ltac:(lia)) as [Hm2 He2].
  destruct (shr_fexp prec emax r e' loc_Exact) as [mrs'' e''].
  simpl fst in Hm2. simpl snd in He2.
  destruct (Z.eq_dec r (2 ^ 24)) as [Hr24|Hr24].
  - assert (Zdigits2 r = 25) as Hdr by (rewrite Hr24; reflexivity).
    rewrite Hdr in Hm2, He2.
    assert (Z.max 0 (fexp prec emax (25 + e') - e') = 1) as Hn2
      by (unfold fexp, emin, prec, emax in *; lia).
    rewrite Hn2 in Hm2, He2. rewrite Hr24 in Hm2.
    change (2 ^ 24 / 2 ^ 1) with (2 ^ 23) in Hm2. rewrite Hm2.
    change (2 ^ 23) with (Z.pos 8388608).
    split; [|intros _ s'; by destruct (e'' <=? emax - prec)].
    destruct (Z.leb_spec e'' (emax - prec)) as [Hle|Hle]; [|done].
    simpl. unfold bounded, canonical_mantissa.
    apply andb_true_iff. split; [|by apply Z.leb_le].
    apply Z.eqb_eq. change (Z.pos (digits2_pos 8388608)) with 24.
    unfold fexp, emin, prec, emax in *. lia.
  - assert (r < 2 ^ 24) as Hr24' by lia.
    assert (Zdigits2 r <= 24) as Hdr by (apply Zdigits2_le; lia).
    pose proof (Zdigits2_nonneg r) as Hdr0.
    assert (Z.max 0 (fexp prec emax (Zdigits2 r + e') - e') = 0) as Hn2
      by (unfold fexp, emin, prec, emax in *; lia).
    rewrite Hn2 in Hm2, He2. rewrite Z.div_1_r in Hm2.
    rewrite Hm2. replace e'' with e' by lia.
    destruct r as [|q|q]; [|clear Hm2|lia].
    + split; [done|]. intros Hex. specialize (Hpos Hex). lia.
    + split; [|intros _ s'; by destruct (e' <=? emax - prec)].
      destruct (Z.leb_spec e' (emax - prec)) as [Hle|Hle]; [|done].
      simpl. unfold bounded, canonical_mantissa.
      apply andb_true_iff. split; [|by apply Z.leb_le].
      apply Z.eqb_eq. change (Z.pos (digits2_pos q)) with (Zdigits2 (Z.pos q)).
      destruct Hnorm as [Hn|Hn].
      * assert (24 <= Zdigits2 (Z.pos q)) by (apply (Zdigits2_ge _ 23); lia).
        unfold fexp, emin, prec, emax in *. lia.
      * unfold fexp, emin, prec, emax in *. lia.
Qed.

Lemma iter_xO_value m d : Zpos (Pos.iter xO m d) = Zpos m * 2 ^ Zpos d.
Proof.
  induction d as [|d IH] using Pos.peano_ind.
  - simpl. lia.
  - rewrite Pos.iter_succ, Pos2Z.inj_xO, IH, Pos2Z.inj_succ.
    rewrite Z.pow_succ_r by lia. lia.
Qed.

Lemma binary_round_shape s p e :
  valid (binary_round prec emax s p e) = true
  /\ (-149 <= e -> forall s', binary_round prec emax s p e ≠ S754_zero s').
Proof.
  unfold binary_round, shl_align.
  destruct (fexp prec emax (Z.pos (digits2_pos p) + e) - e) as [|q|q] eqn:Hq.
  - apply binary_round_aux_shape; [lia|]. simpl Zdigits2. lia.
  - apply binary_round_aux_shape; [lia|]. simpl Zdigits2. lia.
  - destruct (binary_round_aux_shape s (Z.pos (Pos.iter xO p q))
                (fexp prec emax (Z.pos (digits2_pos p) + e))) as [Hv Hz].
    + lia.
    + simpl Zdigits2. rewrite digits2_pos_shift.
      unfold fexp, emin, prec, emax in *. lia.
    + split; [done|]. intros _. apply Hz.
      unfold fexp, emin, prec, emax in *. lia.
Qed.

Lemma binary_normalize_valid m e b :
  valid (binary_normalize prec emax m e b) = true.
Proof. destruct m as [|p|p]; simpl; [done| |]; apply binary_round_shape. Qed.

(** With an exponent no smaller than the smallest one, the sign of what
    [binary_normalize] returns is the sign of the integer. *)
Lemma binary_normalize_sign m e :
  -149 <= e -> nonneg (binary_normalize prec emax m e false) = (0 <=? m).
Proof.
  intros He. destruct m as [|p|p]; simpl; [done| |].
  - apply signed_false_nonneg, binary_round_signed.
  - pose proof (binary_round_signed true p e) as Hs.
    destruct (binary_round_shape true p e) as [_ Hz]. specialize (Hz He).
    destruct (binary_round prec emax true p e) as [s'|s'| |s' m' e'];
      simpl in *; try done; try by subst.
    by destruct (Hz s').
Qed.

Lemma of_int_valid n : valid (of_int n) = true.
Proof. apply binary_normalize_valid. Qed.

Lemma valid_exponent s m e :
  valid (S754_finite s m e) = true ->
  -149 <= e /\ Zdigits2 (Zpos m) <= 24
  /\ (e = -149 \/ Zdigits2 (Zpos m) = 24).
Proof.
  unfold valid. simpl. unfold bounded, canonical_mantissa.
  intros [Hc _]%andb_true_iff. apply Z.eqb_eq in Hc.
  unfold fexp, emin, prec, emax in *. lia.
Qed.

Lemma add_valid x y :
  valid x = true -> valid y = true ->
  valid (add x y) = true.
Proof.
  destruct x as [[]|[]| |sx mx ex], y as [[]|[]| |sy my ey]; try done;
    intros _ _; apply binary_normalize_valid.
Qed.

Lemma sub_valid x y :
  valid x = true -> valid y = true ->
  valid (sub x y) = true.
Proof.
  destruct x as [[]|[]| |sx mx ex], y as [[]|[]| |sy my ey]; try done;
    intros _ _; apply binary_normalize_valid.
Qed.

Lemma mul_valid x y :
  valid x = true -> valid y = true ->
  valid (mul x y) = true.
Proof.
  destruct x as [[]|[]| |sx mx ex], y as [[]|[]| |sy my ey]; try done;
    intros Hx Hy; unfold mul, SFmul;
    apply valid_exponent in Hx as (Hex & Hdx & Hnx);
    apply valid_exponent in Hy as (Hey & Hdy & Hny);
    (apply binary_round_aux_shape; [lia|]);
    pose proof (Zdigits2_bounds mx) as [Hlx _];
    pose proof (Zdigits2_bounds my) as [Hly _];
    pose proof (Zdigits2_pos (Z.pos mx) ltac:(lia)) as Hpx;
    pose proof (Zdigits2_pos (Z.pos my) ltac:(lia)) as Hpy;
    assert (Zdigits2 (Z.pos mx) + Zdigits2 (Z.pos my) - 1
            <= Zdigits2 (Z.pos (mx * my))) as Hd
      by (replace (Zdigits2 (Z.pos mx) + Zdigits2 (Z.pos my) - 1)
            with ((Zdigits2 (Z.pos mx) - 1) + (Zdigits2 (Z.pos my) - 1) + 1) by lia;
          apply Zdigits2_ge; [lia|];
          rewrite Z.pow_add_r by lia; rewrite Pos2Z.inj_mul;
          apply Z.mul_le_mono_nonneg; lia);
    unfold fexp, emin, prec, emax in *; lia.
Qed.

Lemma shl_align_value m e ez :
  ez <= e -> Zpos (shl_align m e ez).1 = Zpos m * 2 ^ (e - ez).
Proof.
  intros He. unfold shl_align.
  destruct (ez - e) as [|q|q] eqn:Hq; simpl fst.
  - replace (e - ez) with 0 by lia. lia.
  - lia.
  - rewrite iter_xO_value. f_equal. f_equal. lia.
Qed.

(** On valid floats the order of [SFcompare] is the order of the
    mantissas brought to a common exponent. *)
Lemma SFcompare_aligned s1 m1 e1 s2 m2 e2 :
  valid (S754_finite s1 m1 e1) = true ->
  valid (S754_finite s2 m2 e2) = true ->
  SFcompare (S754_finite s1 m1 e1) (S754_finite s2 m2 e2)
  = Some (cond_Zopp s1 (Zpos (shl_align m1 e1 (Z.min e1 e2)).1)
          ?= cond_Zopp s2 (Zpos (shl_align m2 e2 (Z.min e1 e2)).1)).
Proof.
  intros (He1 & Hd1 & Hn1)%valid_exponent (He2 & Hd2 & Hn2)%valid_exponent.
  rewrite !shl_align_value by lia.
  pose proof (Zdigits2_bounds m1) as [Hlo1 Hhi1].
  pose proof (Zdigits2_bounds m2) as [Hlo2 Hhi2].
  assert (Z.pos m1 < 2 ^ 24) as H1
    by (eapply Z.lt_le_trans; [exact Hhi1|apply Z.pow_le_mono_r; lia]).
  assert (Z.pos m2 < 2 ^ 24) as H2
    by (eapply Z.lt_le_trans; [exact Hhi2|apply Z.pow_le_mono_r; lia]).
  assert (forall m e e', e' < e -> -149 <= e' ->
            (e = -149 \/ Zdigits2 (Z.pos m) = 24) ->
            2 ^ (Zdigits2 (Z.pos m) - 1) <= Z.pos m ->
            2 ^ 24 <= Z.pos m * 2 ^ (e - e')) as Hbig.
  { intros m e e' Hlt Hge [?|Hd] Hlo; [lia|]. rewrite Hd in Hlo.
    assert (2 ^ 1 <= 2 ^ (e - e')) by (apply Z.pow_le_mono_r; lia).
    change (2 ^ (24 - 1)) with 8388608 in Hlo. change (2 ^ 1) with 2 in *.
    change (2 ^ 24) with 16777216. nia. }
  assert (forall a b : Z,
            match a ?= b with Lt => a < b | Eq => a = b | Gt => b < a end) as Hcmp.
  { intros a b. destruct (Z.compare_spec a b); lia. }
  simpl SFcompare. f_equal.
  destruct (Z.compare_spec e1 e2) as [Heq|Hlt|Hgt].
  - subst e2. rewrite Z.min_id, Z.sub_diag, !Z.mul_1_r.
    rewrite Pos.compare_cont_spec. simpl.
    destruct s1, s2; simpl; try done;
      by destruct (m1 ?= m2)%positive.
  - replace (Z.min e1 e2) with e1 by lia. rewrite Z.sub_diag, Z.mul_1_r.
    specialize (Hbig m2 e2 e1 Hlt He1 Hn2 Hlo2).
    destruct s1, s2; unfold cond_Zopp; cbv iota; symmetry.
    + apply Z.compare_gt_iff. lia.
    + apply Z.compare_lt_iff. lia.
    + apply Z.compare_gt_iff. lia.
    + apply Z.compare_lt_iff. lia.
  - replace (Z.min e1 e2) with e2 by lia. rewrite Z.sub_diag, Z.mul_1_r.
    specialize (Hbig m1 e1 e2 Hgt He2 Hn1 Hlo1).
    destruct s1, s2; unfold cond_Zopp; cbv iota; symmetry.
    + apply Z.compare_lt_iff. lia.
    + apply Z.compare_lt_iff. lia.
    + apply Z.compare_gt_iff. lia.
    + apply Z.compare_gt_iff. lia.
Qed.

(** The test of [Step]: on valid floats, [x - y >= 0] is [x >= y]. *)
Lemma ge_sub_zero x y :
  valid x = true -> valid y = true ->
  is_finite y = true ->
  ge (sub x y) zero = ge x y.
Proof.
  intros Hx Hy Hfin. rewrite ge_zero_nonneg. unfold ge, SFleb.
  destruct x as [sx|sx| |sx mx ex], y as [sy|sy| |sy my ey]; try done;
    try (by destruct sx, sy).
  unfold sub, SFsub.
  pose proof (valid_exponent _ _ _ Hx) as (Hex & _).
  pose proof (valid_exponent _ _ _ Hy) as (Hey & _).
  rewrite binary_normalize_sign by lia.
  rewrite (SFcompare_aligned sy my ey sx mx ex Hy Hx).
  rewrite (Z.min_comm ey ex).
  set (a := cond_Zopp sx (Z.pos (shl_align mx ex (Z.min ex ey)).1)).
  set (b := cond_Zopp sy (Z.pos (shl_align my ey (Z.min ex ey)).1)).
  destruct (Z.compare_spec b a); destruct (Z.leb_spec 0 (a - b)); try done; lia.
Qed.
End F32Order.

(* ===================================================================== *)
(** * The playback cursor *)

Section Player.
Import GoInt Rgif Props.

Lemma hundred : F32.of_int 100 = S754_finite false 13107200 (-17).
Proof. reflexivity. Qed.

Lemma ge_not_lt x : F32.ge x F32.zero = true -> F32.lt x F32.zero = false.
Proof.
  rewrite ge_zero_nonneg. intros Hx.
  rewrite lt_zero_nonneg by (by apply nonneg_not_nan). by rewrite Hx.
Qed.

Lemma next_index p :
  player_ok p -> 0 <= currentFrame p < Frames p ->
  Z.rem (add64 (currentFrame p) 1) (Frames p)
  = (currentFrame p + 1) mod Frames p
  /\ 0 <= (currentFrame p + 1) mod Frames p < Frames p.
Proof.
  intros [Hf _ _ _] Hc. unfold add64.
  rewrite wrap64_id by (unfold in_int, int_min, int_max in *; lia).
  rewrite Z.rem_mod_nonneg by lia.
  split; [done|]. apply Z.mod_pos_bound. lia.
Qed.

Lemma set_time_ok p t : player_ok p -> player_ok (set_time p t).
Proof. by intros [? ? ? ?]. Qed.

(** [NextFrame] on a player whose index is in range. *)
Lemma NextFrame_Ok p :
  player_ok p -> 0 <= currentFrame p < Frames p ->
  exists d px,
    Timing p !! Z.to_nat (currentFrame p) = Some d
    /\ in_int d
    /\ pixels p !! Z.to_nat ((currentFrame p + 1) mod Frames p) = Some px
    /\ NextFrame p
       = Ok {| Texture := UpdateTexture px;
               pixels := pixels p; Width := Width p; Height := Height p;
               Frames := Frames p; Timing := Timing p;
               Disposal := Disposal p;
               currentFrame := (currentFrame p + 1) mod Frames p;
               lastFrameTime :=
                 let t := F32.sub (lastFrameTime p) (F32.of_int d) in
                 if F32.lt t F32.zero then F32.zero else t |}.
Proof.
  intros Hp Hc. destruct (next_index p Hp Hc) as [Hrem Hrange].
  destruct Hp as [Hf Ht Hpx Hd].
  destruct (lookup_lt_is_Some_2 (Timing p) (Z.to_nat (currentFrame p))
              ltac:(lia)) as [d Hdl].
  destruct (lookup_lt_is_Some_2 (pixels p)
              (Z.to_nat ((currentFrame p + 1) mod Frames p)) ltac:(lia))
    as [px Hpxl].
  exists d, px. split; [done|].
  split; [by eapply Forall_lookup_1|]. split; [done|].
  unfold NextFrame.
  rewrite (index_Ok (Timing p) _ d) by (lia || done). rewrite bind_Ok.
  destruct (Z.eqb_spec (Frames p) 0); [lia|].
  rewrite Hrem.
  rewrite (index_Ok (pixels p) _ px) by (lia || done). by rewrite bind_Ok.
Qed.

Lemma NextFrame_keeps p :
  player_ok p -> 0 <= currentFrame p < Frames p ->
  F32.is_nan (lastFrameTime p) = false ->
  exists p', NextFrame p = Ok p'
             /\ currentFrame p' = (currentFrame p + 1) mod Frames p
             /\ player_ok p' /\ cursor_ok p' /\ same_animation p p'.
Proof.
  intros Hp Hc Hn.
  destruct (NextFrame_Ok p Hp Hc) as (d & px & Hd & Hdi & Hpx & ->).
  destruct (next_index p Hp Hc) as [_ Hrange].
  eexists. split; [done|]. split; [done|].
  split; [by destruct Hp|]. split; [|done].
  split; [done|]. simpl.
  rewrite ge_zero_nonneg. apply clamp_nonneg.
  apply sub_not_nan; [done|]. by apply of_int_finite.
Qed.

(** [Step]: the time is advanced, the delay of the current frame is
    subtracted once and tested once. *)
Lemma Step_Ok p dt :
  player_ok p -> 0 <= currentFrame p < Frames p ->
  exists d px,
    Timing p !! Z.to_nat (currentFrame p) = Some d
    /\ in_int d
    /\ pixels p !! Z.to_nat ((currentFrame p + 1) mod Frames p) = Some px
    /\ let t1 := F32.add (lastFrameTime p) (F32.mul dt (F32.of_int 100)) in
       let rest := F32.sub t1 (F32.of_int d) in
       Step dt p
       = Ok (if F32.ge rest F32.zero then
               {| Texture := UpdateTexture px;
                  pixels := pixels p; Width := Width p; Height := Height p;
                  Frames := Frames p; Timing := Timing p;
                  Disposal := Disposal p;
                  currentFrame := (currentFrame p + 1) mod Frames p;
                  lastFrameTime :=
                    if F32.lt rest F32.zero then F32.zero else rest |}
             else set_time p t1).
Proof.
  intros Hp Hc.
  set (t1 := F32.add (lastFrameTime p) (F32.mul dt (F32.of_int 100))).
  destruct (NextFrame_Ok (set_time p t1) (set_time_ok p t1 Hp) Hc)
    as (d & px & Hd & Hdi & Hpx & Hnext).
  simpl in Hd, Hpx, Hnext.
  exists d, px. split; [done|]. split; [done|]. split; [done|].
  simpl. fold t1. unfold Step. fold t1. simpl.
  rewrite (index_Ok (Timing p) _ d) by (lia || done). rewrite bind_Ok.
  destruct (F32.ge (F32.sub t1 (F32.of_int d)) F32.zero); [|done].
  exact Hnext.
Qed.

Lemma Step_time_valid p dt d :
  F32.valid (lastFrameTime p) = true -> F32.valid dt = true ->
  let t1 := F32.add (lastFrameTime p) (F32.mul dt (F32.of_int 100)) in
  let rest := F32.sub t1 (F32.of_int d) in
  F32.valid t1 = true
  /\ F32.valid (if F32.lt rest F32.zero then F32.zero else rest) = true.
Proof.
  intros Ht Hdt t1 rest.
  assert (F32.valid t1 = true) as Ht1.
  { apply add_valid; [done|]. apply mul_valid; [done|apply of_int_valid]. }
  split; [done|].
  destruct (F32.lt rest F32.zero); [done|].
  apply sub_valid; [done|apply of_int_valid].
Qed.

(** C4. One call of [Step] adds [timeSinceLastStep * 100] to the
    accumulated time and tests once whether that time is [>=] the delay of
    the current frame (the code tests that the time less the delay is
    [>= 0], which on float32 is the same). If it is, the index moves to the
    next frame modulo the frame count and the time kept is the time less
    the delay (the clamp to 0 changes nothing here); if it is not, the
    index stays and the sum is kept. Either way the index moves by at most
    one frame, however many delays the elapsed time spans, and nothing but
    the cursor and the texture changes. *)
Theorem step_moves_at_most_one_frame p dt :
  player_ok p ->
  0 <= currentFrame p < Frames p ->
  F32.valid (lastFrameTime p) = true ->
  F32.valid dt = true ->
  exists d p',
    Timing p !! Z.to_nat (currentFrame p) = Some d
    /\ Step dt p = Ok p'
    /\ let t1 := F32.add (lastFrameTime p) (F32.mul dt (F32.of_int 100)) in
       let rest := F32.sub t1 (F32.of_int d) in
       F32.ge rest F32.zero = F32.ge t1 (F32.of_int d)
       /\ (F32.ge t1 (F32.of_int d) = true ->
           currentFrame p' = (currentFrame p + 1) mod Frames p
           /\ lastFrameTime p' = (if F32.lt rest F32.zero then F32.zero else rest)
           /\ lastFrameTime p' = rest)
       /\ (F32.ge t1 (F32.of_int d) = false ->
           currentFrame p' = currentFrame p /\ lastFrameTime p' = t1)
       /\ (currentFrame p' = currentFrame p
           \/ currentFrame p' = (currentFrame p + 1) mod Frames p)
       /\ F32.valid (lastFrameTime p') = true
       /\ same_animation p p'.
Proof.
  intros Hp Hc Ht Hdt.
  destruct (Step_Ok p dt Hp Hc) as (d & px & Hd & Hdi & _ & Hstep).
  destruct (Step_time_valid p dt d Ht Hdt) as [Ht1 Hrest].
  cbv zeta in Hstep, Ht1, Hrest.
  exists d. eexists. split; [done|]. split; [exact Hstep|].
  cbv zeta.
  rewrite <- (ge_sub_zero _ (F32.of_int d) Ht1 (of_int_valid d)
                (of_int_finite d Hdi)).
  split; [done|].
  destruct (F32.ge _ F32.zero) eqn:Hge; simpl.
  - split; [|split; [done|split; [by right|done]]].
    intros _. split; [done|]. split; [done|]. by rewrite (ge_not_lt _ Hge).
  - split; [done|]. split; [done|]. split; [by left|done].
Qed.

Lemma do_call_valid c p p' :
  player_ok p -> 0 <= currentFrame p < Frames p ->
  F32.valid (lastFrameTime p) = true -> call_valid c ->
  do_call c p = Ok p' -> F32.valid (lastFrameTime p') = true.
Proof.
  intros Hp Hc Ht Hcall. destruct c as [dt| |]; simpl in *.
  - destruct (Step_Ok p dt Hp Hc) as (d & px & _ & _ & _ & Hstep).
    destruct (Step_time_valid p dt d Ht Hcall) as [Ht1 Hrest].
    cbv zeta in Hstep, Ht1, Hrest. rewrite Hstep. intros [= <-].
    by destruct (F32.ge _ F32.zero).
  - destruct (NextFrame_Ok p Hp Hc) as (d & px & _ & _ & _ & ->).
    intros [= <-]. simpl.
    destruct (F32.lt _ F32.zero); [done|].
    apply sub_valid; [done|apply of_int_valid].
  - by intros [= <-].
Qed.

Lemma Step_keeps p dt :
  player_ok p -> cursor_ok p -> F32.ge dt F32.zero = true ->
  exists p', Step dt p = Ok p' /\ player_ok p' /\ cursor_ok p'
             /\ same_animation p p'
             /\ (currentFrame p' = currentFrame p
                 \/ currentFrame p' = (currentFrame p + 1) mod Frames p).
Proof.
  intros Hp [Hc Ht] Hdt. rewrite ge_zero_nonneg in Ht, Hdt.
  set (t1 := F32.add (lastFrameTime p) (F32.mul dt (F32.of_int 100))).
  assert (F32.nonneg t1 = true) as Ht1.
  { unfold t1. apply add_nonneg; [done|]. rewrite hundred. by apply mul_nonneg. }
  destruct (Step_Ok p dt Hp Hc) as (d & px & Hd & Hdi & Hpx & Hstep).
  cbv zeta in Hstep. fold t1 in Hstep. rewrite Hstep.
  destruct (next_index p Hp Hc) as [_ Hrange].
  destruct (F32.ge (F32.sub t1 (F32.of_int d)) F32.zero) eqn:Hge;
    (eexists; split; [done|]).
  - split; [by destruct Hp|]. split; [|split; [done|by right]].
    split; [done|]. simpl. rewrite ge_zero_nonneg. apply clamp_nonneg.
    apply sub_not_nan; [by apply nonneg_not_nan|by apply of_int_finite].
  - split; [by apply set_time_ok|]. split; [|split; [done|by left]].
    split; [done|]. simpl. by rewrite ge_zero_nonneg.
Qed.

Lemma do_call_keeps c p :
  player_ok p -> cursor_ok p -> call_ok c ->
  exists p', do_call c p = Ok p' /\ player_ok p' /\ cursor_ok p'.
Proof.
  intros Hp Hc Hcall. destruct c as [dt| |]; simpl in *.
  - destruct (Step_keeps p dt Hp Hc Hcall) as (p' & ? & ? & ? & _).
    by exists p'.
  - destruct Hc as [Hc Ht]. rewrite ge_zero_nonneg in Ht.
    destruct (NextFrame_keeps p Hp Hc (nonneg_not_nan _ Ht))
      as (p' & ? & _ & ? & ? & _).
    by exists p'.
  - eexists. split; [done|]. split; [by destruct Hp|].
    split; [simpl; destruct Hp; lia|done].
Qed.

Lemma do_calls_keep cs p :
  player_ok p -> cursor_ok p -> Forall call_ok cs ->
  exists p', do_calls cs p = Ok p' /\ player_ok p' /\ cursor_ok p'
             /\ (F32.valid (lastFrameTime p) = true ->
                 Forall call_valid cs ->
                 F32.valid (lastFrameTime p') = true).
Proof.
  intros Hp Hc Hcs. revert p Hp Hc.
  induction Hcs as [|c cs Hcall _ IH]; intros p Hp Hc; simpl.
  - by exists p.
  - destruct (do_call_keeps c p Hp Hc Hcall) as (p1 & Hrun & Hp1 & Hc1).
    rewrite Hrun.
    destruct (IH p1 Hp1 Hc1) as (p' & Hrun' & Hp' & Hc' & Hv').
    exists p'. split; [done|]. split; [done|]. split; [done|].
    intros Hv [Hcv Hcsv]%Forall_cons. apply Hv'; [|done].
    destruct Hc as [Hc _]. by apply (do_call_valid c p p1).
Qed.

(** C7. On a player over at least one frame, whatever calls of [Step]
    (with an elapsed time [>= 0]), [NextFrame] and [Reset] are made, every
    call returns and leaves the index within the frames and the
    accumulated time [>= 0] (and a value of float32, when it was one and
    the elapsed times are); from the last frame [NextFrame] goes to
    frame 0, and a [Step] that moves goes to frame 0. *)
Theorem playback_cursor_stays_in_range p cs :
  player_ok p -> cursor_ok p -> Forall call_ok cs ->
  (forall k, exists p',
      do_calls (take k cs) p = Ok p' /\ player_ok p'
      /\ 0 <= currentFrame p' < Frames p'
      /\ F32.ge (lastFrameTime p') F32.zero = true
      /\ (F32.valid (lastFrameTime p) = true -> Forall call_valid cs ->
          F32.valid (lastFrameTime p') = true))
  /\ (exists p', NextFrame p = Ok p'
                 /\ (currentFrame p = Frames p - 1 -> currentFrame p' = 0))
  /\ (forall dt, F32.ge dt F32.zero = true ->
        exists p', Step dt p = Ok p'
                   /\ (currentFrame p = Frames p - 1 ->
                       currentFrame p' = currentFrame p \/ currentFrame p' = 0)).
Proof.
  intros Hp Hc Hcs.
  assert (currentFrame p = Frames p - 1 ->
          (currentFrame p + 1) mod Frames p = 0) as Hwrap.
  { intros ->. replace (Frames p - 1 + 1) with (Frames p) by lia.
    apply Z.mod_same. destruct Hp. lia. }
  split; [|split].
  - intros k.
    destruct (do_calls_keep (take k cs) p Hp Hc (Forall_take _ k _ Hcs))
      as (p' & Hrun & Hp' & (Hc' & Ht') & Hv').
    exists p'. split; [done|]. split; [done|]. split; [done|].
    split; [done|]. intros Hv Hcv. apply Hv'; [done|by apply Forall_take].
  - destruct Hc as [Hc Ht]. rewrite ge_zero_nonneg in Ht.
    destruct (NextFrame_keeps p Hp Hc (nonneg_not_nan _ Ht))
      as (p' & Hrun & Hcur & _).
    exists p'. split; [done|]. intros Hlast. rewrite Hcur. by apply Hwrap.
  - intros dt Hdt.
    destruct (Step_keeps p dt Hp Hc Hdt) as (p' & Hrun & _ & _ & _ & Hmove).
    exists p'. split; [done|]. intros Hlast.
    destruct Hmove as [?|Hm]; [by left|right]. rewrite Hm. by apply Hwrap.
Qed.

(** C8. When the delay of the current frame is zero or negative, one
    call of [Step] with an elapsed time [>= 0] returns, and the index has
    moved by exactly one frame, modulo the frame count; [Step] has no
    loop, and the only division in it is the remainder by the frame
    count. *)
Theorem nonpositive_delay_advances_one_frame p dt d :
  player_ok p -> cursor_ok p ->
  F32.ge dt F32.zero = true ->
  Timing p !! Z.to_nat (currentFrame p) = Some d ->
  d <= 0 ->
  exists p', Step dt p = Ok p'
             /\ currentFrame p' = (currentFrame p + 1) mod Frames p
             /\ 0 <= currentFrame p' < Frames p'
             /\ F32.ge (lastFrameTime p') F32.zero = true
             /\ same_animation p p'.
Proof.
  intros Hp [Hc Ht] Hdt Hd Hneg. rewrite ge_zero_nonneg in Ht, Hdt.
  set (t1 := F32.add (lastFrameTime p) (F32.mul dt (F32.of_int 100))).
  assert (F32.nonneg t1 = true) as Ht1.
  { unfold t1. apply add_nonneg; [done|]. rewrite hundred. by apply mul_nonneg. }
  destruct (Step_Ok p dt Hp Hc) as (d' & px & Hd' & Hdi & Hpx & Hstep).
  assert (d' = d) as -> by congruence.
  cbv zeta in Hstep. fold t1 in Hstep. rewrite Hstep.
  assert (F32.ge (F32.sub t1 (F32.of_int d)) F32.zero = true) as Hge.
  { rewrite ge_zero_nonneg. apply sub_nonneg; [done|by apply of_int_nonpos]. }
  rewrite Hge. destruct (next_index p Hp Hc) as [_ Hrange].
  eexists. split; [done|]. simpl. split; [done|]. split; [done|].
  split; [|done]. rewrite (ge_not_lt _ Hge). done.
Qed.
End Player.

Section PlayerExamples.
Import GoInt Rgif Props Examples.

Lemma player_10_10_10_ok : player_ok player_10_10_10 /\ cursor_ok player_10_10_10.
Proof.
  split; [split|split].
  - simpl. unfold int_max. lia.
  - reflexivity.
  - reflexivity.
  - repeat constructor; vm_compute; discriminate.
  - simpl. lia.
  - reflexivity.
Qed.

Lemma player_last_zero_ok : player_ok player_last_zero /\ cursor_ok player_last_zero.
Proof.
  split; [split|split].
  - simpl. unfold int_max. lia.
  - reflexivity.
  - reflexivity.
  - repeat constructor; vm_compute; discriminate.
  - simpl. lia.
  - reflexivity.
Qed.

(** What [LoadGifFromFile] returns for the red, green, transparent
    animation is the player of the examples. *)
Lemma player_10_10_10_loaded :
  LoadGifFromFile (Decoded red_green_clear) = Ok player_10_10_10.
Proof. vm_compute. reflexivity. Qed.

(** Delays 10, 10, 10 and a first step of 50 seconds: 5000 hundredths
    move the index by one frame and leave 4990; the remainder carries, so
    the next two steps of 0 seconds move one frame each. *)
Lemma step_remainder_carries :
  exists p1 p2 p3,
    Step (F32.of_int 50) player_10_10_10 = Ok p1
    /\ currentFrame p1 = 1 /\ lastFrameTime p1 = F32.of_int 4990
    /\ Step F32.zero p1 = Ok p2
    /\ currentFrame p2 = 2 /\ lastFrameTime p2 = F32.of_int 4980
    /\ Step F32.zero p2 = Ok p3
    /\ currentFrame p3 = 0 /\ lastFrameTime p3 = F32.of_int 4970.
Proof.
  do 3 eexists.
  split; [vm_compute; reflexivity|]. split; [reflexivity|]. split; [reflexivity|].
  split; [vm_compute; reflexivity|]. split; [reflexivity|]. split; [reflexivity|].
  split; [vm_compute; reflexivity|]. split; reflexivity.
Qed.
End PlayerExamples.

Lemma step_moves_at_most_one_frame_witness :
  exists p', Rgif.Step (F32.of_int 50) Examples.player_10_10_10 = Ok p'
             /\ Rgif.currentFrame p' = 1
             /\ Rgif.lastFrameTime p' = F32.of_int 4990.
Proof.
  destruct (step_moves_at_most_one_frame Examples.player_10_10_10 (F32.of_int 50)
              (proj1 player_10_10_10_ok))
    as (d & p' & Hd & Hstep & _ & Hyes & _);
    [vm_compute; split; congruence|reflexivity|reflexivity|].
  injection Hd as <-.
  destruct (Hyes eq_refl) as (Hcur & _ & Htime).
  exists p'. split; [exact Hstep|]. split; [exact Hcur|exact Htime].
Defined.

Lemma playback_cursor_stays_in_range_witness :
  exists p',
    Rgif.do_calls [Rgif.CallStep (F32.of_int 50); Rgif.CallNextFrame;
                   Rgif.CallStep F32.zero; Rgif.CallReset]
                  Examples.player_10_10_10 = Ok p'
    /\ 0 <= Rgif.currentFrame p' < 3
    /\ F32.ge (Rgif.lastFrameTime p') F32.zero = true.
Proof.
  destruct (playback_cursor_stays_in_range Examples.player_10_10_10
              [Rgif.CallStep (F32.of_int 50); Rgif.CallNextFrame;
               Rgif.CallStep F32.zero; Rgif.CallReset]
              (proj1 player_10_10_10_ok) (proj2 player_10_10_10_ok))
    as (Hall & _).
  { repeat constructor. }
  destruct (Hall 4%nat) as (p' & Hrun & Hok & Hcur & Htime & _).
  exists p'. split; [exact Hrun|].
  split; [|exact Htime].
  destruct Hok as [_ _ _ _]. vm_compute in Hrun. injection Hrun as <-.
  vm_compute. split; congruence.
Defined.

Lemma nonpositive_delay_advances_one_frame_witness :
  exists p', Rgif.Step F32.zero Examples.player_last_zero = Ok p'
             /\ Rgif.currentFrame p' = 0.
Proof.
  destruct (nonpositive_delay_advances_one_frame Examples.player_last_zero
              F32.zero 0 (proj1 player_last_zero_ok) (proj2 player_last_zero_ok)
              eq_refl eq_refl)
    as (p' & Hstep & Hcur & _); [lia|].
  exists p'. split; [exact Hstep|exact Hcur].
Defined.

(* ===================================================================== *)
(** * More on the frame loop *)

Section FrameEffect.
Import GoInt Rgif Props Trace.

(** One iteration of the frame loop, with what it does to the buffers. *)
Lemma frame_body_effect g n img d st :
  loadable g -> gif.Image g !! n = Some img -> gif.Disposal g !! n = Some d ->
  frames_done g n st ->
  exists st', frame_body g (width g) (height g) (Z.of_nat n) img st = Ok st'
              /\ frames_done g (S n) st'
              /\ frame_effect g n img d st st'.
Proof.
  intros Hg Himg Hb Hdone.
  destruct (frame_body_step g n img st Hg Himg Hdone) as (st1 & Hrun1 & Hdone1).
  exists st1. split; [done|]. split; [done|].
  destruct Hdone as (Hld & Hli & Hlc & Hds & Hprev & Hbufs & _).
  pose proof (loadable_mul64 g Hg) as Hmul.
  destruct Hg as [Hne Hdisp Hw Hh Harea Hcache].
  pose proof (lookup_lt_Some _ _ _ Himg) as Hn.
  destruct (lookup_lt_is_Some_2 (gif.Image g) 0 ltac:(lia)) as [img0 Himg0].
  destruct (lookup_lt_is_Some_2 (gif.Disposal g) 0 ltac:(lia)) as [d0 Hd0].
  revert Hrun1. unfold frame_body.
  rewrite (index_Ok (gif.Disposal g) _ d) by (rewrite ?Nat2Z.id; lia || done).
  rewrite bind_Ok. rewrite store_Ok by lia. rewrite bind_Ok.
  rewrite Hmul. rewrite make_Ok by nia. rewrite bind_Ok.
  rewrite Nat2Z.id.
  set (st0 := mkLocals (<[n:=d]> (disposals st)) (images st) (clumative st)
                       (previousNonDisposed st)
                       (replicate (Z.to_nat (width g * height g)) Blank)).
  assert (disposals st0 !! n = Some d) as Hdn
    by (simpl; apply list_lookup_insert_eq; lia).
  assert (disposals st0 !! 0%nat = Some d0) as Hd00.
  { simpl. destruct (decide (n = 0%nat)) as [->|Hn0].
    - rewrite list_lookup_insert_eq by lia. congruence.
    - rewrite list_lookup_insert_ne by done. rewrite Hds by lia. done. }
  destruct (known_dec d) as [Hk|Hk].
  - destruct (frame_pixels_known g (width g) (height g) (Z.of_nat n) img st0
                d d0 img0)
      as (st2 & -> & H1 & H2 & H3 & H4 & H5 & H6 & H7);
      try done; try (simpl; by rewrite ?length_replicate, ?Nat2Z.id); try lia.
    rewrite bind_Ok. rewrite store_Ok by (rewrite H2; simpl; lia).
    rewrite bind_Ok. rewrite Nat2Z.id. intros [= <-].
    subst st0. unfold frame_effect. simpl in *.
    split.
    { intros j Hj. rewrite H2. by rewrite list_lookup_insert_ne. }
    exists (pixels_ st2).
    split; [rewrite list_lookup_insert_eq by (rewrite H2; lia); done|].
    split; [by rewrite H3, length_replicate|].
    split; [|done].
    intros _ d0' img0' Hd0' Himg0' x y Hx Hy.
    assert (d0' = d0) as -> by congruence.
    assert (img0' = img0) as -> by congruence.
    destruct (H6 x y Hx Hy I) as (old & Hold & Hp & Hc).
    exists old. split; [done|]. split; [done|]. congruence.
  - rewrite (frame_pixels_unknown g _ _ _ img st0 d) by (rewrite ?Nat2Z.id; lia || done).
    rewrite bind_Ok. rewrite store_Ok by (simpl; lia).
    rewrite bind_Ok. rewrite Nat2Z.id. intros [= <-].
    subst st0. unfold frame_effect. simpl in *.
    split.
    { intros j Hj. by rewrite list_lookup_insert_ne. }
    eexists.
    split; [rewrite list_lookup_insert_eq by lia; done|].
    split; [by rewrite length_replicate|].
    split; [done|]. done.
Qed.

Lemma range_frames_snoc body i0 l img st :
  range_frames body i0 (l ++ [img]) st
  = match range_frames body i0 l st with
    | Ok st' => body (i0 + Z.of_nat (length l)) img st'
    | Err e => Err e
    | Panic => Panic
    end.
Proof.
  revert i0 st. induction l as [|a l IH]; intros i0 st; simpl.
  - rewrite Z.add_0_r. by destruct (body i0 img st).
  - destruct (body i0 a st) as [s1| |]; [|done..].
    rewrite IH. replace (i0 + 1 + Z.of_nat (length l))
      with (i0 + Z.pos (Pos.of_succ_nat (length l))) by lia. done.
Qed.

(** The locals after [S n] iterations are those after [n] iterations and
    one more run of the body. *)
Lemma composite_upto_S g n img st :
  gif.Image g !! n = Some img ->
  composite_upto g n = Ok st ->
  composite_upto g (S n)
  = frame_body g (width g) (height g) (Z.of_nat n) img st.
Proof.
  intros Himg. unfold composite_upto. fold (width g) (height g).
  destruct (Slice.make FrameDisposalNone _) as [ds| |]; [|done..].
  rewrite !bind_Ok.
  destruct (Slice.make_cap [] _ _) as [imgs| |]; [|done..].
  rewrite !bind_Ok.
  destruct (Slice.make Blank _) as [cl| |]; [|done..].
  rewrite !bind_Ok.
  destruct (Slice.index (gif.Image g) 0) as [img0| |]; [|done..].
  rewrite !bind_Ok.
  rewrite (take_S_r _ _ _ Himg). rewrite range_frames_snoc.
  intros ->. simpl.
  rewrite length_take_le by (apply lookup_lt_Some in Himg; lia). done.
Qed.

(** The loop before and after frame [n]. *)
Lemma composite_step g n img d :
  loadable g -> gif.Image g !! n = Some img -> gif.Disposal g !! n = Some d ->
  exists st st',
    composite_upto g n = Ok st /\ composite_upto g (S n) = Ok st'
    /\ frames_done g n st /\ frames_done g (S n) st'
    /\ frame_effect g n img d st st'.
Proof.
  intros Hg Himg Hd. pose proof (lookup_lt_Some _ _ _ Himg) as Hn.
  destruct (composite_upto_done g n Hg ltac:(lia)) as (st & Hrun & Hdone).
  destruct (frame_body_effect g n img d st Hg Himg Hd Hdone)
    as (st' & Hbody & Hdone' & Heff).
  exists st, st'. split; [done|].
  split; [by rewrite (composite_upto_S g n img st)|]. done.
Qed.

(** Later iterations leave the buffer of frame [j] alone. *)
Lemma images_stable g j m stj stm :
  loadable g -> (j < m <= length (gif.Image g))%nat ->
  composite_upto g (S j) = Ok stj -> composite_upto g m = Ok stm ->
  images stm !! j = images stj !! j.
Proof.
  intros Hg [Hjm Hm] Hj. revert stm.
  induction m as [|m IH]; intros stm Hrun; [lia|].
  destruct (decide (m = j)) as [->|Hne]; [congruence|].
  destruct (lookup_lt_is_Some_2 (gif.Image g) m ltac:(lia)) as [img Himg].
  destruct (lookup_lt_is_Some_2 (gif.Disposal g) m) as [d Hd].
  { destruct Hg. lia. }
  destruct (composite_step g m img d Hg Himg Hd)
    as (st & st' & Hst & Hst' & _ & _ & (Hother & _)).
  assert (st' = stm) as -> by congruence.
  rewrite Hother by lia. apply IH; [lia|lia|done].
Qed.

(** What [LoadGifFromFile] returns holds, for frame [n], the buffer the
    loop made in iteration [n]. *)
Lemma load_frame_buffer g n img d :
  loadable g -> gif.Image g !! n = Some img -> gif.Disposal g !! n = Some d ->
  exists p st st' buf,
    LoadGifFromFile (Decoded g) = Ok p
    /\ composite_upto g n = Ok st /\ composite_upto g (S n) = Ok st'
    /\ frames_done g n st /\ frame_effect g n img d st st'
    /\ images st' !! n = Some buf /\ pixels p !! n = Some buf.
Proof.
  intros Hg Himg Hd. pose proof (lookup_lt_Some _ _ _ Himg) as Hn.
  destruct (composite_step g n img d Hg Himg Hd)
    as (st & st' & Hst & Hst' & Hdone & _ & Heff).
  destruct (composite_upto_done g (length (gif.Image g)) Hg (le_n _))
    as (stf & Hrunf & _).
  pose proof (images_stable g n (length (gif.Image g)) st' stf Hg ltac:(lia) Hst' Hrunf) as Hstable.
  rewrite composite_upto_all in Hrunf.
  destruct (lookup_lt_is_Some_2 (gif.Image g) 0 ltac:(lia)) as [img0 Himg0].
  pose proof Heff as (_ & buf & Hbuf & _).
  eexists _, st, st', buf. split.
  { simpl. unfold load_decoded. rewrite Hrunf, bind_Ok.
    rewrite (index_Ok (gif.Image g) 0 img0) by (lia || done). by rewrite bind_Ok. }
  simpl. repeat (split; [done|]). congruence.
Qed.
End FrameEffect.

Section ResolvedFrames.
Import GoInt Rgif Props Trace.

Lemma composite_upto_0 g :
  loadable g ->
  exists img0,
    gif.Image g !! 0%nat = Some img0
    /\ composite_upto g 0
       = Ok (mkLocals (replicate (length (gif.Image g)) FrameDisposalNone)
                      (replicate (length (gif.Image g)) [])
                      (replicate (Z.to_nat (width g * height g)) Blank)
                      img0 []).
Proof.
  intros Hg. pose proof (loadable_mul64 g Hg) as Hmul.
  destruct Hg as [Hne Hdisp Hw Hh Harea Hcache].
  destruct (lookup_lt_is_Some_2 (gif.Image g) 0) as [img0 Himg0].
  { destruct (gif.Image g); [done|simpl; lia]. }
  exists img0. split; [done|].
  unfold composite_upto. fold (width g) (height g). rewrite Hmul.
  rewrite (make_Ok FrameDisposalNone) by lia. rewrite bind_Ok.
  unfold Slice.make_cap.
  destruct (Z.ltb_spec (Z.of_nat (length (gif.Image g))) 0); [lia|].
  destruct (Z.ltb_spec (width g * height g) (Z.of_nat (length (gif.Image g))));
    [unfold frames in Hcache; lia|].
  simpl orb. cbv iota. rewrite bind_Ok.
  rewrite (make_Ok Blank) by nia. rewrite bind_Ok.
  rewrite (index_Ok (gif.Image g) 0 img0) by (lia || done). rewrite bind_Ok.
  rewrite Nat2Z.id. reflexivity.
Qed.

(** X1. Whatever the disposal method among the four, a pixel whose alpha
    is above zero resolves to the frame's own sample, narrowed to 8 bits a
    channel; with [None] every pixel does. *)
Theorem opaque_pixels_keep_own_sample g i img d x y :
  loadable g ->
  gif.Image g !! i = Some img ->
  gif.Disposal g !! i = Some d ->
  known d ->
  0 <= x < width g -> 0 <= y < height g ->
  d = FrameDisposalNone \/ 0 < color.alpha (image.At img x y) ->
  exists p buf,
    LoadGifFromFile (Decoded g) = Ok p
    /\ pixels p !! i = Some buf
    /\ buf !! offset (width g) x y = Some (narrow (image.At img x y)).
Proof.
  intros Hg Hi Hd Hk Hx Hy Hop.
  destruct (load_decoded_resolved g Hg) as (p & Hload & _ & _ & _ & _ & _ & _ & _ & Hbufs).
  destruct (Hbufs i (lookup_lt_Some _ _ _ Hi)) as (buf & Hbuf & _ & Hres).
  destruct (loadable_lookups g i img Hg Hi) as (img0 & d0 & prev & Himg0 & Hd0 & Hprev).
  destruct (Hres img d d0 img0 prev Hi Hd Hk Hd0 Himg0 Hprev x y Hx Hy) as (old & Hc).
  exists p, buf. split; [exact Hload|]. split; [exact Hbuf|].
  rewrite Hc. f_equal. unfold resolved, known, FrameDisposalNone,
    FrameDisposalDontDispose, FrameDisposalRestoreBackground in *.
  destruct Hop as [->|Ha]; [done|].
  destruct (Z.ltb_spec 0 (color.alpha (image.At img x y))); [|lia].
  destruct (Z.eqb_spec (color.alpha (image.At img x y)) 0); [lia|].
  rewrite andb_false_r.
  by destruct (d =? 0), (d =? 1), (d =? 2).
Qed.

(** X2. In a frame with disposal [DontDispose], a pixel whose alpha is not
    above zero takes the colour the previous frame resolved to at that
    pixel (when that frame had one of the four disposal codes), and the
    zero colour in frame 0. *)
Theorem dont_dispose_transparent_inherits g i img x y :
  loadable g ->
  gif.Image g !! i = Some img ->
  gif.Disposal g !! i = Some FrameDisposalDontDispose ->
  0 <= x < width g -> 0 <= y < height g ->
  color.alpha (image.At img x y) <= 0 ->
  exists p buf c,
    LoadGifFromFile (Decoded g) = Ok p
    /\ pixels p !! i = Some buf
    /\ buf !! offset (width g) x y = Some c
    /\ (i = 0%nat -> c = Blank)
    /\ (forall j dj, i = S j -> gif.Disposal g !! j = Some dj -> known dj ->
          exists before, pixels p !! j = Some before
                         /\ before !! offset (width g) x y = Some c).
Proof.
  intros Hg Hi Hd Hx Hy Ha.
  destruct (load_frame_buffer g i img _ Hg Hi Hd)
    as (p & st & st' & buf & Hload & Hst & Hst' & Hdone & Heff & Hbuf & Hpx).
  destruct (loadable_lookups g i img Hg Hi) as (img0 & d0 & _ & Himg0 & Hd0 & _).
  destruct Heff as (_ & buf' & Hbuf' & _ & Hknown & _).
  assert (buf' = buf) as -> by congruence.
  destruct (Hknown ltac:(unfold known, FrameDisposalDontDispose; lia)
              d0 img0 Hd0 Himg0 x y Hx Hy) as (old & Hold & Hc & _).
  assert (resolved FrameDisposalDontDispose d0 img img0
            (previousNonDisposed st) old x y = old) as Hres.
  { unfold resolved. simpl.
    destruct (Z.ltb_spec 0 (color.alpha (image.At img x y))); [lia|done]. }
  rewrite Hres in Hc.
  exists p, buf, old. split; [done|]. split; [done|]. split; [done|].
  split.
  - intros ->. destruct (composite_upto_0 g Hg) as (img0' & _ & H0).
    rewrite H0 in Hst. injection Hst as <-. simpl in Hold.
    apply lookup_replicate in Hold as [-> _]. done.
  - intros j dj -> Hdj Hkj.
    destruct (lookup_lt_is_Some_2 (gif.Image g) j) as [imgj Himgj].
    { apply lookup_lt_Some in Hi. lia. }
    destruct (load_frame_buffer g j imgj dj Hg Himgj Hdj)
      as (p' & _ & stj & bufj & Hload' & _ & Hstj & _ & _ & Hbufj & Hpxj).
    assert (p' = p) as -> by congruence.
    assert (stj = st) as -> by congruence.
    exists bufj. split; [done|].
    destruct Hdone as (_ & _ & _ & _ & _ & _ & Hlast).
    destruct (Hlast j dj bufj eq_refl Hdj Hkj Hbufj x y Hx Hy) as [_ Heq].
    congruence.
Qed.

(** X3. A frame whose disposal code is none of the four resolves to a
    buffer of zero colours, one per pixel, and leaves the accumulation
    buffer and [previousNonDisposed] as they were. *)
Theorem unknown_disposal_gives_blank_frame g i img d :
  loadable g ->
  gif.Image g !! i = Some img ->
  gif.Disposal g !! i = Some d ->
  d < 0 \/ 3 < d ->
  exists p st st',
    LoadGifFromFile (Decoded g) = Ok p
    /\ pixels p !! i = Some (replicate (Z.to_nat (width g * height g)) Blank)
    /\ composite_upto g i = Ok st
    /\ composite_upto g (S i) = Ok st'
    /\ clumative st' = clumative st
    /\ previousNonDisposed st' = previousNonDisposed st.
Proof.
  intros Hg Hi Hd Hunk.
  destruct (load_frame_buffer g i img d Hg Hi Hd)
    as (p & st & st' & buf & Hload & Hst & Hst' & _ & Heff & Hbuf & Hpx).
  destruct Heff as (_ & buf' & Hbuf' & _ & _ & Hunknown).
  assert (buf' = buf) as -> by congruence.
  destruct Hunknown as (-> & Hc & Hp); [unfold known; lia|].
  by exists p, st, st'.
Qed.

Lemma load_decoded_locals g :
  loadable g ->
  exists p st img0,
    load_decoded g = Ok p /\ composite g = Ok st
    /\ frames_done g (length (gif.Image g)) st
    /\ gif.Image g !! 0%nat = Some img0
    /\ p = {| Texture := LoadTextureFromGo img0;
              pixels := images st;
              Width := width g; Height := height g; Frames := frames g;
              Timing := gif.Delay g; Disposal := disposals st;
              currentFrame := 0; lastFrameTime := F32.zero |}.
Proof.
  intros Hg.
  destruct (composite_upto_done g (length (gif.Image g)) Hg (le_n _))
    as (st & Hrun & Hdone).
  rewrite composite_upto_all in Hrun.
  destruct (lookup_lt_is_Some_2 (gif.Image g) 0) as [img0 Himg0].
  { destruct Hg as [Hne _ _ _ _ _]. destruct (gif.Image g); [done|simpl; lia]. }
  eexists _, st, img0. split.
  { unfold load_decoded. rewrite Hrun, bind_Ok.
    rewrite (index_Ok (gif.Image g) 0 img0) by (lia || done). by rewrite bind_Ok. }
  done.
Qed.

(** X4. An animation on which the load goes through and whose delay table
    has one entry per frame loads into a player that the playback calls can
    run on: at least one frame, a delay and a buffer of width times height
    pixels for every frame, the disposal codes of the frames, the cursor on
    frame 0 with no time accumulated, and the raw frame 0 as texture. *)
Theorem loaded_player_is_ready g :
  loadable g ->
  length (gif.Delay g) = length (gif.Image g) ->
  Forall in_int (gif.Delay g) ->
  exists p img0,
    LoadGifFromFile (Decoded g) = Ok p
    /\ player_ok p /\ cursor_ok p
    /\ currentFrame p = 0 /\ lastFrameTime p = F32.zero
    /\ Frames p = frames g
    /\ Disposal p = take (length (gif.Image g)) (gif.Disposal g)
    /\ Forall (λ buf, length buf = Z.to_nat (Width p * Height p)) (pixels p)
    /\ gif.Image g !! 0%nat = Some img0
    /\ Texture p = LoadTextureFromGo img0.
Proof.
  intros Hg Hdelay Hints.
  destruct (load_decoded_locals g Hg) as (p & st & img0 & Hload & _ & Hdone & Himg0 & ->).
  destruct Hdone as (Hld & Hli & _ & Hds & _ & Hbufs & _).
  pose proof Hg as [Hne Hdisp Hw Hh Harea Hcache].
  assert (1 <= frames g) as Hf1.
  { unfold frames. destruct (gif.Image g); [done|simpl; lia]. }
  eexists _, img0. split; [exact Hload|]. simpl.
  split; [split; simpl; unfold frames in *; lia || done|].
  split; [split; simpl; [lia|done]|].
  split; [done|]. split; [done|]. split; [done|].
  split.
  { apply list_eq. intros j.
    destruct (decide (j < length (gif.Image g))%nat) as [Hj|Hj].
    - rewrite lookup_take_lt by done. by apply Hds.
    - rewrite lookup_take_ge by lia. apply lookup_ge_None_2. lia. }
  split; [|done].
  apply Forall_lookup_2. intros j buf Hj.
  destruct (Hbufs j) as (buf' & Hbuf' & Hlen & _).
  { apply lookup_lt_Some in Hj. lia. }
  congruence.
Qed.
End ResolvedFrames.

Section DimensionsCover.
Import GoInt Rgif Props Trace.

Lemma foldr_min_from_origin (l : list Z) :
  Forall (λ z, 0 <= z) l -> foldr Z.min 0 l = 0.
Proof. intros Hl. induction Hl; simpl; lia. Qed.

Lemma foldr_max_upper (l : list Z) z d : z ∈ l -> z <= foldr Z.max d l.
Proof.
  induction l as [|a l IH]; intros Hin; [by apply elem_of_nil in Hin|].
  simpl. apply elem_of_cons in Hin as [->|Hin]; [lia|].
  specialize (IH Hin). lia.
Qed.

Lemma foldr_max_attained (l : list Z) d :
  foldr Z.max d l = d \/ foldr Z.max d l ∈ l.
Proof.
  induction l as [|a l IH]; simpl; [by left|].
  destruct (Z.max_spec a (foldr Z.max d l)) as [[_ ->]|[_ ->]].
  - destruct IH as [->|IH]; [by left|right; by right].
  - right. left.
Qed.

(** X5. When no frame rectangle starts left of or above the origin, the
    dimensions are the largest [Max.X] and the largest [Max.Y] (0 when
    there is none above 0): every frame rectangle lies within
    [0, width] by [0, height], and no smaller width or height would do. *)
Theorem frames_fit_the_dimensions g :
  rects_within coord_bound g ->
  rects_from_origin g ->
  getGifDimensions g
  = (foldr Z.max 0 (MaxX <$> gif.Image g), foldr Z.max 0 (MaxY <$> gif.Image g))
  /\ (forall img, img ∈ gif.Image g ->
        0 <= MinX img /\ MaxX img <= width g
        /\ 0 <= MinY img /\ MaxY img <= height g)
  /\ (width g = 0 \/ exists img, img ∈ gif.Image g /\ MaxX img = width g)
  /\ (height g = 0 \/ exists img, img ∈ gif.Image g /\ MaxY img = height g).
Proof.
  intros Hb Ho. unfold rects_within, rects_from_origin in *.
  assert (getGifDimensions g
          = (foldr Z.max 0 (MaxX <$> gif.Image g),
             foldr Z.max 0 (MaxY <$> gif.Image g))) as Hdim.
  { unfold getGifDimensions.
    destruct (extent_fold (mkExtent 0 0 0 0) (gif.Image g)) as (-> & -> & -> & ->).
    simpl.
    rewrite !foldr_min_from_origin
      by (apply Forall_fmap; eapply Forall_impl; [exact Ho|]; simpl; tauto).
    assert (- coord_bound <= foldr Z.max 0 (MaxX <$> gif.Image g) <= coord_bound) as Hx.
    { apply foldr_max_bounds; [unfold coord_bound; lia|].
      apply Forall_fmap. eapply Forall_impl; [exact Hb|]. simpl. tauto. }
    assert (- coord_bound <= foldr Z.max 0 (MaxY <$> gif.Image g) <= coord_bound) as Hy.
    { apply foldr_max_bounds; [unfold coord_bound; lia|].
      apply Forall_fmap. eapply Forall_impl; [exact Hb|]. simpl. tauto. }
    unfold sub64, coord_bound in *.
    rewrite !wrap64_id by (unfold in_int, int_min, int_max; lia).
    f_equal; lia. }
  split; [exact Hdim|].
  unfold width, height. rewrite Hdim. simpl.
  split; [|split].
  - intros img Hin.
    pose proof (proj1 (Forall_forall _ _) Ho img Hin) as [Hx Hy].
    split; [done|]. split; [|split; [done|]].
    + apply foldr_max_upper. by apply list_elem_of_fmap_2.
    + apply foldr_max_upper. by apply list_elem_of_fmap_2.
  - destruct (foldr_max_attained (MaxX <$> gif.Image g) 0) as [?|Hin]; [by left|right].
    apply list_elem_of_fmap in Hin as (img & Heq & Hin). by exists img.
  - destruct (foldr_max_attained (MaxY <$> gif.Image g) 0) as [?|Hin]; [by left|right].
    apply list_elem_of_fmap in Hin as (img & Heq & Hin). by exists img.
Qed.
End DimensionsCover.

Section MoreFrameExamples.
Import GoInt Rgif Props Trace Examples.

Lemma red_clear_odd_loadable : loadable red_clear_odd.
Proof.
  split; [discriminate | simpl; lia | reflexivity | reflexivity
         | vm_compute; discriminate | vm_compute; discriminate].
Qed.
End MoreFrameExamples.

Lemma opaque_pixels_keep_own_sample_witness :
  exists p buf,
    Rgif.LoadGifFromFile (Rgif.Decoded Examples.red_green_clear) = Ok p
    /\ Rgif.pixels p !! 1%nat = Some buf
    /\ buf !! 0%nat = Some (Rgif.NewColor 0 255 0 255).
Proof.
  destruct (opaque_pixels_keep_own_sample Examples.red_green_clear 1
              Examples.green_frame Rgif.FrameDisposalRestoreBackground 0 0
              red_green_clear_loadable eq_refl eq_refl)
    as (p & buf & Hl & Hb & Hc);
    [vm_compute; split; discriminate | vm_compute; split; congruence
    | vm_compute; split; congruence | right; reflexivity |].
  exists p, buf. split; [exact Hl|]. split; [exact Hb|exact Hc].
Defined.

Lemma dont_dispose_transparent_inherits_witness :
  exists p buf,
    Rgif.LoadGifFromFile (Rgif.Decoded Examples.red_clear_odd) = Ok p
    /\ Rgif.pixels p !! 1%nat = Some buf
    /\ buf !! 0%nat = Some (Rgif.NewColor 255 0 0 255).
Proof.
  destruct (dont_dispose_transparent_inherits Examples.red_clear_odd 1
              Examples.clear_frame 0 0 red_clear_odd_loadable eq_refl eq_refl)
    as (p & buf & c & Hl & Hb & Hc & _ & Hprev);
    [vm_compute; split; congruence | vm_compute; split; congruence
    | vm_compute; discriminate |].
  exists p, buf. split; [exact Hl|]. split; [exact Hb|].
  destruct (Hprev 0%nat Rgif.FrameDisposalNone eq_refl eq_refl)
    as (before & Hbefore & Hsame); [vm_compute; split; discriminate|].
  vm_compute in Hl. injection Hl as <-.
  vm_compute in Hbefore. injection Hbefore as <-.
  vm_compute in Hsame. injection Hsame as <-. exact Hc.
Defined.

Lemma unknown_disposal_gives_blank_frame_witness :
  exists p,
    Rgif.LoadGifFromFile (Rgif.Decoded Examples.red_clear_odd) = Ok p
    /\ Rgif.pixels p !! 2%nat = Some (replicate 4 Rgif.Blank).
Proof.
  destruct (unknown_disposal_gives_blank_frame Examples.red_clear_odd 2
              Examples.green_frame 5 red_clear_odd_loadable eq_refl eq_refl)
    as (p & st & st' & Hl & Hb & _); [right; lia|].
  exists p. split; [exact Hl|exact Hb].
Defined.

Lemma loaded_player_is_ready_witness :
  exists p,
    Rgif.LoadGifFromFile (Rgif.Decoded Examples.red_green_clear) = Ok p
    /\ Props.player_ok p /\ Props.cursor_ok p.
Proof.
  destruct (loaded_player_is_ready Examples.red_green_clear
              red_green_clear_loadable eq_refl)
    as (p & img0 & Hl & Hok & Hcur & _).
  { repeat constructor; vm_compute; discriminate. }
  exists p. split; [exact Hl|]. split; [exact Hok|exact Hcur].
Defined.

Lemma frames_fit_the_dimensions_witness :
  Rgif.getGifDimensions Examples.off_origin = (10, 10)
  /\ Props.MaxX Examples.frame_5_10 <= Props.width Examples.off_origin.
Proof.
  destruct (frames_fit_the_dimensions Examples.off_origin) as (Hd & Hfit & _).
  - repeat constructor; vm_compute; discriminate.
  - repeat constructor; vm_compute; discriminate.
  - split; [rewrite Hd; reflexivity|].
    apply (Hfit Examples.frame_5_10). left.
Defined.

(* ===================================================================== *)
(** * More on the playback cursor *)

Section MorePlayer.
Import GoInt Rgif Props.

Lemma do_calls_app cs1 cs2 p :
  do_calls (cs1 ++ cs2) p
  = match do_calls cs1 p with
    | Ok p' => do_calls cs2 p'
    | Err e => Err e
    | Panic => Panic
    end.
Proof.
  revert p. induction cs1 as [|c cs1 IH]; intros p; simpl.
  - by destruct (do_calls cs2 p).
  - destruct (do_call c p) as [p1| |]; [apply IH|done..].
Qed.

Lemma same_animation_refl p : same_animation p p.
Proof. by repeat split. Qed.

Lemma same_animation_trans p1 p2 p3 :
  same_animation p1 p2 -> same_animation p2 p3 -> same_animation p1 p3.
Proof.
  intros (?&?&?&?&?&?) (?&?&?&?&?&?). repeat split; congruence.
Qed.

Lemma do_call_same c p :
  player_ok p -> cursor_ok p -> call_ok c ->
  exists p', do_call c p = Ok p' /\ player_ok p' /\ cursor_ok p'
             /\ same_animation p p'.
Proof.
  intros Hp Hc Hcall. destruct c as [dt| |]; simpl in *.
  - destruct (Step_keeps p dt Hp Hc Hcall) as (p' & ? & ? & ? & ? & _).
    by exists p'.
  - destruct Hc as [Hc Ht]. rewrite ge_zero_nonneg in Ht.
    destruct (NextFrame_keeps p Hp Hc (nonneg_not_nan _ Ht))
      as (p' & ? & _ & ? & ? & ?).
    by exists p'.
  - eexists. split; [done|]. split; [by destruct Hp|].
    split; [split; [simpl; destruct Hp; lia|done]|]. by repeat split.
Qed.

Lemma do_calls_same cs p :
  player_ok p -> cursor_ok p -> Forall call_ok cs ->
  exists p', do_calls cs p = Ok p' /\ player_ok p' /\ cursor_ok p'
             /\ same_animation p p'.
Proof.
  intros Hp Hc Hcs. revert p Hp Hc.
  induction Hcs as [|c cs Hcall _ IH]; intros p Hp Hc; simpl.
  - exists p. split; [done|]. split; [done|]. split; [done|].
    apply same_animation_refl.
  - destruct (do_call_same c p Hp Hc Hcall) as (p1 & -> & Hp1 & Hc1 & Hs1).
    destruct (IH p1 Hp1 Hc1) as (p' & Hrun & Hp' & Hc' & Hs').
    exists p'. split; [done|]. split; [done|]. split; [done|].
    by eapply same_animation_trans.
Qed.

(** X6. After any calls of [Step] (with an elapsed time [>= 0]),
    [NextFrame] and [Reset], a [Reset] puts the cursor on frame 0 with no
    time accumulated and leaves the frames, delays and buffers as they
    were; it does not touch the texture, which keeps showing the frame it
    showed before. *)
Theorem reset_returns_to_start p cs :
  player_ok p -> cursor_ok p -> Forall call_ok cs ->
  exists p1 p',
    do_calls cs p = Ok p1
    /\ do_calls (cs ++ [CallReset]) p = Ok p'
    /\ currentFrame p' = 0
    /\ lastFrameTime p' = F32.zero
    /\ Texture p' = Texture p1
    /\ same_animation p p'
    /\ Reset p' = p'.
Proof.
  intros Hp Hc Hcs.
  destruct (do_calls_same cs p Hp Hc Hcs) as (p1 & Hrun & _ & _ & Hs).
  exists p1, (Reset p1). split; [done|].
  split; [by rewrite do_calls_app, Hrun|].
  repeat (split; [done|]). done.
Qed.

(** X7. [NextFrame] uploads the buffer of the frame it moves to; [Step]
    either does the same, moving one frame on, or leaves both the index and
    the texture as they were. *)
Theorem texture_shows_the_frame_moved_to p dt :
  player_ok p -> cursor_ok p -> F32.ge dt F32.zero = true ->
  (exists p' buf,
      NextFrame p = Ok p'
      /\ currentFrame p' = (currentFrame p + 1) mod Frames p
      /\ pixels p !! Z.to_nat (currentFrame p') = Some buf
      /\ Texture p' = UpdateTexture buf)
  /\ (exists p',
        Step dt p = Ok p'
        /\ ((currentFrame p' = currentFrame p /\ Texture p' = Texture p)
            \/ exists buf,
                currentFrame p' = (currentFrame p + 1) mod Frames p
                /\ pixels p !! Z.to_nat (currentFrame p') = Some buf
                /\ Texture p' = UpdateTexture buf)).
Proof.
  intros Hp [Hc Ht] Hdt. split.
  - destruct (NextFrame_Ok p Hp Hc) as (d & px & _ & _ & Hpx & ->).
    eexists _, px. by repeat split.
  - destruct (Step_Ok p dt Hp Hc) as (d & px & _ & _ & Hpx & Hstep).
    cbv zeta in Hstep. rewrite Hstep.
    destruct (F32.ge (F32.sub _ _) F32.zero); cbv iota; eexists; (split; [done|]).
    + right. exists px. simpl. by repeat split.
    + left. simpl. by split.
Qed.

Lemma do_calls_replicate_S k c p :
  do_calls (replicate (S k) c) p
  = match do_calls (replicate k c) p with
    | Ok p' => do_call c p'
    | Err e => Err e
    | Panic => Panic
    end.
Proof.
  replace (replicate (S k) c) with (replicate k c ++ [c]).
  - rewrite do_calls_app. destruct (do_calls (replicate k c) p); [|done..].
    simpl. by destruct (do_call c a).
  - clear p. induction k as [|k IH]; simpl; [done|]. by rewrite IH.
Qed.

(** X8. [k] calls of [NextFrame] move the index [k] frames on, modulo the
    frame count: as many calls as there are frames bring it back to where
    it was. *)
Theorem next_frame_cycles p k :
  player_ok p -> cursor_ok p ->
  exists p',
    do_calls (replicate k CallNextFrame) p = Ok p'
    /\ currentFrame p' = (currentFrame p + Z.of_nat k) mod Frames p
    /\ (Z.of_nat k = Frames p -> currentFrame p' = currentFrame p)
    /\ same_animation p p'.
Proof.
  intros Hp Hc.
  assert (exists p', do_calls (replicate k CallNextFrame) p = Ok p'
                     /\ currentFrame p' = (currentFrame p + Z.of_nat k) mod Frames p
                     /\ player_ok p' /\ cursor_ok p' /\ same_animation p p')
    as (p' & Hrun & Hcur & _ & _ & Hs).
  { induction k as [|k (p1 & Hrun & Hcur & Hp1 & Hc1 & Hs1)].
    - exists p. simpl. split; [done|]. rewrite Z.add_0_r.
      pose proof Hc as [Hr _]. rewrite Z.mod_small by lia.
      split; [done|]. split; [done|]. split; [done|]. apply same_animation_refl.
    - rewrite do_calls_replicate_S, Hrun. simpl.
      pose proof Hc1 as [Hr1 Ht1]. rewrite ge_zero_nonneg in Ht1.
      destruct (NextFrame_keeps p1 Hp1 Hr1 (nonneg_not_nan _ Ht1))
        as (p2 & Hn & Hcur2 & Hp2 & Hc2 & Hs2).
      exists p2. split; [done|].
      pose proof Hs1 as (Hf & _).
      split.
      { rewrite Hcur2, Hcur, Hf. rewrite Zplus_mod_idemp_l. f_equal. lia. }
      split; [done|]. split; [done|].
      by eapply same_animation_trans. }
  exists p'. split; [done|]. split; [done|]. split; [|done].
  intros Hk. rewrite Hcur, Hk.
  destruct Hc as [Hc _]. destruct Hp as [Hf _ _ _].
  rewrite <- (Z.mul_1_l (Frames p)) at 1. rewrite Z.mod_add by lia.
  apply Z.mod_small. lia.
Qed.

Lemma SFcompare_antisym x y :
  SFcompare y x = CompOpp <$> SFcompare x y.
Proof.
  destruct x as [sx|sx| |sx mx ex], y as [sy|sy| |sy my ey]; simpl;
    try done; try (by destruct sx); try (by destruct sy);
    try (by destruct sx, sy).
  destruct sx, sy; try done; f_equal.
  - rewrite (Z.compare_antisym ey ex). destruct (ey ?= ex); simpl; try done.
    f_equal. by rewrite Pos.compare_cont_antisym.
  - rewrite (Z.compare_antisym ey ex). destruct (ey ?= ex); simpl; try done.
    by rewrite Pos.compare_cont_antisym.
Qed.

Lemma lt_not_ge x y : F32.lt x y = true -> F32.ge x y = false.
Proof.
  unfold F32.lt, F32.ge, SFltb, SFleb. rewrite (SFcompare_antisym x y).
  by destruct (SFcompare x y) as [[]|].
Qed.

Lemma lt_not_nan x y : F32.lt x y = true -> F32.is_nan x = false.
Proof. unfold F32.lt, SFltb. by destruct x, y. Qed.

(** X9. [NextFrame] called on its own moves one frame on and subtracts the
    delay of the frame it leaves: when the accumulated time is [>=] that
    delay the difference is kept, and when it is below the delay the time
    is set to 0. *)
Theorem next_frame_keeps_or_drops_the_remainder p :
  player_ok p ->
  0 <= currentFrame p < Frames p ->
  F32.valid (lastFrameTime p) = true ->
  exists d p',
    Timing p !! Z.to_nat (currentFrame p) = Some d
    /\ NextFrame p = Ok p'
    /\ currentFrame p' = (currentFrame p + 1) mod Frames p
    /\ (F32.ge (lastFrameTime p) (F32.of_int d) = true ->
        lastFrameTime p' = F32.sub (lastFrameTime p) (F32.of_int d))
    /\ (F32.lt (lastFrameTime p) (F32.of_int d) = true ->
        lastFrameTime p' = F32.zero).
Proof.
  intros Hp Hc Hv.
  destruct (NextFrame_Ok p Hp Hc) as (d & px & Hd & Hdi & _ & Hnext).
  exists d. eexists. split; [done|]. split; [exact Hnext|]. simpl.
  split; [done|].
  pose proof (ge_sub_zero (lastFrameTime p) (F32.of_int d) Hv (of_int_valid d)
                (of_int_finite d Hdi)) as Hsub.
  split.
  - intros Hge. rewrite Hge in Hsub. by rewrite (ge_not_lt _ Hsub).
  - intros Hlt. rewrite (lt_not_ge _ _ Hlt) in Hsub.
    rewrite lt_zero_nonneg.
    + rewrite ge_zero_nonneg in Hsub. by rewrite Hsub.
    + apply sub_not_nan; [by eapply lt_not_nan|by apply of_int_finite].
Qed.

Lemma NextFrame_partial p :
  1 <= Frames p <= int_max ->
  Z.of_nat (length (pixels p)) = Frames p ->
  0 <= currentFrame p < Frames p ->
  currentFrame p < Z.of_nat (length (Timing p)) ->
  exists p', NextFrame p = Ok p'
             /\ currentFrame p' = (currentFrame p + 1) mod Frames p
             /\ Frames p' = Frames p /\ Timing p' = Timing p
             /\ pixels p' = pixels p.
Proof.
  intros Hf Hpx Hc Ht.
  pose proof (Z.mod_pos_bound (currentFrame p + 1) (Frames p) ltac:(lia)) as Hm.
  destruct (lookup_lt_is_Some_2 (Timing p) (Z.to_nat (currentFrame p))
              ltac:(lia)) as [d Hd].
  destruct (lookup_lt_is_Some_2 (pixels p)
              (Z.to_nat ((currentFrame p + 1) mod Frames p)) ltac:(lia))
    as [px Hpxl].
  unfold NextFrame.
  rewrite (index_Ok (Timing p) _ d) by (lia || done). rewrite bind_Ok.
  destruct (Z.eqb_spec (Frames p) 0); [lia|].
  unfold add64. rewrite wrap64_id by (unfold in_int, int_min, int_max in *; lia).
  rewrite Z.rem_mod_nonneg by lia.
  rewrite (index_Ok (pixels p) _ px) by (lia || done). rewrite bind_Ok.
  eexists. split; [done|]. by repeat split.
Qed.

(** X10. The load does not look at the length of the delay table, and
    the playback calls index it with the frame index: when the table is
    shorter than the frame table, [NextFrame] runs until the index reaches
    the first frame without a delay, and there [NextFrame], [Step] and
    [CurrentTiming] all panic. *)
Theorem short_delay_table_panics g :
  loadable g ->
  (length (gif.Delay g) < length (gif.Image g))%nat ->
  exists p pk,
    LoadGifFromFile (Decoded g) = Ok p
    /\ do_calls (replicate (length (gif.Delay g)) CallNextFrame) p = Ok pk
    /\ currentFrame pk = Z.of_nat (length (gif.Delay g))
    /\ NextFrame pk = Panic
    /\ (forall dt, Step dt pk = Panic)
    /\ CurrentTiming pk = Panic
    /\ do_calls (replicate (S (length (gif.Delay g))) CallNextFrame) p = Panic.
Proof.
  intros Hg Hshort.
  destruct (load_decoded_locals g Hg) as (p & st & img0 & Hload & _ & Hdone & _ & Hp).
  destruct Hdone as (_ & Hli & _).
  pose proof Hg as [_ _ _ _ Harea Hcache]. unfold frames in Hcache.
  assert (forall k, (k <= length (gif.Delay g))%nat ->
            exists pk, do_calls (replicate k CallNextFrame) p = Ok pk
                       /\ currentFrame pk = Z.of_nat k
                       /\ Frames pk = frames g /\ Timing pk = gif.Delay g
                       /\ pixels pk = images st) as Hrun.
  { induction k as [|k IH]; intros Hk.
    - exists p. subst p. by repeat split.
    - destruct (IH ltac:(lia)) as (pk & Hrunk & Hcur & Hf & Ht & Hpx).
      destruct (NextFrame_partial pk) as (p' & Hn & Hcur' & Hf' & Ht' & Hpx');
        try (rewrite ?Hf, ?Hpx, ?Hcur, ?Ht; unfold frames; lia).
      exists p'. rewrite do_calls_replicate_S, Hrunk. simpl.
      split; [done|]. split; [|split; [congruence|split; congruence]].
      rewrite Hcur', Hcur, Hf. unfold frames. rewrite Z.mod_small; lia. }
  destruct (Hrun (length (gif.Delay g)) (le_n _)) as (pk & Hrunk & Hcur & Hf & Ht & Hpx).
  assert (Slice.index (E:=error) (Timing pk) (currentFrame pk) = Panic) as Hout
    by (apply index_out; rewrite Ht, Hcur; lia).
  exists p, pk. split; [exact Hload|]. split; [done|]. split; [done|].
  split; [unfold NextFrame; by rewrite Hout|].
  split; [intros dt; unfold Step; simpl; by rewrite Hout|].
  split; [exact Hout|].
  rewrite do_calls_replicate_S, Hrunk. simpl. unfold NextFrame. by rewrite Hout.
Qed.
End MorePlayer.

Section MorePlayerExamples.
Import GoInt Rgif Props Examples.

Lemma short_delay_loadable : loadable short_delay.
Proof.
  split; [discriminate | simpl; lia | reflexivity | reflexivity
         | vm_compute; discriminate | vm_compute; discriminate].
Qed.
End MorePlayerExamples.

Lemma reset_returns_to_start_witness :
  exists p',
    Rgif.do_calls [Rgif.CallStep (F32.of_int 50); Rgif.CallNextFrame; Rgif.CallReset]
                  Examples.player_10_10_10 = Ok p'
    /\ Rgif.currentFrame p' = 0 /\ Rgif.lastFrameTime p' = F32.zero
    /\ Rgif.Texture p'
       = Rgif.UpdateTexture (replicate 4 (Rgif.NewColor 255 0 0 255)).
Proof.
  destruct (reset_returns_to_start Examples.player_10_10_10
              [Rgif.CallStep (F32.of_int 50); Rgif.CallNextFrame]
              (proj1 player_10_10_10_ok) (proj2 player_10_10_10_ok))
    as (p1 & p' & Hrun1 & Hrun & Hcur & Htime & Htex & _).
  { repeat constructor. }
  exists p'. split; [exact Hrun|]. split; [exact Hcur|]. split; [exact Htime|].
  rewrite Htex. vm_compute in Hrun1. injection Hrun1 as <-. reflexivity.
Defined.

Lemma texture_shows_the_frame_moved_to_witness :
  exists p',
    Rgif.NextFrame Examples.player_10_10_10 = Ok p'
    /\ Rgif.Texture p'
       = Rgif.UpdateTexture (replicate 4 (Rgif.NewColor 0 255 0 255)).
Proof.
  destruct (texture_shows_the_frame_moved_to Examples.player_10_10_10 F32.zero
              (proj1 player_10_10_10_ok) (proj2 player_10_10_10_ok) eq_refl)
    as ((p' & buf & Hn & Hcur & Hbuf & Htex) & _).
  exists p'. split; [exact Hn|]. rewrite Htex. f_equal.
  rewrite Hcur in Hbuf. vm_compute in Hbuf. by injection Hbuf as <-.
Defined.

Lemma next_frame_cycles_witness :
  exists p',
    Rgif.do_calls [Rgif.CallNextFrame; Rgif.CallNextFrame; Rgif.CallNextFrame]
                  Examples.player_10_10_10 = Ok p'
    /\ Rgif.currentFrame p' = 0.
Proof.
  destruct (next_frame_cycles Examples.player_10_10_10 3
              (proj1 player_10_10_10_ok) (proj2 player_10_10_10_ok))
    as (p' & Hrun & _ & Hback & _).
  exists p'. split; [exact Hrun|]. apply Hback. reflexivity.
Defined.

Lemma next_frame_keeps_or_drops_the_remainder_witness :
  exists p',
    Rgif.NextFrame Examples.player_10_10_10 = Ok p'
    /\ Rgif.currentFrame p' = 1 /\ Rgif.lastFrameTime p' = F32.zero.
Proof.
  destruct (next_frame_keeps_or_drops_the_remainder Examples.player_10_10_10
              (proj1 player_10_10_10_ok))
    as (d & p' & Hd & Hn & Hcur & _ & Hdrop);
    [vm_compute; split; congruence | reflexivity |].
  injection Hd as <-.
  exists p'. split; [exact Hn|]. split; [exact Hcur|]. apply Hdrop. reflexivity.
Defined.

Lemma short_delay_table_panics_witness :
  exists p,
    Rgif.LoadGifFromFile (Rgif.Decoded Examples.short_delay) = Ok p
    /\ Rgif.do_calls [Rgif.CallNextFrame; Rgif.CallNextFrame] p = Panic.
Proof.
  destruct (short_delay_table_panics Examples.short_delay short_delay_loadable)
    as (p & pk & Hl & _ & _ & _ & _ & _ & Hpanic); [simpl; lia|].
  exists p. split; [exact Hl|exact Hpanic].
Defined.

(* ===================================================================== *)
(** * More on the registry *)

Section MoreRegistry.
Import Registry.
Context {H : Type} `{EqDecision H} (unregisters : H -> bool).
Implicit Types (st : state H) (u : option H) (l : list (option H)) (h : H).

(** X11. Registering an object and removing it again gives back the
    registry as it was, slot for slot, whether or not the object was
    already registered. *)
Theorem add_then_remove_restores st u :
  unloadingAll st = false ->
  removeUnloadable u (addUnloadable u st) = st.
Proof.
  intros Hf. unfold removeUnloadable, addUnloadable. simpl. rewrite Hf.
  destruct (find_slot_present u (unloadables st ++ [u])) as [i Hi].
  { apply elem_of_app. right. left. }
  rewrite Hi. pose proof (find_slot_found _ _ _ Hi) as Hlook.
  pose proof (lookup_lt_Some _ _ _ Hlook) as Hlt.
  rewrite length_app in Hlt. simpl in Hlt.
  rewrite swap_remove_snoc by lia.
  destruct st as [f l log]. simpl in *. subst f. f_equal.
  destruct (decide (i < length l)%nat) as [Hil|Hil]; [|done].
  rewrite lookup_app_l in Hlook by done. by apply list_insert_id.
Qed.

(** X12. Outside the sweep, removing an object that is registered takes
    away exactly one slot holding it: the registry is one slot shorter, the
    other slots keep their contents (their order may change, the last slot
    moving into the gap), and no [Unload] is called. *)
Theorem remove_takes_one_slot st u :
  unloadingAll st = false ->
  u ∈ unloadables st ->
  let st' := removeUnloadable u st in
  unloadables st ≡ₚ u :: unloadables st'
  /\ S (length (unloadables st')) = length (unloadables st)
  /\ invoked st' = invoked st
  /\ unloadingAll st' = false
  /\ (forall h, Some h ≠ u -> registrations h st' = registrations h st)
  /\ (forall h, Some h = u -> S (registrations h st') = registrations h st).
Proof.
  intros Hf Hin st'.
  pose proof (removeUnloadable_perm u st Hf Hin) as Hperm. fold st' in Hperm.
  split; [done|].
  split; [by rewrite Hperm|].
  assert (invoked st' = invoked st /\ unloadingAll st' = false) as [Hi Hu].
  { unfold st', removeUnloadable. rewrite Hf.
    by destruct (find_slot u (unloadables st)). }
  split; [done|]. split; [done|].
  split; intros h Hh; unfold registrations;
    rewrite (registrations_perm h _ _ Hperm), filter_cons.
  - by rewrite decide_False.
  - by rewrite decide_True.
Qed.

Lemma sweep_tally l log t i k :
  (i + k <= length l)%nat ->
  0 <= t -> t + Z.of_nat k <= GoInt.int_max ->
  (foldl (sweep_step unregisters) (mkState true l log, t) (seq i k)).2
  = t + Z.of_nat (length (omap id (take k (drop i l)))).
Proof.
  revert log t i. induction k as [|k IH]; intros log t i Hik Ht Hmax.
  - simpl. lia.
  - simpl. unfold sweep_step at 2. simpl.
    destruct (lookup_lt_is_Some_2 l i ltac:(lia)) as [v Hv].
    rewrite Hv. rewrite (drop_S _ _ _ Hv). simpl.
    destruct v as [h|].
    + rewrite Unload_sweeping by done.
      unfold GoInt.add64.
      rewrite wrap64_id
        by (unfold GoInt.in_int, GoInt.int_min, GoInt.int_max in *; lia).
      rewrite IH by lia.
      change (omap id (Some h :: take k (drop (S i) l)))
        with (h :: omap id (take k (drop (S i) l))).
      rewrite length_cons, Nat2Z.inj_succ. unfold omap. lia.
    + rewrite IH by lia. done.
Qed.

Lemma entries_registered st (hs : list H) :
  entries (foldl (λ s h, addUnloadable (Some h) s) st hs) = entries st ++ hs
  /\ invoked (foldl (λ s h, addUnloadable (Some h) s) st hs) = invoked st
  /\ length (unloadables (foldl (λ s h, addUnloadable (Some h) s) st hs))
     = (length (unloadables st) + length hs)%nat.
Proof.
  revert st. induction hs as [|h hs IH]; intros st; simpl.
  - rewrite app_nil_r. repeat split; lia.
  - destruct (IH (addUnloadable (Some h) st)) as (-> & -> & ->).
    unfold entries, addUnloadable. simpl. rewrite omap_app, length_app. simpl.
    rewrite <- app_assoc. repeat split; lia.
Qed.

Lemma UnloadAll_result st :
  Z.of_nat (length (unloadables st)) <= GoInt.int_max ->
  UnloadAll unregisters st
  = (mkState false [] (invoked st ++ entries st),
     Z.of_nat (length (entries st))).
Proof.
  intros Hlen. rewrite (surjective_pairing (UnloadAll _ st)).
  rewrite UnloadAll_sweep. f_equal.
  unfold UnloadAll. cbn [snd].
  rewrite sweep_tally by (simpl; lia). simpl.
  by rewrite firstn_all.
Qed.

(** X13. Objects registered one after the other and not removed are
    unloaded by [UnloadAll] in the order of their registration, after the
    objects the registry already held; the sweep empties the registry and
    its tally is the number of objects unloaded. On the fresh registry the
    hundred nil slots it starts with are skipped: exactly the registered
    objects are unloaded. *)
Theorem sweep_unloads_in_registration_order st (hs : list H) :
  Z.of_nat (length (unloadables st) + length hs) <= GoInt.int_max ->
  let st' := foldl (λ s h, addUnloadable (Some h) s) st hs in
  UnloadAll unregisters st'
  = (mkState false [] (invoked st ++ entries st ++ hs),
     Z.of_nat (length (entries st) + length hs))
  /\ (st = initial ->
      UnloadAll unregisters st' = (mkState false [] hs, Z.of_nat (length hs))).
Proof.
  intros Hlen st'.
  destruct (entries_registered st hs) as (He & Hi & Hl).
  fold st' in He, Hi, Hl.
  assert (UnloadAll unregisters st'
          = (mkState false [] (invoked st ++ entries st ++ hs),
             Z.of_nat (length (entries st) + length hs))) as Hres.
  { rewrite UnloadAll_result by (rewrite Hl; lia).
    by rewrite He, Hi, length_app. }
  split; [done|].
  intros ->. rewrite Hres. reflexivity.
Qed.
End MoreRegistry.

Lemma add_then_remove_restores_witness :
  let st := Registry.mkState false [None; Some 4%nat; Some 7%nat] [] in
  Registry.removeUnloadable (Some 9%nat) (Registry.addUnloadable (Some 9%nat) st) = st.
Proof.
  intros st. apply (add_then_remove_restores st (Some 9%nat)). reflexivity.
Defined.

Lemma remove_takes_one_slot_witness :
  let st := Registry.mkState false [Some 4%nat; None; Some 7%nat; Some 9%nat] [] in
  Registry.unloadables (Registry.removeUnloadable (Some 4%nat) st)
  = [Some 9%nat; None; Some 7%nat]
  /\ S (length (Registry.unloadables (Registry.removeUnloadable (Some 4%nat) st)))
     = 4%nat.
Proof.
  intros st.
  destruct (remove_takes_one_slot st (Some 4%nat) eq_refl) as (_ & Hlen & _).
  { left. }
  split; [reflexivity|exact Hlen].
Defined.

Lemma sweep_unloads_in_registration_order_witness :
  Registry.UnloadAll (fun _ => true)
    (foldl (λ s h, Registry.addUnloadable (Some h) s) Registry.initial
           [3; 1; 2]%nat)
  = (Registry.mkState false [] [3; 1; 2]%nat, 3).
Proof.
  destruct (sweep_unloads_in_registration_order (fun _ => true)
              (@Registry.initial nat) [3; 1; 2]%nat) as [_ Hs].
  - unfold GoInt.int_max. simpl. lia.
  - exact (Hs eq_refl).
Defined.
